(** * Heredity: exact inference over a pedigree by enumeration

    A shallow embedding of [src/heredity/heredity.py].  The program reads a
    pedigree, enumerates every trait subset consistent with the observed
    traits and, for each, every split of the people into one-copy and two-copy
    groups, weighs each scenario with [joint_probability], accumulates the
    weights per person with [update] and rescales them with [normalize].

    Modelling decisions.
    - A Python [dict] is a list of key/value pairs in insertion order, the
      order in which [for person in people] visits it.
    - A Python [set] of names is the list of its members in iteration order.
      That order is unspecified in Python and changes from run to run for
      strings.  The exact results do not depend on it.  Of the
      floating-point statements, the runs of a single person have one order
      only; the rounding bounds and the table of the three-person family
      are stated for the order taken here.
    - Python numbers are kept abstract ([Arith]) and the program is embedded
      once, over any arithmetic.  Two arithmetics are given: [rational], where
      every operation is exact, and [binary64], the IEEE 754 double precision
      arithmetic that CPython's [float] uses (round to nearest even), taken
      from the Standard Library's executable specification [SpecFloat].
    - [sum] over the values of a dict adds them from left to right,
      starting from [0], as CPython does up to version 3.11.  From 3.12 on
      [sum] compensates the rounding errors of floats, which can change the
      last bit of a total.  The floating-point tables given in full for
      the lone founder and the child with absent parents are the same under
      both ways of summing; the rounding bounds are proved for the sum from
      left to right.
    - [ZeroDivisionError] is the only exception the inference can raise; a
      function that can raise it returns [option]. *)

From Stdlib Require Import List String Bool Arith ZArith.
From Stdlib Require Import QArith Qabs Qfield Qpower.
From Stdlib Require Import Lia Lqa Permutation Sorted.
From Stdlib Require Import Floats.SpecFloat.
Import ListNotations.

Close Scope Q_scope.
Open Scope string_scope.
Open Scope list_scope.

(** ** Python numbers *)

(** [lit q] is the number denoted by the literal whose exact value is [q];
    [div] raises [ZeroDivisionError] ([None]) on a zero divisor. *)
Record Arith : Type := {
  num : Type;
  lit : Q -> num;
  add : num -> num -> num;
  sub : num -> num -> num;
  mul : num -> num -> num;
  div : num -> num -> option num
}.

Arguments lit _ _%_Q.

(** Exact arithmetic on rationals. *)
Definition rational : Arith := {|
  num := Q;
  lit := fun q => q;
  add := Qplus;
  sub := Qminus;
  mul := Qmult;
  div := fun x y => if Qeq_bool y 0 then None else Some (x / y)%Q
|}.

(** IEEE 754 binary64, as CPython floats. *)
Module Binary64.

Definition prec : Z := 53.
Definition emax : Z := 1024.

Definition of_Z (z : Z) : spec_float := binary_normalize prec emax z 0 false.

(** A decimal literal is read as the double nearest to its value.  For a
    numerator and a denominator below [2^53] that is their correctly
    rounded quotient. *)
Definition of_literal (q : Q) : spec_float :=
  SFdiv prec emax (of_Z (Qnum q)) (of_Z (Zpos (Qden q))).

Definition is_zero (x : spec_float) : bool :=
  match x with
  | S754_zero _ => true
  | _ => false
  end.

(** [x / y] on Python floats: an exception on a zero divisor, never an
    infinity or a NaN. *)
Definition truediv (x y : spec_float) : option spec_float :=
  if is_zero y then None else Some (SFdiv prec emax x y).

(** The rational value of a finite double. *)
Definition to_Q (x : spec_float) : Q :=
  match x with
  | S754_finite s m e =>
      let v := match e with
               | Z0 => inject_Z (Zpos m)
               | Zpos p => inject_Z (Zpos m * 2 ^ Zpos p)
               | Zneg p => Qmake (Zpos m) (2 ^ p)
               end in
      if s then Qopp v else v
  | _ => 0%Q
  end.

(** [x] is [+0.0], a positive double or [+inf]; then [0.0 <= x] holds. *)
Definition nonneg (x : spec_float) : bool :=
  match x with
  | S754_zero false | S754_infinity false | S754_finite false _ _ => true
  | _ => false
  end.

(** [x] is a positive finite double. *)
Definition positive_finite (x : spec_float) : bool :=
  match x with
  | S754_finite false _ _ => true
  | _ => false
  end.

End Binary64.

Definition binary64 : Arith := {|
  num := spec_float;
  lit := Binary64.of_literal;
  add := SFadd Binary64.prec Binary64.emax;
  sub := SFsub Binary64.prec Binary64.emax;
  mul := SFmul Binary64.prec Binary64.emax;
  div := Binary64.truediv
|}.

(** ** Python containers *)

(** A [dict] with string keys, in insertion order. *)
Definition dict (V : Type) : Type := list (string * V).

Definition keys {V : Type} (d : dict V) : list string := map fst d.

(** [d[k]] *)
Fixpoint lookup {V : Type} (d : dict V) (k : string) : option V :=
  match d with
  | [] => None
  | (k', v) :: d' => if String.eqb k k' then Some v else lookup d' k
  end.

(** [d[k] = v]: an existing key keeps its position. *)
Fixpoint dict_set {V : Type} (d : dict V) (k : string) (v : V) : dict V :=
  match d with
  | [] => [(k, v)]
  | (k', v') :: d' =>
      if String.eqb k k' then (k, v) :: d' else (k', v') :: dict_set d' k v
  end.

(** A [set] of names. *)
Definition pyset : Type := list string.

(** [x in s] *)
Definition mem (x : string) (s : pyset) : bool := existsb (String.eqb x) s.

(** [x in s] where [x] may be [None], which is a member of no set of names. *)
Definition mem_opt (x : option string) (s : pyset) : bool :=
  match x with
  | Some y => mem y s
  | None => false
  end.

(** [set(l)] *)
Definition to_set (l : list string) : pyset := nodup string_dec l.

(** [s - t] *)
Definition difference (s t : pyset) : pyset :=
  filter (fun x => negb (mem x t)) s.

(** [itertools.combinations(s, r)], in the order itertools yields them. *)
Fixpoint combinations (s : list string) (r : nat) : list (list string) :=
  match s, r with
  | _, O => [[]]
  | [], S _ => []
  | x :: s', S r' => map (cons x) (combinations s' r') ++ combinations s' r
  end.

(** [powerset(s)]: the combinations of every size [0 .. len(s)], chained,
    each turned into a set. *)
Definition powerset (s : pyset) : list pyset :=
  map to_set (flat_map (combinations s) (seq 0 (List.length s + 1))).

(** ** Pedigree *)

Record Person : Type := {
  name : string;
  mother : option string;
  father : option string;
  trait : option bool
}.

(** A row of the CSV file, as [csv.DictReader] yields it. *)
Record Row : Type := {
  row_name : string;
  row_mother : string;
  row_father : string;
  row_trait : string
}.

(** [s or None] *)
Definition or_None (s : string) : option string :=
  if String.eqb s "" then None else Some s.

Definition load_row (row : Row) : Person := {|
  name := row_name row;
  mother := or_None (row_mother row);
  father := or_None (row_father row);
  trait := if String.eqb (row_trait row) "1" then Some true
           else if String.eqb (row_trait row) "0" then Some false
           else None
|}.

(** [load_data], from the rows of the file on. *)
Definition load_data (rows : list Row) : dict Person :=
  fold_left (fun data row => dict_set data (row_name row) (load_row row))
            rows [].

(** The number of copies of the gene: the keys [0], [1], [2] of the tables,
    written [C0], [C1], [C2]. *)
Inductive copies : Type := C0 | C1 | C2.

(** [2 if person in two_genes else 1 if person in one_gene else 0] *)
Definition gene_count (one_gene two_genes : pyset) (person : string) : copies :=
  if mem person two_genes then C2
  else if mem person one_gene then C1
  else C0.

(** The same expression for a parent, which is [None] when only the other
    parent is recorded. *)
Definition parent_count (one_gene two_genes : pyset) (parent : option string)
  : copies :=
  if mem_opt parent two_genes then C2
  else if mem_opt parent one_gene then C1
  else C0.

(** One call of [joint_probability]: [(one_gene, two_genes, have_trait)]. *)
Definition call : Type := (pyset * pyset * pyset)%type.

(** All lists of [n] gene counts. *)
Fixpoint all_counts (n : nat) : list (list copies) :=
  match n with
  | O => [[]]
  | S n' =>
      map (cons C0) (all_counts n') ++ map (cons C1) (all_counts n')
        ++ map (cons C2) (all_counts n')
  end.

(** The gene counts that [(one_gene, two_genes)] gives to [names], in order. *)
Definition counts_of (names : pyset) (c : call) : list copies :=
  map (gene_count (fst (fst c)) (snd (fst c))) names.

(** All sublists of a list, the usual recursive way. *)
Fixpoint sublists (l : list string) : list (list string) :=
  match l with
  | [] => [[]]
  | x :: l' => map (cons x) (sublists l') ++ sublists l'
  end.

Section Heredity.

Context (A : Arith).

Notation "x * y" := (mul A x y).
Notation "x + y" := (add A x y).
Notation "x - y" := (sub A x y).

(** *** [PROBS] *)

Definition PROBS_gene (g : copies) : num A :=
  match g with
  | C2 => lit A (1 # 100)
  | C1 => lit A (3 # 100)
  | C0 => lit A (96 # 100)
  end.

Definition PROBS_trait (g : copies) (t : bool) : num A :=
  match g, t with
  | C2, true => lit A (65 # 100)
  | C2, false => lit A (35 # 100)
  | C1, true => lit A (56 # 100)
  | C1, false => lit A (44 # 100)
  | C0, true => lit A (1 # 100)
  | C0, false => lit A (99 # 100)
  end.

Definition PROBS_mutation : num A := lit A (1 # 100).

(** *** [joint_probability] *)

(** The local table [passing_prob]. *)
Definition passing_prob (g : copies) : num A :=
  match g with
  | C0 => PROBS_mutation
  | C1 => lit A (1 # 2)
  | C2 => lit A 1 - PROBS_mutation
  end.

(** The body of the loop, for one [person] with record [info]. *)
Definition joint_step (one_gene two_genes have_trait : pyset)
    (probability : num A) (entry : string * Person) : num A :=
  let '(person, info) := entry in
  let genes := gene_count one_gene two_genes person in
  let has_trait := mem person have_trait in
  let probability :=
    match mother info with
    | None => probability * PROBS_gene genes
    | Some _ =>
        let mother_genes := parent_count one_gene two_genes (mother info) in
        let father_genes := parent_count one_gene two_genes (father info) in
        match genes with
        | C2 =>
            probability
            * (passing_prob mother_genes * passing_prob father_genes)
        | C1 =>
            probability
            * (passing_prob mother_genes * (lit A 1 - passing_prob father_genes)
               + (lit A 1 - passing_prob mother_genes) * passing_prob father_genes)
        | C0 =>
            probability
            * ((lit A 1 - passing_prob mother_genes)
               * (lit A 1 - passing_prob father_genes))
        end
    end in
  probability * PROBS_trait genes has_trait.

Definition joint_probability (people : dict Person)
    (one_gene two_genes have_trait : pyset) : num A :=
  fold_left (joint_step one_gene two_genes have_trait) people (lit A 1).

(** *** The posterior tables *)

(** [{"gene": {2: _, 1: _, 0: _}, "trait": {True: _, False: _}}] *)
Record Distribution : Type := {
  gene2 : num A;
  gene1 : num A;
  gene0 : num A;
  trait_true : num A;
  trait_false : num A
}.

Definition gene (d : Distribution) (g : copies) : num A :=
  match g with
  | C2 => gene2 d
  | C1 => gene1 d
  | C0 => gene0 d
  end.

Definition trait_of (d : Distribution) (t : bool) : num A :=
  if t then trait_true d else trait_false d.

Definition zero_distribution : Distribution := {|
  gene2 := lit A 0; gene1 := lit A 0; gene0 := lit A 0;
  trait_true := lit A 0; trait_false := lit A 0
|}.

(** The table [probabilities] that [main] starts from. *)
Definition initial (people : dict Person) : dict Distribution :=
  map (fun entry => (fst entry, zero_distribution)) people.

(** [d["gene"][genes] += p; d["trait"][has_trait] += p] *)
Definition add_mass (d : Distribution) (genes : copies) (has_trait : bool)
    (p : num A) : Distribution := {|
  gene2 := match genes with C2 => gene2 d + p | _ => gene2 d end;
  gene1 := match genes with C1 => gene1 d + p | _ => gene1 d end;
  gene0 := match genes with C0 => gene0 d + p | _ => gene0 d end;
  trait_true := if has_trait then trait_true d + p else trait_true d;
  trait_false := if has_trait then trait_false d else trait_false d + p
|}.

Definition update (probabilities : dict Distribution)
    (one_gene two_genes have_trait : pyset) (p : num A) : dict Distribution :=
  map (fun entry : string * Distribution =>
         let (person, d) := entry in
         (person,
          add_mass d (gene_count one_gene two_genes person)
                   (mem person have_trait) p))
      probabilities.

(** [sum(d["gene"].values())] and [sum(d["trait"].values())]; [sum] starts
    from [0] and the values come in the order of the keys. *)
Definition gene_total (d : Distribution) : num A :=
  ((lit A 0 + gene2 d) + gene1 d) + gene0 d.

Definition trait_total (d : Distribution) : num A :=
  (lit A 0 + trait_true d) + trait_false d.

Definition normalize_person (d : Distribution) : option Distribution :=
  match div A (gene2 d) (gene_total d),
        div A (gene1 d) (gene_total d),
        div A (gene0 d) (gene_total d),
        div A (trait_true d) (trait_total d),
        div A (trait_false d) (trait_total d) with
  | Some g2, Some g1, Some g0, Some t1, Some t0 =>
      Some {| gene2 := g2; gene1 := g1; gene0 := g0;
              trait_true := t1; trait_false := t0 |}
  | _, _, _, _, _ => None
  end.

Fixpoint normalize (probabilities : dict Distribution)
  : option (dict Distribution) :=
  match probabilities with
  | [] => Some []
  | (person, d) :: rest =>
      match normalize_person d with
      | None => None
      | Some d' =>
          match normalize rest with
          | None => None
          | Some rest' => Some ((person, d') :: rest')
          end
      end
  end.

(** *** The enumeration of [main] *)

(** The state of the loops: the table, and the calls of
    [joint_probability] made so far, oldest first. *)
Record Run : Type := {
  probabilities : dict Distribution;
  evaluated : list call
}.

Definition fails_evidence (people : dict Person) (names have_trait : pyset)
  : bool :=
  existsb
    (fun person =>
       match lookup people person with
       | Some info =>
           match trait info with
           | Some t => negb (Bool.eqb t (mem person have_trait))
           | None => false
           end
       | None => false
       end)
    names.

(** The body of the innermost loop. *)
Definition evaluate (people : dict Person) (have_trait one_gene : pyset)
    (run : Run) (two_genes : pyset) : Run :=
  let p := joint_probability people one_gene two_genes have_trait in
  {| probabilities :=
       update (probabilities run) one_gene two_genes have_trait p;
     evaluated := evaluated run ++ [(one_gene, two_genes, have_trait)] |}.

(** [for one_gene in powerset(names):
       for two_genes in powerset(names - one_gene): ...] *)
Definition gene_loop (people : dict Person) (names have_trait : pyset)
    (run : Run) : Run :=
  fold_left
    (fun run one_gene =>
       fold_left (evaluate people have_trait one_gene)
                 (powerset (difference names one_gene)) run)
    (powerset names) run.

(** The body of the outermost loop. *)
Definition trait_step (people : dict Person) (names : pyset) (run : Run)
    (have_trait : pyset) : Run :=
  if fails_evidence people names have_trait then run
  else gene_loop people names have_trait run.

(** The outermost loop, over any list of candidates. *)
Definition accumulate (people : dict Person) (names : pyset)
    (candidates : list pyset) (run : Run) : Run :=
  fold_left (trait_step people names) candidates run.

Definition enumerate (people : dict Person) : Run :=
  let names := to_set (keys people) in
  accumulate people names (powerset names)
             {| probabilities := initial people; evaluated := [] |}.

(** [main], from the loaded pedigree to the table it prints. *)
Definition main (people : dict Person) : option (dict Distribution) :=
  normalize (probabilities (enumerate people)).

(** *** The specification's wording, for comparison *)

(** Section 4.1: the probability that a parent with [g] copies transmits
    the gene. *)
Definition transmit (g : copies) : num A :=
  match g with
  | C2 => lit A 1 - PROBS_mutation
  | C1 => lit A (1 # 2)
  | C0 => PROBS_mutation
  end.

(** Section 4.1: the distribution of the child's count, from the transmit
    probabilities of the mother and the father. *)
Definition child_distribution (t_mother t_father : num A) (g : copies)
  : num A :=
  match g with
  | C2 => t_mother * t_father
  | C1 => t_mother * (lit A 1 - t_father) + (lit A 1 - t_mother) * t_father
  | C0 => (lit A 1 - t_mother) * (lit A 1 - t_father)
  end.

(** Section 4.2 (a): the probability of a person's gene count. *)
Definition gene_factor (one_gene two_genes : pyset)
    (entry : string * Person) : num A :=
  let '(person, info) := entry in
  match mother info, father info with
  | Some m, Some f =>
      child_distribution (transmit (gene_count one_gene two_genes m))
                         (transmit (gene_count one_gene two_genes f))
                         (gene_count one_gene two_genes person)
  | _, _ => PROBS_gene (gene_count one_gene two_genes person)
  end.

(** Section 4.2 (b): the probability of a person's trait value. *)
Definition trait_factor (one_gene two_genes have_trait : pyset)
    (entry : string * Person) : num A :=
  PROBS_trait (gene_count one_gene two_genes (fst entry))
              (mem (fst entry) have_trait).

End Heredity.

Arguments gene2 {A} _.
Arguments gene1 {A} _.
Arguments gene0 {A} _.
Arguments trait_true {A} _.
Arguments trait_false {A} _.
Arguments probabilities {A} _.
Arguments evaluated {A} _.

(** ** Notions used in the statements *)

(** Section 3 of the data model: the parents of a person are both recorded
    or both absent. *)
Definition both_or_neither (people : dict Person) : Prop :=
  Forall (fun entry : string * Person =>
            mother (snd entry) = None <-> father (snd entry) = None)
         people.

(** The product of a list of rationals. *)
Definition product (l : list Q) : Q := fold_right Qmult 1%Q l.

(** The sum of a list of rationals. *)
Definition total (l : list Q) : Q := fold_right Qplus 0%Q l.

(** A person with the given parents. *)
Definition child (n m f : string) (t : option bool) : Person :=
  {| name := n; mother := Some m; father := Some f; trait := t |}.

(** A person without parents and without an observed trait. *)
Definition founder (n : string) : Person :=
  {| name := n; mother := None; father := None; trait := None |}.

(** The family of the course's first data set: Harry, the child of Lily and
    James. *)
Definition family0 : dict Person :=
  [ ("Harry", child "Harry" "Lily" "James" None);
    ("James", {| name := "James"; mother := None; father := None;
                 trait := Some true |});
    ("Lily", {| name := "Lily"; mother := None; father := None;
                trait := Some false |}) ].

(** The calls that the two inner loops of [main] make for the candidate
    [have_trait], as a comprehension. *)
Definition gene_assignments (names have_trait : pyset) : list call :=
  flat_map (fun one_gene =>
              map (fun two_genes => (one_gene, two_genes, have_trait))
                  (powerset (difference names one_gene)))
           (powerset names).

(** The same with [sublists] in the place of [powerset]. *)
Definition sublist_assignments (names have_trait : pyset) : list call :=
  flat_map (fun one_gene =>
              map (fun two_genes => (one_gene, two_genes, have_trait))
                  (sublists (difference names one_gene)))
           (sublists names).

(** What one call contributes: the table after [joint_probability] and
    [update] for the scenario [c]. *)
Definition apply_call (A : Arith) (people : dict Person)
    (table : dict (Distribution A)) (c : call) : dict (Distribution A) :=
  let '(one_gene, two_genes, have_trait) := c in
  update A table one_gene two_genes have_trait
         (joint_probability A people one_gene two_genes have_trait).

(** The candidates that pass the evidence test. *)
Definition surviving (people : dict Person) (names : pyset)
    (candidates : list pyset) : list pyset :=
  filter (fun have_trait => negb (fails_evidence people names have_trait))
         candidates.

(** Every scenario of the surviving candidates. *)
Definition scenarios (people : dict Person) (names : pyset)
    (candidates : list pyset) : list call :=
  flat_map (gene_assignments names) (surviving people names candidates).

(** The row of one person after the calls [calls], from the row [d]. *)
Definition person_after (A : Arith) (people : dict Person) (person : string)
    (calls : list call) (d : Distribution A) : Distribution A :=
  fold_left
    (fun d c =>
       add_mass A d (gene_count (fst (fst c)) (snd (fst c)) person)
                (mem person (snd c))
                (joint_probability A people (fst (fst c)) (snd (fst c))
                                   (snd c)))
    calls d.

(** The sum of the joint probabilities of the scenarios [calls], exactly. *)
Definition mass (people : dict Person) (calls : list call) : Q :=
  total (map (fun c => joint_probability rational people (fst (fst c))
                                         (snd (fst c)) (snd c))
             calls).

(** The state in which [main] enters its loops. *)
Definition start (A : Arith) (people : dict Person) : Run A :=
  {| probabilities := initial A people; evaluated := [] |}.

(** The candidate made of the people observed to have the trait. *)
Definition observed_true (people : dict Person) (names : pyset) : pyset :=
  filter (fun person =>
            match lookup people person with
            | Some info =>
                match trait info with
                | Some true => true
                | _ => false
                end
            | None => false
            end)
         names.

(** A row with every entry divided by the sum of its own mapping. *)
Definition scaled (d : Distribution rational) : Distribution rational :=
  Build_Distribution rational
    (gene2 d / gene_total rational d)%Q
    (gene1 d / gene_total rational d)%Q
    (gene0 d / gene_total rational d)%Q
    (trait_true d / trait_total rational d)%Q
    (trait_false d / trait_total rational d)%Q.

(** The scenarios of a pedigree with the single person [n], in the order in
    which [main] evaluates them. *)
Definition single_calls (n : string) : list call :=
  [ ([], [], []); ([], [n], []); ([n], [], []);
    ([], [], [n]); ([], [n], [n]); ([n], [], [n]) ].

(** The weight of a lone founder with count [g] and trait value [t], as
    [joint_probability] computes it. *)
Definition founder_weight (A : Arith) (g : copies) (t : bool) : num A :=
  mul A (mul A (lit A 1) (PROBS_gene A g)) (PROBS_trait A g t).

(** The accumulated row of a lone founder without an observed trait. *)
Definition founder_row (A : Arith) : Distribution A :=
  Build_Distribution A
    (add A (add A (lit A 0) (founder_weight A C2 false))
           (founder_weight A C2 true))
    (add A (add A (lit A 0) (founder_weight A C1 false))
           (founder_weight A C1 true))
    (add A (add A (lit A 0) (founder_weight A C0 false))
           (founder_weight A C0 true))
    (add A (add A (add A (lit A 0) (founder_weight A C0 true))
                  (founder_weight A C2 true))
           (founder_weight A C1 true))
    (add A (add A (add A (lit A 0) (founder_weight A C0 false))
                  (founder_weight A C2 false))
           (founder_weight A C1 false)).

(** A file with one row: Harry, whose parents have no rows of their own. *)
Definition orphan_rows : list Row :=
  [ {| row_name := "Harry"; row_mother := "Lily"; row_father := "James";
       row_trait := "" |} ].

(** A file with one row: A, with no mother and a father B who has no row. *)
Definition lone_father_rows : list Row :=
  [ {| row_name := "A"; row_mother := ""; row_father := "B";
       row_trait := "" |} ].

(** Equality of doubles as Python's [==] decides it. *)
Definition float_eqb (x y : num binary64) : bool :=
  SFeqb x y.

(** The absolute difference of two rationals is at most [1e-9]. *)
Definition within_1e9 (x y : Q) : Prop :=
  (Qabs (x - y) <= 1 # 1000000000)%Q.

(** The positive double [m * 2^e]. *)
Definition double (m : positive) (e : Z) : num binary64 :=
  S754_finite false m e.

(** The table that [main] returns in floating point for [family0], with
    the sets iterated in the order of the dict and the totals summed from
    left to right: to four places Harry 0.0092,
    0.4557, 0.5351 and 0.2665, 0.7335; James 0.1976, 0.5106, 0.2918 and
    1, 0; Lily 0.0036, 0.0136, 0.9827 and 0, 1. *)
Definition family0_double : dict (Distribution binary64) :=
  [ ("Harry",
     Build_Distribution binary64
       (double 5293708117287307 (-59)) (double 8209130237803905 (-54))
       (double 4819919946506426 (-53))
       (double 4801039778232714 (-54)) (double 6606679365624635 (-53)));
    ("James",
     Build_Distribution binary64
       (double 7118151386725404 (-55)) (double 4599420896037954 (-53))
       (double 5256481024043374 (-54))
       (double 4503599627370496 (-52)) (S754_zero false));
    ("Lily",
     Build_Distribution binary64
       (double 8345001067364214 (-61)) (double 7868143863514830 (-59))
       (double 8851661846454182 (-53))
       (S754_zero false) (double 4503599627370496 (-52))) ].

(** The row that [main] returns in floating point for a lone founder:
    0.01, 0.030000000000000002, 0.96 and 0.032900000000000006, 0.9671. *)
Definition founder_double : Distribution binary64 :=
  Build_Distribution binary64
    (double 5764607523034235 (-59)) (double 8646911284551353 (-58))
    (double 8646911284551352 (-53))
    (double 4741389687695659 (-57)) (double 8710862399260013 (-53)).

(** The row that [main] returns in floating point for [orphan_rows]:
    0.00010000000000000002, 0.01980000000000001, 0.9801 and
    0.020954000000000004, 0.979046. *)
Definition orphan_double : Distribution binary64 :=
  Build_Distribution binary64
    (double 7378697629483822 (-66)) (double 5706961447803895 (-58))
    (double 8827955989571646 (-53))
    (double 6039579301882969 (-58)) (double 8818462401557149 (-53)).

(** The exact sums of the doubles of a row. *)
Definition gene_sum_Q (d : Distribution binary64) : Q :=
  (Binary64.to_Q (gene2 d) + Binary64.to_Q (gene1 d)
   + Binary64.to_Q (gene0 d))%Q.

Definition trait_sum_Q (d : Distribution binary64) : Q :=
  (Binary64.to_Q (trait_true d) + Binary64.to_Q (trait_false d))%Q.

(** ** Doubles as rationals *)

(** The least exponent that rounding to a double leaves to a number of
    [e] binary digits. *)
Definition fexp64 (e : Z) : Z := SpecFloat.fexp Binary64.prec Binary64.emax e.

(** The double that rounding returns for the mantissa [m] and exponent [e]
    it ends with. *)
Definition pack (m e : Z) : spec_float :=
  match m with
  | Z0 => S754_zero false
  | Zpos p =>
      if (e <=? 971)%Z then S754_finite false p e else S754_infinity false
  | Zneg _ => S754_nan
  end.

(** The rational [m * 2^e]. *)
Definition value (m e : Z) : Q := (inject_Z m * 2 ^ e)%Q.

(** [x] is [+0.0], [+inf] or a positive double whose exponent is not below
    the least one: what the sums and products of such numbers are. *)
Definition sane (x : spec_float) : bool :=
  match x with
  | S754_zero false | S754_infinity false => true
  | S754_finite false _ e => (-1074 <=? e)%Z
  | _ => false
  end.

(** The unit roundoff [2^-52] of the coarse bounds. *)
Definition roundoff : Q := 1 # 4503599627370496.

(** The least positive double, [2^-1074]. *)
Definition least_double : Q := (2 ^ (-1074))%Q.

(** Every entry of the row is [+0.0], [+inf] or a positive double. *)
Definition sane_row (d : Distribution binary64) : Prop :=
  sane (gene2 d) = true /\ sane (gene1 d) = true /\ sane (gene0 d) = true
  /\ sane (trait_true d) = true /\ sane (trait_false d) = true.

(** ** Notions used in the further properties *)

(** A father recorded without a mother is dropped. *)
Definition without_lone_father (info : Person) : Person :=
  match mother info with
  | None => {| name := name info; mother := None; father := None;
               trait := trait info |}
  | Some _ => info
  end.

Definition copies_eqb (g h : copies) : bool :=
  match g, h with
  | C0, C0 | C1, C1 | C2, C2 => true
  | _, _ => false
  end.

(** The scenarios of [calls] in which [person] has [g] copies. *)
Definition with_count (person : string) (g : copies) (calls : list call)
  : list call :=
  filter (fun c => copies_eqb (gene_count (fst (fst c)) (snd (fst c)) person) g)
         calls.

(** The scenarios of [calls] in which the trait of [person] is [t]. *)
Definition with_trait (person : string) (t : bool) (calls : list call)
  : list call :=
  filter (fun c => Bool.eqb (mem person (snd c)) t) calls.

(** Two rows with equal entries. *)
Definition row_eq (d d' : Distribution rational) : Prop :=
  (gene2 d == gene2 d' /\ gene1 d == gene1 d' /\ gene0 d == gene0 d'
   /\ trait_true d == trait_true d' /\ trait_false d == trait_false d')%Q.

(** Two tables with the same persons in the same order and equal rows. *)
Definition table_eq (t t' : dict (Distribution rational)) : Prop :=
  Forall2 (fun e e' => fst e = fst e' /\ row_eq (snd e) (snd e')) t t'.

(** Two sets with the same members. *)
Definition same_members (s t : pyset) : Prop := forall x, In x s <-> In x t.

(** Two scenarios made of the same sets. *)
Definition same_call (c c' : call) : Prop :=
  same_members (fst (fst c)) (fst (fst c'))
  /\ same_members (snd (fst c)) (snd (fst c'))
  /\ same_members (snd c) (snd c').

(** The number of persons whose trait is not observed. *)
Definition unobserved (people : dict Person) : nat :=
  List.length
    (filter (fun entry : string * Person =>
               match trait (snd entry) with
               | None => true
               | Some _ => false
               end)
            people).

(** The test of [fails_evidence] for one person. *)
Definition contradicts (people : dict Person) (have_trait : pyset)
    (person : string) : bool :=
  match lookup people person with
  | Some info =>
      match trait info with
      | Some t => negb (Bool.eqb t (mem person have_trait))
      | None => false
      end
  | None => false
  end.

(** No trait is observed for [person]. *)
Definition free (people : dict Person) (person : string) : bool :=
  match lookup people person with
  | Some info =>
      match trait info with
      | Some _ => false
      | None => true
      end
  | None => true
  end.

(** [x] is the mother or the father of the person with record [info]. *)
Definition parent_of (x : string) (info : Person) : Prop :=
  mother info = Some x \/ father info = Some x.

(** The pedigree lists every child before its parents: the first person is
    the parent of nobody, and so on for the rest. *)
Fixpoint children_first (people : dict Person) : Prop :=
  match people with
  | [] => True
  | (x, info) :: rest =>
      ~ parent_of x info
      /\ (forall entry, In entry rest -> ~ parent_of x (snd entry))
      /\ children_first rest
  end.

(** Every scenario: every trait subset with every gene assignment. *)
Definition all_scenarios (names : pyset) : list call :=
  flat_map (gene_assignments names) (powerset names).

(** All lists of [n] trait values. *)
Fixpoint all_traits (n : nat) : list (list bool) :=
  match n with
  | O => [[]]
  | S n' => map (cons true) (all_traits n') ++ map (cons false) (all_traits n')
  end.

(** The function that gives the names the values of a list, and [default]
    to every other name. *)
Fixpoint assign {V : Type} (default : V) (names : list string)
    (values : list V) (y : string) : V :=
  match names, values with
  | x :: xs, v :: vs => if String.eqb y x then v else assign default xs vs y
  | _, _ => default
  end.

(** What the loop body of [joint_probability] multiplies in for the gene
    count of one person, when [g] gives the count of every name. *)
Definition gene_part (g : string -> copies) (entry : string * Person) : Q :=
  match mother (snd entry) with
  | None => PROBS_gene rational (g (fst entry))
  | Some m =>
      child_distribution rational
        (passing_prob rational (g m))
        (passing_prob rational
           (match father (snd entry) with
            | Some f => g f
            | None => C0
            end))
        (g (fst entry))
  end.

(** What the loop body multiplies in for one person. *)
Definition factor (g : string -> copies) (t : string -> bool)
    (entry : string * Person) : Q :=
  (gene_part g entry * PROBS_trait rational (g (fst entry)) (t (fst entry)))%Q.

(** The product of the factors of all persons. *)
Definition weight (people : dict Person) (g : string -> copies)
    (t : string -> bool) : Q :=
  product (map (factor g t) people).

(** The trait values that the candidate [have_trait] gives to [names]. *)
Definition traits_of (names have_trait : pyset) : list bool :=
  map (fun x => mem x have_trait) names.

(** The sum of the weights of all lists of counts and of trait values for
    the persons of a pedigree. *)
Definition total_weight (people : dict Person) : Q :=
  total
    (map (fun tv =>
            total
              (map (fun v => weight people (assign C0 (keys people) v)
                                    (assign false (keys people) tv))
                   (all_counts (List.length people))))
         (all_traits (List.length people))).

(** The factor of a person with [c] copies and trait value [b], when [g]
    gives the counts of the parents. *)
Definition own_factor (info : Person) (g : string -> copies) (c : copies)
    (b : bool) : Q :=
  ((match mother info with
    | None => PROBS_gene rational c
    | Some m =>
        child_distribution rational
          (passing_prob rational (g m))
          (passing_prob rational
             (match father info with
              | Some f => g f
              | None => C0
              end))
          c
    end) * PROBS_trait rational c b)%Q.

(** The function [g] changed at [x]. *)
Definition upd {V : Type} (g : string -> V) (x : string) (v : V)
  : string -> V :=
  fun y => if String.eqb y x then v else g y.

(** The sum of [F] over the functions that give [names] every list of
    counts. *)
Definition sum_counts (names : list string) (F : (string -> copies) -> Q)
  : Q :=
  total (map (fun v => F (assign C0 names v))
             (all_counts (List.length names))).

(** The sum of [F] over the functions that give [names] every list of trait
    values. *)
Definition sum_traits (names : list string) (F : (string -> bool) -> Q)
  : Q :=
  total (map (fun tv => F (assign false names tv))
             (all_traits (List.length names))).

(** [rank] numbers the generations: every parent who is a person of the
    pedigree has a smaller number than the child. *)
Definition generations (people : dict Person) (rank : string -> nat) : Prop :=
  forall entry p,
    In entry people -> parent_of p (snd entry) -> In p (keys people) ->
    rank p < rank (fst entry).

(** Nobody is an ancestor of themselves. *)
Definition acyclic (people : dict Person) : Prop :=
  exists rank, generations people rank.

(** No trait is observed. *)
Definition no_evidence (people : dict Person) : Prop :=
  forall entry, In entry people -> trait (snd entry) = None.

(** The persons of [l] with [e] put before the first person whose rank is
    not above the rank of [e]. *)
Fixpoint insert_by_rank (rank : string -> nat) (e : string * Person)
    (l : dict Person) : dict Person :=
  match l with
  | [] => [e]
  | e' :: l' =>
      if (rank (fst e') <=? rank (fst e))%nat then e :: l
      else e' :: insert_by_rank rank e l'
  end.

(** The persons of [l] from the highest rank to the lowest. *)
Fixpoint sort_by_rank (rank : string -> nat) (l : dict Person)
  : dict Person :=
  match l with
  | [] => []
  | e :: l' => insert_by_rank rank e (sort_by_rank rank l')
  end.

(** The ranks never increase along [l]. *)
Definition from_high (rank : string -> nat) (l : dict Person) : Prop :=
  StronglySorted (fun a b : string * Person => rank (fst b) <= rank (fst a))
                 l.

(** The vector of counts that gives [g] to [person] and no copy to the
    others. *)
Definition only (person : string) (g : copies) (names : pyset)
  : list copies :=
  map (fun x => if String.eqb x person then g else C0) names.

(** [x] is [+0.0] or a positive double of at most [C]. *)
Definition bounded_by (C : Q) (x : spec_float) : Prop :=
  sane x = true /\ x <> S754_infinity false /\ (Binary64.to_Q x <= C)%Q.

(** [x] is a positive double below one. *)
Definition below_one (x : spec_float) : bool :=
  match x with
  | S754_finite false m e =>
      ((-1074 <=? e) && (Zdigits2 (Z.pos m) + e <=? 0))%Z
  | _ => false
  end.

(** Every entry of the row is [+0.0] or a positive double of at most
    [2^55]. *)
Definition capped_row (d : Distribution binary64) : Prop :=
  bounded_by (2 ^ 55) (gene2 d) /\ bounded_by (2 ^ 55) (gene1 d)
  /\ bounded_by (2 ^ 55) (gene0 d)
  /\ bounded_by (2 ^ 55) (trait_true d)
  /\ bounded_by (2 ^ 55) (trait_false d).

(** [x] is a positive double of at least [2^(k-1)]: its mantissa and its
    exponent have at least [k] binary digits together. *)
Definition at_least (k : Z) (x : spec_float) : bool :=
  match x with
  | S754_finite false m e =>
      ((-1074 <=? e) && (k <=? Zdigits2 (Z.pos m) + e))%Z
  | _ => false
  end.

(** Some gene entry and some trait entry of the row are positive. *)
Definition positive_row (d : Distribution binary64) : Prop :=
  (exists g, (0 < Binary64.to_Q (gene binary64 d g))%Q)
  /\ (exists t, (0 < Binary64.to_Q (trait_of binary64 d t))%Q).

(** The rows of the file of [family0]. *)
Definition family0_rows : list Row :=
  [ {| row_name := "Harry"; row_mother := "Lily"; row_father := "James";
       row_trait := "" |};
    {| row_name := "James"; row_mother := ""; row_father := "";
       row_trait := "1" |};
    {| row_name := "Lily"; row_mother := ""; row_father := "";
       row_trait := "0" |} ].

(** The sum of the joint probabilities that the code computes in floating
    point for the scenarios [calls], the doubles added exactly. *)
Definition float_mass (people : dict Person) (calls : list call) : Q :=
  total (map (fun c => Binary64.to_Q
                         (joint_probability binary64 people (fst (fst c))
                                            (snd (fst c)) (snd c)))
             calls).

(** The double [x] is the exact sum [e] up to the roundings of [k]
    additions. *)
Definition drifted (k : nat) (x : num binary64) (e : Q) : Prop :=
  ((1 - roundoff) ^ Z.of_nat k * Binary64.to_Q x <= e
   /\ e <= (1 + roundoff) ^ Z.of_nat k * Binary64.to_Q x)%Q.

(** * Properties *)

(** ** Sets as lists *)

Lemma mem_In (x : string) (s : pyset) : mem x s = true <-> In x s.
Proof.
  unfold mem. rewrite existsb_exists. split.
  - intros [y [Hy Heq]]. apply String.eqb_eq in Heq. now subst.
  - intros H. exists x. split; [assumption | apply String.eqb_refl].
Qed.

Lemma mem_not_In (x : string) (s : pyset) : mem x s = false <-> ~ In x s.
Proof.
  rewrite <- mem_In. destruct (mem x s); split; congruence.
Qed.

Lemma mem_cons_other (x y : string) (s : pyset) :
  x <> y -> mem x (y :: s) = mem x s.
Proof.
  intros H. unfold mem. simpl.
  apply String.eqb_neq in H. now rewrite H.
Qed.

Lemma mem_cons_same (x : string) (s : pyset) : mem x (x :: s) = true.
Proof.
  unfold mem. simpl. now rewrite String.eqb_refl.
Qed.

(** ** The joint probability *)

Section JointAnyArithmetic.

Context (A : Arith).

Lemma joint_probability_app people people' one two ht :
  joint_probability A (people ++ people') one two ht =
  fold_left (joint_step A one two ht) people'
            (joint_probability A people one two ht).
Proof.
  unfold joint_probability. apply fold_left_app.
Qed.

(** The table of the code and the transmit probability of the
    specification are the same function. *)
Lemma passing_prob_transmit g : passing_prob A g = transmit A g.
Proof. now destruct g. Qed.

Lemma joint_step_child one two ht acc n m f t :
  joint_step A one two ht acc (n, child n m f t) =
  mul A (mul A acc
           (child_distribution A (transmit A (gene_count one two m))
                               (transmit A (gene_count one two f))
                               (gene_count one two n)))
        (PROBS_trait A (gene_count one two n) (mem n ht)).
Proof.
  rewrite <- (passing_prob_transmit (gene_count one two m)).
  rewrite <- (passing_prob_transmit (gene_count one two f)).
  unfold joint_step, child, parent_count, mem_opt; simpl.
  fold (gene_count one two m). fold (gene_count one two f).
  destruct (gene_count one two n); reflexivity.
Qed.

Lemma joint_step_factors one two ht acc entry :
  (mother (snd entry) = None <-> father (snd entry) = None) ->
  joint_step A one two ht acc entry =
  mul A (mul A acc (gene_factor A one two entry))
        (trait_factor A one two ht entry).
Proof.
  destruct entry as [person info]. cbn [fst snd]. intros Hwf.
  unfold joint_step, gene_factor, trait_factor. cbn [fst snd].
  destruct (mother info) as [m|] eqn:Hm, (father info) as [f|] eqn:Hf.
  - rewrite <- (passing_prob_transmit (gene_count one two m)).
    rewrite <- (passing_prob_transmit (gene_count one two f)).
    unfold parent_count, mem_opt. fold (gene_count one two m).
    fold (gene_count one two f).
    destruct (gene_count one two person); reflexivity.
  - destruct Hwf as [_ Hwf]. now specialize (Hwf eq_refl).
  - reflexivity.
  - reflexivity.
Qed.

Lemma joint_fold_factors one two ht people :
  both_or_neither people ->
  forall acc,
    fold_left (joint_step A one two ht) people acc =
    fold_left (fun acc entry =>
                 mul A (mul A acc (gene_factor A one two entry))
                       (trait_factor A one two ht entry))
              people acc.
Proof.
  induction 1 as [|entry people Hentry _ IH]; intros acc; simpl.
  - reflexivity.
  - rewrite joint_step_factors by assumption. apply IH.
Qed.

End JointAnyArithmetic.

Section JointRational.

Local Open Scope Q_scope.

Lemma PROBS_gene_pos g : 0 < PROBS_gene rational g.
Proof. destruct g; reflexivity. Qed.

Lemma PROBS_trait_pos g t : 0 < PROBS_trait rational g t.
Proof. destruct g, t; reflexivity. Qed.

Lemma joint_step_pos one two ht (acc : Q) entry :
  0 < acc -> 0 < joint_step rational one two ht acc entry.
Proof.
  intros Hacc. destruct entry as [person info]. unfold joint_step.
  destruct (mother info).
  - destruct (gene_count one two person),
             (parent_count one two (Some s)),
             (parent_count one two (father info)),
             (mem person ht);
      cbn; repeat apply Qmult_lt_0_compat; try assumption; reflexivity.
  - destruct (gene_count one two person), (mem person ht);
      cbn; repeat apply Qmult_lt_0_compat; try assumption; reflexivity.
Qed.

Lemma joint_fold_pos one two ht people :
  forall acc : Q,
    0 < acc -> 0 < fold_left (joint_step rational one two ht) people acc.
Proof.
  induction people as [|entry people IH]; intros acc Hacc; simpl.
  - assumption.
  - apply IH, joint_step_pos, Hacc.
Qed.

(** Every scenario has a positive weight. *)
Lemma joint_probability_pos people one two ht :
  0 < joint_probability rational people one two ht.
Proof.
  unfold joint_probability. apply joint_fold_pos. reflexivity.
Qed.

Lemma fold_factors_product (g t : string * Person -> Q) people :
  forall acc : Q,
    fold_left (fun acc entry => mul rational (mul rational acc (g entry))
                                              (t entry))
              people acc
    == acc * product (map (fun entry => g entry * t entry) people).
Proof.
  induction people as [|entry people IH]; intros acc; simpl.
  - ring.
  - rewrite IH. ring.
Qed.

End JointRational.

(** ** The power set *)

Section Lists.

Context {X Y : Type}.

Lemma flat_map_map (f : X -> list Y) {W : Type} (g : W -> X) (l : list W) :
  flat_map f (map g l) = flat_map (fun w => f (g w)) l.
Proof.
  induction l as [|w l IH]; simpl; [reflexivity | now rewrite IH].
Qed.

Lemma map_flat_map {W : Type} (f : Y -> W) (g : X -> list Y) (l : list X) :
  map f (flat_map g l) = flat_map (fun x => map f (g x)) l.
Proof.
  induction l as [|x l IH]; simpl; [reflexivity|].
  now rewrite map_app, IH.
Qed.

Lemma flat_map_ext_in (f g : X -> list Y) (l : list X) :
  (forall x, In x l -> f x = g x) -> flat_map f l = flat_map g l.
Proof.
  induction l as [|x l IH]; simpl; intros H; [reflexivity|].
  rewrite H by now left. rewrite IH; [reflexivity|].
  intros y Hy. apply H. now right.
Qed.

Lemma flat_map_perm_in (f g : X -> list Y) (l : list X) :
  (forall x, In x l -> Permutation (f x) (g x)) ->
  Permutation (flat_map f l) (flat_map g l).
Proof.
  induction l as [|x l IH]; simpl; intros H; [constructor|].
  apply Permutation_app.
  - apply H. now left.
  - apply IH. intros y Hy. apply H. now right.
Qed.

Lemma flat_map_split (f g : X -> list Y) (l : list X) :
  Permutation (flat_map (fun x => f x ++ g x) l)
              (flat_map f l ++ flat_map g l).
Proof.
  induction l as [|x l IH]; simpl; [constructor|].
  rewrite IH. rewrite <- !app_assoc. apply Permutation_app_head.
  rewrite !app_assoc. apply Permutation_app_tail.
  apply Permutation_app_comm.
Qed.

End Lists.

Lemma combinations_beyond (s : list string) (r : nat) :
  List.length s < r -> combinations s r = [].
Proof.
  revert r. induction s as [|x s IH]; intros r Hr; simpl in *.
  - destruct r; [lia | reflexivity].
  - destruct r as [|r]; [lia|].
    rewrite (IH r) by lia. rewrite (IH (S r)) by lia. reflexivity.
Qed.

Lemma combinations_0 (s : list string) : combinations s 0 = [[]].
Proof. now destruct s. Qed.

(** Chaining the combinations of every size gives every sublist once. *)
Lemma chain_combinations_sublists (s : list string) :
  Permutation (flat_map (combinations s) (seq 0 (List.length s + 1)))
              (sublists s).
Proof.
  induction s as [|x s IH].
  - simpl. constructor. constructor.
  - change (List.length (x :: s) + 1) with (S (List.length s + 1)).
    rewrite <- cons_seq, <- seq_shift. cbn [flat_map].
    rewrite flat_map_map. cbn [combinations].
    rewrite flat_map_split. rewrite <- map_flat_map.
    cbn [sublists]. rewrite Permutation_app_comm.
    rewrite <- app_assoc. apply Permutation_app.
    + now apply Permutation_map.
    + rewrite <- IH.
      assert (E : [[]] ++ flat_map (fun w => combinations s (S w))
                                   (seq 0 (List.length s + 1))
                  = flat_map (combinations s)
                             (seq 0 (S (List.length s + 1)))).
      { rewrite <- cons_seq, <- seq_shift. cbn [flat_map].
        now rewrite flat_map_map, combinations_0. }
      rewrite Permutation_app_comm.
      rewrite E, seq_S, flat_map_app. cbn [flat_map].
      rewrite (combinations_beyond s) by lia. now rewrite !app_nil_r.
Qed.

Lemma sublists_incl (l t : list string) :
  In t (sublists l) -> incl t l.
Proof.
  revert t. induction l as [|x l IH]; intros t; simpl.
  - intros [<- | []]. apply incl_refl.
  - rewrite in_app_iff, in_map_iff. intros [[t' [<- Ht']] | Ht].
    + apply incl_cons; [now left | apply incl_tl, IH, Ht'].
    + apply incl_tl, IH, Ht.
Qed.

Lemma sublists_NoDup (l t : list string) :
  NoDup l -> In t (sublists l) -> NoDup t.
Proof.
  intros Hl. revert t. induction Hl as [|x l Hx Hl IH]; intros t; simpl.
  - intros [<- | []]. constructor.
  - rewrite in_app_iff, in_map_iff. intros [[t' [<- Ht']] | Ht].
    + constructor; [|now apply IH].
      intros Hin. apply Hx. eapply sublists_incl; eassumption.
    + now apply IH.
Qed.

Lemma filter_sublist (f : string -> bool) (l : list string) :
  In (filter f l) (sublists l).
Proof.
  induction l as [|x l IH]; simpl; [now left|].
  rewrite in_app_iff. destruct (f x).
  - left. now apply in_map.
  - now right.
Qed.

(** On a set, [powerset] lists the sublists, in another order. *)
Lemma powerset_sublists (s : pyset) :
  NoDup s -> Permutation (powerset s) (sublists s).
Proof.
  intros Hs. unfold powerset. rewrite chain_combinations_sublists.
  rewrite (map_ext_in to_set (fun t => t)); [now rewrite map_id|].
  intros t Ht. apply nodup_fixed_point. eapply sublists_NoDup; eassumption.
Qed.

Lemma powerset_In (s t : pyset) :
  NoDup s -> In t (powerset s) <-> In t (sublists s).
Proof.
  intros Hs. split; apply Permutation_in;
    [|symmetry]; now apply powerset_sublists.
Qed.

Lemma difference_NoDup (s t : pyset) : NoDup s -> NoDup (difference s t).
Proof. apply NoDup_filter. Qed.

(** ** The gene assignments *)

Lemma gene_count_cons_one (x y : string) (one two : pyset) :
  x <> y -> gene_count (y :: one) two x = gene_count one two x.
Proof.
  intros H. unfold gene_count. now rewrite (mem_cons_other x y one).
Qed.

Lemma gene_count_cons_two (x y : string) (one two : pyset) :
  x <> y -> gene_count one (y :: two) x = gene_count one two x.
Proof.
  intros H. unfold gene_count. now rewrite (mem_cons_other x y two).
Qed.

Lemma difference_incl (s t : pyset) : incl (difference s t) s.
Proof. intros x Hx. apply filter_In in Hx. tauto. Qed.

Lemma difference_cons_in (x : string) (xs one : pyset) :
  ~ In x xs -> difference (x :: xs) (x :: one) = difference xs one.
Proof.
  intros Hx. unfold difference. cbn [filter].
  rewrite mem_cons_same. cbn [negb]. apply filter_ext_in.
  intros y Hy. rewrite mem_cons_other; [reflexivity|].
  intros ->. contradiction.
Qed.

Lemma difference_cons_out (x : string) (xs one : pyset) :
  ~ In x one -> difference (x :: xs) one = x :: difference xs one.
Proof.
  intros Hx. unfold difference. cbn [filter].
  apply mem_not_In in Hx. now rewrite Hx.
Qed.

Lemma length_all_counts (n : nat) : List.length (all_counts n) = 3 ^ n.
Proof.
  induction n as [|n IH]; simpl; [reflexivity|].
  rewrite !length_app, !length_map, IH. lia.
Qed.

Lemma all_counts_length (n : nat) (v : list copies) :
  In v (all_counts n) <-> List.length v = n.
Proof.
  revert v. induction n as [|n IH]; intros v; simpl.
  - split.
    + intros [<- | []]. reflexivity.
    + destruct v; [now left | discriminate].
  - rewrite !in_app_iff, !in_map_iff. split.
    + intros [[w [<- Hw]] | [[w [<- Hw]] | [w [<- Hw]]]];
        simpl; f_equal; now apply IH.
    + destruct v as [|g v]; [discriminate|]. simpl. intros Hv.
      assert (Hin : In v (all_counts n)) by (apply IH; lia).
      destruct g; [left | right; left | right; right]; now exists v.
Qed.

Lemma NoDup_map_cons {X : Type} (x : X) (l : list (list X)) :
  NoDup l -> NoDup (map (cons x) l).
Proof.
  intros H. apply Finite.Injective_map_NoDup; [|assumption].
  intros a b Hab. now inversion Hab.
Qed.

Lemma all_counts_NoDup (n : nat) : NoDup (all_counts n).
Proof.
  induction n as [|n IH]; simpl.
  - constructor; [intros [] | constructor].
  - repeat (apply NoDup_app; repeat split);
      try (now apply NoDup_map_cons);
      try (intros v; rewrite ?in_app_iff, !in_map_iff;
           intros [w [<- _]] H;
           repeat destruct H as [H | H];
           destruct H as [w' [H _]]; discriminate).
Qed.

Lemma counts_of_cons (x : string) (xs one two ht : pyset) :
  counts_of (x :: xs) (one, two, ht)
  = gene_count one two x :: counts_of xs (one, two, ht).
Proof. reflexivity. Qed.

Lemma counts_of_ext (xs one two ht one' two' ht' : pyset) :
  (forall y, In y xs -> gene_count one two y = gene_count one' two' y) ->
  counts_of xs (one, two, ht) = counts_of xs (one', two', ht').
Proof. intros H. unfold counts_of. cbn [fst snd]. now apply map_ext_in. Qed.

(** With [x] put into the one-copy group. *)
Lemma counts_into_one (x : string) (xs one two ht : pyset) :
  ~ In x xs -> incl two xs ->
  counts_of (x :: xs) (x :: one, two, ht)
  = C1 :: counts_of xs (one, two, ht).
Proof.
  intros Hx Htwo. rewrite counts_of_cons. f_equal.
  - unfold gene_count. rewrite mem_cons_same.
    assert (H : mem x two = false).
    { apply mem_not_In. intros Hin. apply Hx, Htwo, Hin. }
    now rewrite H.
  - apply counts_of_ext. intros y Hy. apply gene_count_cons_one.
    intros ->. contradiction.
Qed.

(** With [x] put into the two-copy group. *)
Lemma counts_into_two (x : string) (xs one two ht : pyset) :
  ~ In x xs ->
  counts_of (x :: xs) (one, x :: two, ht)
  = C2 :: counts_of xs (one, two, ht).
Proof.
  intros Hx. rewrite counts_of_cons. f_equal.
  - unfold gene_count. now rewrite mem_cons_same.
  - apply counts_of_ext. intros y Hy. apply gene_count_cons_two.
    intros ->. contradiction.
Qed.

(** With [x] left in neither group. *)
Lemma counts_into_none (x : string) (xs one two ht : pyset) :
  ~ In x xs -> incl one xs -> incl two xs ->
  counts_of (x :: xs) (one, two, ht)
  = C0 :: counts_of xs (one, two, ht).
Proof.
  intros Hx Hone Htwo. rewrite counts_of_cons. f_equal.
  unfold gene_count.
  assert (H1 : mem x one = false).
  { apply mem_not_In. intros Hin. apply Hx, Hone, Hin. }
  assert (H2 : mem x two = false).
  { apply mem_not_In. intros Hin. apply Hx, Htwo, Hin. }
  now rewrite H1, H2.
Qed.

(** Choosing a sublist for one copy and a sublist of the rest for two
    copies gives every list of counts once. *)
Lemma sublist_assignments_counts (names ht : pyset) :
  NoDup names ->
  Permutation (map (counts_of names) (sublist_assignments names ht))
              (all_counts (List.length names)).
Proof.
  induction 1 as [|x xs Hx Hxs IH].
  - simpl. constructor. constructor.
  - unfold sublist_assignments. cbn [sublists].
    rewrite flat_map_app, map_app, flat_map_map.
    set (V := map (counts_of xs) (sublist_assignments xs ht)) in *.
    assert (P1 :
      map (counts_of (x :: xs))
          (flat_map (fun w =>
                       map (fun two => (x :: w, two, ht))
                           (sublists (difference (x :: xs) (x :: w))))
                    (sublists xs))
      = map (cons C1) V).
    { unfold V, sublist_assignments. rewrite !map_flat_map.
      apply flat_map_ext_in. intros one Hone.
      rewrite difference_cons_in by assumption. rewrite !map_map.
      apply map_ext_in. intros two Htwo.
      apply counts_into_one; [assumption|].
      eapply incl_tran; [eapply sublists_incl, Htwo | apply difference_incl]. }
    assert (P2 :
      Permutation
        (map (counts_of (x :: xs))
             (flat_map (fun one =>
                          map (fun two => (one, two, ht))
                              (sublists (difference (x :: xs) one)))
                       (sublists xs)))
        (map (cons C2) V ++ map (cons C0) V)).
    { unfold V, sublist_assignments. rewrite !map_flat_map.
      rewrite <- flat_map_split. apply flat_map_perm_in.
      intros one Hone.
      assert (Hin : ~ In x one).
      { intros Hin. apply Hx. eapply sublists_incl; eassumption. }
      rewrite difference_cons_out by assumption. cbn [sublists].
      rewrite !map_app, !map_map. apply Permutation_app.
      - apply Permutation_refl'. apply map_ext_in. intros two Htwo.
        now apply counts_into_two.
      - apply Permutation_refl'. apply map_ext_in. intros two Htwo.
        apply counts_into_none; [assumption | |].
        + eapply sublists_incl; eassumption.
        + eapply incl_tran;
            [eapply sublists_incl, Htwo | apply difference_incl]. }
    apply (Permutation_trans
             (l' := map (cons C1) V ++ map (cons C2) V ++ map (cons C0) V)).
    { apply Permutation_app; [apply Permutation_refl', P1 | exact P2]. }
    cbn [List.length all_counts]. rewrite <- IH. fold V.
    rewrite app_assoc. apply Permutation_app_comm.
Qed.

Lemma gene_assignments_sublists (names ht : pyset) :
  NoDup names ->
  Permutation (gene_assignments names ht) (sublist_assignments names ht).
Proof.
  intros Hn. unfold gene_assignments, sublist_assignments.
  rewrite (powerset_sublists names Hn). apply flat_map_perm_in.
  intros one _. apply Permutation_map, powerset_sublists.
  now apply difference_NoDup.
Qed.

Lemma gene_assignments_counts (names ht : pyset) :
  NoDup names ->
  Permutation (map (counts_of names) (gene_assignments names ht))
              (all_counts (List.length names)).
Proof.
  intros Hn. rewrite (gene_assignments_sublists names ht Hn).
  now apply sublist_assignments_counts.
Qed.

Lemma gene_assignments_In (names ht : pyset) (c : call) :
  NoDup names ->
  In c (gene_assignments names ht) ->
  snd c = ht
  /\ In (fst (fst c)) (sublists names)
  /\ In (snd (fst c)) (sublists (difference names (fst (fst c)))).
Proof.
  intros Hn. unfold gene_assignments. rewrite in_flat_map.
  intros [one [Hone Hc]]. apply in_map_iff in Hc.
  destruct Hc as [two [<- Htwo]]. cbn [fst snd].
  apply powerset_In in Hone; [|assumption].
  apply powerset_In in Htwo; [|now apply difference_NoDup].
  auto.
Qed.

(** ** The loops of [main] *)

Section LoopsAnyArithmetic.

Context (A : Arith).

Lemma evaluate_fold people ht one twos :
  forall run,
    fold_left (evaluate A people ht one) twos run
    = {| probabilities :=
           fold_left (apply_call A people)
                     (map (fun two => (one, two, ht)) twos)
                     (probabilities run);
         evaluated := evaluated run ++ map (fun two => (one, two, ht)) twos |}.
Proof.
  induction twos as [|two twos IH]; intros run; simpl.
  - rewrite app_nil_r. now destruct run.
  - rewrite IH. cbn [evaluate probabilities evaluated].
    now rewrite <- app_assoc.
Qed.

(** The two inner loops make the calls of [gene_assignments], in order. *)
Lemma gene_loop_calls people names ht run :
  gene_loop A people names ht run
  = {| probabilities :=
         fold_left (apply_call A people) (gene_assignments names ht)
                   (probabilities run);
       evaluated := evaluated run ++ gene_assignments names ht |}.
Proof.
  unfold gene_loop, gene_assignments.
  generalize (powerset names) as ones. intros ones. revert run.
  induction ones as [|one ones IH]; intros run; simpl.
  - rewrite app_nil_r. now destruct run.
  - rewrite IH, evaluate_fold. cbn [probabilities evaluated].
    now rewrite fold_left_app, <- app_assoc.
Qed.

Lemma trait_step_calls people names ht run :
  trait_step A people names run ht
  = {| probabilities :=
         fold_left (apply_call A people) (scenarios people names [ht])
                   (probabilities run);
       evaluated := evaluated run ++ scenarios people names [ht] |}.
Proof.
  unfold trait_step, scenarios, surviving. cbn [filter].
  destruct (fails_evidence people names ht); cbn [negb flat_map].
  - rewrite app_nil_r. now destruct run.
  - rewrite gene_loop_calls. now rewrite app_nil_r.
Qed.

Lemma scenarios_cons people names ht cands :
  scenarios people names (ht :: cands)
  = scenarios people names [ht] ++ scenarios people names cands.
Proof.
  unfold scenarios, surviving. cbn [filter].
  destruct (negb (fails_evidence people names ht)); cbn [flat_map].
  - now rewrite app_nil_r.
  - reflexivity.
Qed.

(** The whole enumeration makes the calls of [scenarios], in order. *)
Lemma accumulate_calls people names cands :
  forall run,
    accumulate A people names cands run
    = {| probabilities :=
           fold_left (apply_call A people) (scenarios people names cands)
                     (probabilities run);
         evaluated := evaluated run ++ scenarios people names cands |}.
Proof.
  unfold accumulate.
  induction cands as [|ht cands IH]; intros run; simpl.
  - rewrite app_nil_r. now destruct run.
  - rewrite IH, trait_step_calls, (scenarios_cons people names ht cands).
    cbn [probabilities evaluated].
    now rewrite fold_left_app, <- app_assoc.
Qed.

End LoopsAnyArithmetic.

Lemma fails_evidence_true people names ht person info t :
  In person names -> lookup people person = Some info ->
  trait info = Some t -> t <> mem person ht ->
  fails_evidence people names ht = true.
Proof.
  intros Hin Hl Ht Hne. unfold fails_evidence. apply existsb_exists.
  exists person. split; [assumption|]. rewrite Hl, Ht.
  destruct t, (mem person ht); try reflexivity; congruence.
Qed.

Lemma scenarios_In people names cands c :
  In c (scenarios people names cands) ->
  fails_evidence people names (snd c) = false /\ In (snd c) cands.
Proof.
  unfold scenarios, surviving. rewrite in_flat_map.
  intros [ht [Hht Hc]]. apply filter_In in Hht. destruct Hht as [Hin Hok].
  unfold gene_assignments in Hc. apply in_flat_map in Hc.
  destruct Hc as [one [_ Hc]]. apply in_map_iff in Hc.
  destruct Hc as [two [<- _]]. cbn [snd].
  split; [now destruct (fails_evidence people names ht) | assumption].
Qed.

(** ** The accumulated table *)

(** The calls act on each row of the table separately. *)
Lemma fold_apply_call (A : Arith) (people : dict Person) (calls : list call) :
  forall table,
    fold_left (apply_call A people) calls table
    = map (fun entry =>
             (fst entry, person_after A people (fst entry) calls (snd entry)))
          table.
Proof.
  induction calls as [|[[one two] ht] calls IH]; intros table.
  - simpl. rewrite <- (map_id table) at 1. apply map_ext.
    now intros [person d].
  - cbn [fold_left]. rewrite IH. unfold apply_call, update.
    rewrite map_map. apply map_ext. now intros [person d].
Qed.

Lemma enumerate_table (A : Arith) (people : dict Person) :
  probabilities (enumerate A people)
  = map (fun entry =>
           (fst entry,
            person_after A people (fst entry)
              (scenarios people (to_set (keys people))
                         (powerset (to_set (keys people))))
              (zero_distribution A)))
        people.
Proof.
  unfold enumerate. rewrite accumulate_calls. cbn [probabilities].
  rewrite fold_apply_call. unfold initial. rewrite map_map.
  reflexivity.
Qed.

Lemma enumerate_evaluated (A : Arith) (people : dict Person) :
  evaluated (enumerate A people)
  = scenarios people (to_set (keys people))
              (powerset (to_set (keys people))).
Proof.
  unfold enumerate. rewrite accumulate_calls. reflexivity.
Qed.

(** When every call has [person] on the side [b] of the trait, the other
    side of the row is never touched, in any arithmetic. *)
Lemma person_after_trait_other (A : Arith) people person (b : bool) calls :
  (forall c, In c calls -> mem person (snd c) = b) ->
  forall d : Distribution A,
    trait_of A (person_after A people person calls d) (negb b)
    = trait_of A d (negb b).
Proof.
  induction calls as [|c calls IH]; intros Hall d.
  - reflexivity.
  - unfold person_after in *. cbn [fold_left].
    rewrite IH by (intros c' Hc'; apply Hall; now right).
    rewrite (Hall c) by now left.
    now destruct b.
Qed.

Section TableRational.

Local Open Scope Q_scope.

Lemma mass_cons people c calls :
  mass people (c :: calls)
  = joint_probability rational people (fst (fst c)) (snd (fst c)) (snd c)
    + mass people calls.
Proof. reflexivity. Qed.

Lemma mass_nonneg people calls : 0 <= mass people calls.
Proof.
  induction calls as [|c calls IH].
  - unfold mass. simpl. apply Qle_refl.
  - rewrite mass_cons.
    apply (Qplus_le_compat 0 _ 0); [|assumption].
    apply Qlt_le_weak, joint_probability_pos.
Qed.

Lemma mass_pos people calls : calls <> [] -> 0 < mass people calls.
Proof.
  destruct calls as [|c calls]; [congruence|]. intros _.
  rewrite mass_cons.
  apply (Qplus_lt_le_compat 0 _ 0); [|apply mass_nonneg].
  apply joint_probability_pos.
Qed.

(** Each call adds its probability to one gene bucket of the row. *)
Lemma person_after_gene_sum people person calls :
  forall d : Distribution rational,
    gene2 (person_after rational people person calls d)
    + gene1 (person_after rational people person calls d)
    + gene0 (person_after rational people person calls d)
    == gene2 d + gene1 d + gene0 d + mass people calls.
Proof.
  induction calls as [|c calls IH]; intros d.
  - unfold mass. simpl. ring.
  - unfold person_after in *. cbn [fold_left]. rewrite IH, mass_cons.
    destruct (gene_count (fst (fst c)) (snd (fst c)) person); cbn; ring.
Qed.

(** Each call adds its probability to one trait bucket of the row. *)
Lemma person_after_trait_sum people person calls :
  forall d : Distribution rational,
    trait_true (person_after rational people person calls d)
    + trait_false (person_after rational people person calls d)
    == trait_true d + trait_false d + mass people calls.
Proof.
  induction calls as [|c calls IH]; intros d.
  - unfold mass. simpl. ring.
  - unfold person_after in *. cbn [fold_left]. rewrite IH, mass_cons.
    destruct (mem person (snd c)); cbn; ring.
Qed.

End TableRational.

(** ** Surviving candidates *)

Lemma names_NoDup (people : dict Person) : NoDup (to_set (keys people)).
Proof. apply NoDup_nodup. Qed.

Lemma names_In (people : dict Person) (x : string) :
  In x (to_set (keys people)) <-> In x (keys people).
Proof. apply nodup_In. Qed.

Lemma observed_true_consistent people names :
  fails_evidence people names (observed_true people names) = false.
Proof.
  unfold fails_evidence.
  destruct (existsb _ names) eqn:E; [|reflexivity].
  apply existsb_exists in E. destruct E as [person [Hin Hbad]].
  destruct (lookup people person) as [info|] eqn:Hl; [|discriminate].
  destruct (trait info) as [t|] eqn:Ht; [|discriminate].
  assert (Hmem : mem person (observed_true people names) = t).
  { destruct t.
    - apply mem_In. unfold observed_true. apply filter_In.
      split; [assumption|]. now rewrite Hl, Ht.
    - apply mem_not_In. unfold observed_true. rewrite filter_In.
      intros [_ H]. rewrite Hl, Ht in H. discriminate. }
  rewrite Hmem in Hbad. now destruct t.
Qed.

(** The candidate that matches every observation is enumerated and passes
    the evidence test: some candidate always survives. *)
Lemma some_candidate_survives (people : dict Person) :
  surviving people (to_set (keys people))
            (powerset (to_set (keys people))) <> [].
Proof.
  set (names := to_set (keys people)).
  assert (Hin : In (observed_true people names)
                   (surviving people names (powerset names))).
  { unfold surviving. apply filter_In. split.
    - apply powerset_In; [apply names_NoDup|]. apply filter_sublist.
    - now rewrite observed_true_consistent. }
  intros E. rewrite E in Hin. destruct Hin.
Qed.

Lemma gene_assignments_nonempty (names ht : pyset) :
  NoDup names -> gene_assignments names ht <> [].
Proof.
  intros Hn E.
  pose proof (gene_assignments_counts names ht Hn) as Hperm.
  apply Permutation_length in Hperm.
  rewrite E, length_all_counts in Hperm. simpl in Hperm.
  pose proof (Nat.pow_nonzero 3 (List.length names)). lia.
Qed.

Lemma scenarios_nonempty people names cands :
  NoDup names ->
  surviving people names cands <> [] -> scenarios people names cands <> [].
Proof.
  intros Hn Hs. unfold scenarios.
  destruct (surviving people names cands) as [|ht rest]; [congruence|].
  cbn [flat_map]. intros E. apply app_eq_nil in E. destruct E as [E _].
  now apply (gene_assignments_nonempty names ht).
Qed.

Lemma scenarios_empty people names cands :
  surviving people names cands = [] -> scenarios people names cands = [].
Proof. intros E. unfold scenarios. now rewrite E. Qed.

(** ** Normalization and division by zero *)

Section NormalizeAnyArithmetic.

Context (A : Arith) (is_zero : num A -> bool).

Hypothesis div_raises :
  forall x y : num A, div A x y = None <-> is_zero y = true.

Lemma normalize_person_raises (d : Distribution A) :
  normalize_person A d = None
  <-> is_zero (gene_total A d) = true \/ is_zero (trait_total A d) = true.
Proof.
  unfold normalize_person.
  destruct (div A (gene2 d) (gene_total A d)) eqn:E2;
    [|split; [intros _; left; now apply (div_raises (gene2 d)) | reflexivity]].
  destruct (div A (gene1 d) (gene_total A d)) eqn:E1;
    [|split; [intros _; left; now apply (div_raises (gene1 d)) | reflexivity]].
  destruct (div A (gene0 d) (gene_total A d)) eqn:E0;
    [|split; [intros _; left; now apply (div_raises (gene0 d)) | reflexivity]].
  destruct (div A (trait_true d) (trait_total A d)) eqn:Et;
    [|split; [intros _; right; now apply (div_raises (trait_true d))
             | reflexivity]].
  destruct (div A (trait_false d) (trait_total A d)) eqn:Ef;
    [|split; [intros _; right; now apply (div_raises (trait_false d))
             | reflexivity]].
  split; [discriminate|]. intros [H | H].
  - apply (div_raises (gene2 d)) in H. congruence.
  - apply (div_raises (trait_true d)) in H. congruence.
Qed.

(** [normalize] raises exactly when some row has a zero sum. *)
Lemma normalize_raises (table : dict (Distribution A)) :
  normalize A table = None
  <-> exists person d,
        In (person, d) table
        /\ (is_zero (gene_total A d) = true
            \/ is_zero (trait_total A d) = true).
Proof.
  induction table as [|[person d] table IH].
  - split; [discriminate | intros [p [d [[] _]]]].
  - cbn [normalize].
    destruct (normalize_person A d) as [d'|] eqn:Ed.
    + destruct (normalize A table) as [rest|] eqn:Er.
      * split; [discriminate|]. intros [p [e [[Heq | Hin] Hz]]].
        -- inversion Heq; subst. apply normalize_person_raises in Hz.
           congruence.
        -- destruct IH as [_ IH].
           assert (Hnone : Some rest = None)
             by (apply IH; exists p, e; auto).
           discriminate.
      * split; [|reflexivity]. intros _.
        destruct IH as [IH _]. destruct (IH eq_refl) as [p [e [Hin Hz]]].
        exists p, e. split; [now right | assumption].
    + split; [|reflexivity]. intros _.
      exists person, d. split; [now left|].
      now apply normalize_person_raises.
Qed.

End NormalizeAnyArithmetic.

(** The row of [k] in the normalized table is the normalized row of [k]. *)
Lemma normalize_lookup (A : Arith) (table table' : dict (Distribution A))
    (k : string) (d : Distribution A) :
  normalize A table = Some table' ->
  lookup table k = Some d ->
  exists d', lookup table' k = Some d' /\ normalize_person A d = Some d'.
Proof.
  revert table'. induction table as [|[person e] table IH]; intros table'.
  - discriminate.
  - cbn [normalize lookup].
    destruct (normalize_person A e) as [e'|] eqn:Ee; [|discriminate].
    destruct (normalize A table) as [rest|] eqn:Er; [|discriminate].
    intros Heq. inversion Heq; subst table'. clear Heq. cbn [lookup].
    destruct (String.eqb k person).
    + intros Hd. inversion Hd; subst e. now exists e'.
    + intros Hd. now apply IH.
Qed.

Lemma div_binary64_raises (x y : num binary64) :
  div binary64 x y = None <-> Binary64.is_zero y = true.
Proof.
  change (div binary64 x y) with (Binary64.truediv x y).
  unfold Binary64.truediv.
  destruct (Binary64.is_zero y); split; intros H;
    try reflexivity; discriminate.
Qed.

Lemma div_rational_raises (x y : Q) :
  div rational x y = None <-> Qeq_bool y 0 = true.
Proof.
  change (div rational x y)
    with (if Qeq_bool y 0 then None else Some (x / y)%Q).
  destruct (Qeq_bool y 0); split; intros H;
    try reflexivity; discriminate.
Qed.

(** ** Normalization, exactly *)

Section NormalizeRational.

Local Open Scope Q_scope.

Lemma div_rational_Some (x y : Q) :
  ~ y == 0 -> div rational x y = Some (x / y).
Proof.
  intros Hy. cbn. destruct (Qeq_bool y 0) eqn:E; [|reflexivity].
  apply Qeq_bool_iff in E. contradiction.
Qed.

Lemma div_rational_None (x y : Q) : y == 0 -> div rational x y = None.
Proof.
  intros Hy. cbn. apply Qeq_bool_iff in Hy. now rewrite Hy.
Qed.

Lemma normalize_person_Some (d : Distribution rational) :
  ~ gene_total rational d == 0 -> ~ trait_total rational d == 0 ->
  normalize_person rational d = Some (scaled d).
Proof.
  intros Hg Ht. unfold normalize_person.
  now rewrite !div_rational_Some by assumption.
Qed.

(** [normalize] raises exactly when some row has a zero sum. *)
Lemma normalize_None_iff (table : dict (Distribution rational)) :
  normalize rational table = None
  <-> exists person d,
        In (person, d) table
        /\ (gene_total rational d == 0 \/ trait_total rational d == 0).
Proof.
  rewrite (normalize_raises rational (fun y => Qeq_bool y 0)
                            div_rational_raises).
  split; intros [person [d [Hin Hz]]]; exists person, d;
    (split; [assumption|]);
    destruct Hz as [Hz | Hz]; [left | right | left | right];
    now apply Qeq_bool_iff.
Qed.

Lemma normalize_Some (table : dict (Distribution rational)) :
  (forall person d,
      In (person, d) table ->
      ~ gene_total rational d == 0 /\ ~ trait_total rational d == 0) ->
  normalize rational table
  = Some (map (fun entry => (fst entry, scaled (snd entry))) table).
Proof.
  induction table as [|[person d] table IH]; intros H; cbn [normalize map].
  - reflexivity.
  - destruct (H person d) as [Hg Ht]; [now left|].
    rewrite normalize_person_Some by assumption.
    rewrite IH; [reflexivity|].
    intros p e Hin. apply (H p e). now right.
Qed.

Lemma scaled_gene_sum (d : Distribution rational) :
  ~ gene_total rational d == 0 ->
  gene2 (scaled d) + gene1 (scaled d) + gene0 (scaled d) == 1.
Proof.
  intros H. cbn in *. field. intros E. apply H.
  transitivity (gene2 d + gene1 d + gene0 d); [ring | exact E].
Qed.

Lemma scaled_trait_sum (d : Distribution rational) :
  ~ trait_total rational d == 0 ->
  trait_true (scaled d) + trait_false (scaled d) == 1.
Proof.
  intros H. cbn in *. field. intros E. apply H.
  transitivity (trait_true d + trait_false d); [ring | exact E].
Qed.

End NormalizeRational.

(** ** The table of [main], exactly *)

Section MainRational.

Local Open Scope Q_scope.

Lemma accumulate_table (A : Arith) people names cands :
  probabilities (accumulate A people names cands (start A people))
  = map (fun entry =>
           (fst entry,
            person_after A people (fst entry) (scenarios people names cands)
                         (zero_distribution A)))
        people.
Proof.
  rewrite accumulate_calls. cbn [probabilities start].
  rewrite fold_apply_call. unfold initial. now rewrite map_map.
Qed.

(** The sums that [normalize] computes for a row are the mass of the
    scenarios. *)
Lemma row_totals people person calls :
  gene_total rational
    (person_after rational people person calls (zero_distribution rational))
  == mass people calls
  /\ trait_total rational
       (person_after rational people person calls
                     (zero_distribution rational))
     == mass people calls.
Proof.
  pose proof (person_after_gene_sum people person calls
                (zero_distribution rational)) as Hg.
  pose proof (person_after_trait_sum people person calls
                (zero_distribution rational)) as Ht.
  unfold gene_total, trait_total. cbn in *. split.
  - rewrite Qplus_0_l. rewrite Hg. ring.
  - rewrite Qplus_0_l. rewrite Ht. ring.
Qed.

Lemma accumulated_rows_nonzero people names cands person d :
  NoDup names ->
  surviving people names cands <> [] ->
  In (person, d)
     (probabilities (accumulate rational people names cands
                                (start rational people))) ->
  ~ gene_total rational d == 0 /\ ~ trait_total rational d == 0.
Proof.
  intros Hn Hs Hin. rewrite accumulate_table in Hin.
  apply in_map_iff in Hin. destruct Hin as [[p info] [Heq _]].
  cbn [fst snd] in Heq. inversion Heq; subst. clear Heq.
  destruct (row_totals people person (scenarios people names cands))
    as [Hg Ht].
  pose proof (mass_pos people (scenarios people names cands)
                (scenarios_nonempty people names cands Hn Hs)) as Hpos.
  split; intros E.
  - rewrite Hg in E. rewrite E in Hpos. discriminate.
  - rewrite Ht in E. rewrite E in Hpos. discriminate.
Qed.

Lemma enumerate_accumulate (A : Arith) people :
  enumerate A people
  = accumulate A people (to_set (keys people))
               (powerset (to_set (keys people))) (start A people).
Proof. reflexivity. Qed.

(** In exact arithmetic [main] never raises. *)
Lemma main_rational_Some people :
  main rational people
  = Some (map (fun entry => (fst entry, scaled (snd entry)))
              (probabilities (enumerate rational people))).
Proof.
  unfold main. apply normalize_Some. intros person d Hin.
  rewrite enumerate_accumulate in Hin.
  eapply accumulated_rows_nonzero; try eassumption.
  - apply names_NoDup.
  - apply some_candidate_survives.
Qed.

End MainRational.

(** ** Evidence *)

Lemma lookup_In {V : Type} (d : dict V) (k : string) (v : V) :
  lookup d k = Some v -> In k (keys d).
Proof.
  induction d as [|[k' v'] d IH]; simpl; [discriminate|].
  destruct (String.eqb k k') eqn:E.
  - apply String.eqb_eq in E. now left.
  - intros H. right. now apply IH.
Qed.

Lemma lookup_map {V W : Type} (f : string -> V -> W) (d : dict V)
    (k : string) :
  lookup (map (fun entry => (fst entry, f (fst entry) (snd entry))) d) k
  = option_map (f k) (lookup d k).
Proof.
  induction d as [|[k' v'] d IH]; simpl; [reflexivity|].
  destruct (String.eqb k k') eqn:E; [|exact IH].
  apply String.eqb_eq in E. now subst.
Qed.

Lemma fails_evidence_false people names ht person info b :
  fails_evidence people names ht = false ->
  In person names -> lookup people person = Some info ->
  trait info = Some b ->
  mem person ht = b.
Proof.
  intros Hok Hin Hl Ht.
  destruct (Bool.bool_dec b (mem person ht)) as [E | E]; [now symmetry|].
  rewrite (fails_evidence_true _ _ _ _ _ _ Hin Hl Ht E) in Hok.
  discriminate.
Qed.

(** ** Division in floating point *)

Section FloatDivision.

Local Open Scope Z_scope.

Lemma new_location_zero (m : Z) : new_location m 0 = loc_Exact.
Proof.
  unfold new_location, new_location_even, new_location_odd.
  destruct (Z.even m); reflexivity.
Qed.

(** A positive double divided by itself is the double [1.0], exactly. *)
Lemma div_self (m : positive) (e : Z) :
  div binary64 (S754_finite false m e) (S754_finite false m e)
  = Some (lit binary64 1).
Proof.
  cbn [div binary64]. unfold Binary64.truediv. cbn [Binary64.is_zero].
  f_equal. cbn [SFdiv xorb]. unfold SFdiv_core_binary.
  replace (Zdigits2 (Z.pos m) + e - (Zdigits2 (Z.pos m) + e)) with 0 by lia.
  replace (e - e) with 0 by lia.
  change (Z.min (fexp Binary64.prec Binary64.emax 0) 0) with (-53).
  change (0 - -53) with 53.
  rewrite Z.shiftl_mul_pow2 by lia.
  assert (Hq : Z.pos m * 2 ^ 53 / Z.pos m = 2 ^ 53).
  { rewrite Z.mul_comm. apply Z.div_mul. discriminate. }
  assert (Hr : (Z.pos m * 2 ^ 53) mod Z.pos m = 0).
  { rewrite Z.mul_comm. apply Z.mod_mul. discriminate. }
  unfold Z.div in Hq. unfold Z.modulo in Hr.
  destruct (Z.div_eucl (Z.pos m * 2 ^ 53) (Z.pos m)) as [q r].
  cbn [fst snd] in Hq, Hr. subst q r.
  rewrite new_location_zero. reflexivity.
Qed.

(** Zero divided by a positive double is [+0.0]. *)
Lemma div_zero_by_positive (m : positive) (e : Z) :
  div binary64 (lit binary64 0) (S754_finite false m e)
  = Some (lit binary64 0).
Proof. reflexivity. Qed.

Lemma add_zero_l (x : num binary64) :
  Binary64.positive_finite x = true ->
  add binary64 (lit binary64 0) x = x.
Proof. destruct x as [| | |[|] m e]; try discriminate. reflexivity. Qed.

Lemma add_zero_r (x : num binary64) :
  Binary64.positive_finite x = true ->
  add binary64 x (lit binary64 0) = x.
Proof. destruct x as [| | |[|] m e]; try discriminate. reflexivity. Qed.

End FloatDivision.

(** ** A lone founder *)

Lemma single_scenarios (n : string) :
  scenarios [(n, founder n)] (to_set (keys [(n, founder n)]))
            (powerset (to_set (keys [(n, founder n)])))
  = single_calls n.
Proof.
  unfold scenarios, surviving, gene_assignments, fails_evidence.
  cbn. rewrite ?String.eqb_refl. cbn. rewrite ?String.eqb_refl. cbn.
  reflexivity.
Qed.

Lemma single_founder_table (A : Arith) (n : string) :
  probabilities (enumerate A [(n, founder n)]) = [(n, founder_row A)].
Proof.
  rewrite enumerate_table, single_scenarios.
  cbn [map fst snd]. f_equal. f_equal.
  unfold person_after, single_calls, founder_row, founder_weight.
  cbn [fold_left fst snd]. unfold joint_probability, joint_step.
  cbn [fold_left mother founder]. unfold gene_count.
  cbn [mem existsb orb]. rewrite !String.eqb_refl. cbn [orb].
  reflexivity.
Qed.

Lemma normalize_single (A : Arith) (n : string) (d : Distribution A) :
  normalize A [(n, d)]
  = option_map (fun d' => [(n, d')]) (normalize_person A d).
Proof.
  cbn [normalize]. now destruct (normalize_person A d).
Qed.

Lemma main_single_founder (A : Arith) (n : string) :
  main A [(n, founder n)]
  = option_map (fun d' => [(n, d')]) (normalize_person A (founder_row A)).
Proof.
  unfold main. rewrite single_founder_table. apply normalize_single.
Qed.

(** In floating point the posterior of a lone founder "A" has the double
    [0.030000000000000002] for one copy, which is not the double [0.03]. *)

(** ** Parents without a row *)

Lemma scenarios_incl people names cands one two ht :
  NoDup names ->
  In (one, two, ht) (scenarios people names cands) ->
  incl one names /\ incl two names.
Proof.
  intros Hn. unfold scenarios. rewrite in_flat_map.
  intros [ht' [_ Hin]].
  destruct (gene_assignments_In names ht' _ Hn Hin) as [_ [Hone Htwo]].
  cbn [fst snd] in *. apply sublists_incl in Hone, Htwo. split.
  - assumption.
  - eapply incl_tran; [exact Htwo | apply difference_incl].
Qed.

(** A name that is not a person is in no group of an evaluated scenario. *)
Lemma stranger_has_no_copy (A : Arith) people one two ht m :
  In (one, two, ht) (evaluated (enumerate A people)) ->
  ~ In m (keys people) ->
  gene_count one two m = C0.
Proof.
  intros Hin Hm. rewrite enumerate_evaluated in Hin.
  apply scenarios_incl in Hin; [|apply names_NoDup].
  destruct Hin as [Hone Htwo]. unfold gene_count.
  assert (H1 : mem m one = false).
  { apply mem_not_In. intros H. apply Hm, names_In, Hone, H. }
  assert (H2 : mem m two = false).
  { apply mem_not_In. intros H. apply Hm, names_In, Htwo, H. }
  now rewrite H1, H2.
Qed.

(** ** Rounding to a double *)

Section Shifts.

Local Open Scope Z_scope.

Lemma shr_1_nonneg (mrs : shr_record) :
  0 <= shr_m mrs -> 0 <= shr_m (shr_1 mrs).
Proof.
  destruct mrs as [m r s]. cbn [shr_m]. intros Hm.
  destruct m as [|p|p]; cbn.
  - lia.
  - destruct p; cbn; lia.
  - lia.
Qed.

Lemma iter_shr_1_nonneg (p : positive) :
  forall mrs, 0 <= shr_m mrs -> 0 <= shr_m (iter_pos shr_1 p mrs).
Proof.
  induction p as [p IH | p IH |]; intros mrs Hm; cbn [iter_pos].
  - apply IH, IH, shr_1_nonneg, Hm.
  - apply IH, IH, Hm.
  - apply shr_1_nonneg, Hm.
Qed.

Lemma fexp_eq (e : Z) : fexp64 e = Z.max (e - 53) (-1074).
Proof. reflexivity. Qed.

Lemma shr_1_half (mrs : shr_record) :
  0 <= shr_m mrs -> shr_m (shr_1 mrs) = shr_m mrs / 2.
Proof.
  destruct mrs as [m r s]. cbn [shr_m]. intros Hm.
  destruct m as [|p|p]; [reflexivity | | lia].
  destruct p as [p|p|]; cbn [shr_1 shr_m].
  - rewrite Pos2Z.inj_xI. apply Z.div_unique with (r := 1); lia.
  - rewrite Pos2Z.inj_xO. apply Z.div_unique with (r := 0); lia.
  - reflexivity.
Qed.

Lemma iter_shr_1_div (p : positive) :
  forall mrs,
    0 <= shr_m mrs ->
    shr_m (iter_pos shr_1 p mrs) = shr_m mrs / 2 ^ Z.pos p.
Proof.
  induction p as [p IH | p IH |]; intros mrs Hm; cbn [iter_pos].
  - rewrite IH, IH, shr_1_half; try assumption.
    + rewrite !Z.div_div by lia. f_equal.
      rewrite <- Z.pow_add_r, <- Z.pow_succ_r by lia. f_equal. lia.
    + now apply shr_1_nonneg.
    + apply iter_shr_1_nonneg. now apply shr_1_nonneg.
  - rewrite IH, IH; try assumption.
    + rewrite !Z.div_div by lia. f_equal.
      rewrite <- Z.pow_add_r by lia. f_equal. lia.
    + now apply iter_shr_1_nonneg.
  - now rewrite shr_1_half.
Qed.

Lemma shr_spec (mrs : shr_record) (e n : Z) :
  0 <= shr_m mrs ->
  snd (shr mrs e n) = e + Z.max n 0
  /\ shr_m (fst (shr mrs e n)) = shr_m mrs / 2 ^ Z.max n 0.
Proof.
  intros Hm. unfold shr. destruct n as [|p|p]; cbn [fst snd].
  - rewrite Z.div_1_r. split; lia.
  - rewrite Z.max_l by lia. split; [lia|]. now apply iter_shr_1_div.
  - rewrite Z.max_r by lia. rewrite Z.div_1_r. split; lia.
Qed.

Lemma shr_record_of_loc_m (m : Z) (l : location) :
  shr_m (shr_record_of_loc m l) = m.
Proof. destruct l as [|[| |]]; reflexivity. Qed.

(** The first step of rounding: the shift that brings the mantissa to the
    exponent of its format. *)
Lemma shr_fexp_spec (m e : Z) (l : location) :
  0 <= m ->
  let n := Z.max (fexp64 (Zdigits2 m + e) - e) 0 in
  snd (shr_fexp Binary64.prec Binary64.emax m e l) = e + n
  /\ shr_m (fst (shr_fexp Binary64.prec Binary64.emax m e l)) = m / 2 ^ n.
Proof.
  intros Hm n. unfold shr_fexp.
  pose proof (shr_spec (shr_record_of_loc m l) e
                (fexp64 (Zdigits2 m + e) - e)) as H.
  rewrite shr_record_of_loc_m in H. now apply H.
Qed.

Lemma pow2_pred (d : Z) : 1 <= d -> 2 ^ d = 2 * 2 ^ (d - 1).
Proof.
  intros Hd. replace d with (Z.succ (d - 1)) at 1 by lia.
  apply Z.pow_succ_r. lia.
Qed.

Lemma digits2_pos_bounds (p : positive) :
  2 ^ (Z.pos (digits2_pos p) - 1) <= Z.pos p < 2 ^ Z.pos (digits2_pos p).
Proof.
  induction p as [p IH | p IH |]; cbn [digits2_pos].
  - assert (E1 : 2 ^ Z.pos (Pos.succ (digits2_pos p))
                 = 2 * 2 ^ Z.pos (digits2_pos p))
      by (rewrite Pos2Z.inj_succ; apply Z.pow_succ_r; lia).
    assert (E2 : Z.pos (Pos.succ (digits2_pos p)) - 1
                 = Z.pos (digits2_pos p)) by lia.
    rewrite E1, E2, (Pos2Z.inj_xI p).
    pose proof (pow2_pred (Z.pos (digits2_pos p)) ltac:(lia)) as H.
    clear E1 E2.
    set (a := 2 ^ (Z.pos (digits2_pos p) - 1)) in *.
    set (b := 2 ^ Z.pos (digits2_pos p)) in *. lia.
  - assert (E1 : 2 ^ Z.pos (Pos.succ (digits2_pos p))
                 = 2 * 2 ^ Z.pos (digits2_pos p))
      by (rewrite Pos2Z.inj_succ; apply Z.pow_succ_r; lia).
    assert (E2 : Z.pos (Pos.succ (digits2_pos p)) - 1
                 = Z.pos (digits2_pos p)) by lia.
    rewrite E1, E2, (Pos2Z.inj_xO p).
    pose proof (pow2_pred (Z.pos (digits2_pos p)) ltac:(lia)) as H.
    clear E1 E2.
    set (a := 2 ^ (Z.pos (digits2_pos p) - 1)) in *.
    set (b := 2 ^ Z.pos (digits2_pos p)) in *. lia.
  - cbn. lia.
Qed.

Lemma Zdigits2_bounds (m : Z) :
  0 < m -> 2 ^ (Zdigits2 m - 1) <= m < 2 ^ Zdigits2 m.
Proof.
  destruct m as [|p|p]; try lia. intros _. apply digits2_pos_bounds.
Qed.

Lemma Zdigits2_nonneg (m : Z) : 0 <= Zdigits2 m.
Proof. destruct m; cbn; lia. Qed.

Lemma Zdigits2_unique (m d : Z) :
  0 < m -> 2 ^ (d - 1) <= m < 2 ^ d -> Zdigits2 m = d.
Proof.
  intros Hm [Hlo Hhi].
  destruct (Zdigits2_bounds m Hm) as [Dlo Dhi].
  pose proof (Zdigits2_nonneg m) as Dn.
  assert (Hd : 0 < d).
  { destruct (Z_lt_le_dec 0 d) as [|Hle]; [assumption|].
    assert (2 ^ d <= 1).
    { destruct (Z.eq_dec d 0) as [->|]; [cbn; lia|].
      rewrite Z.pow_neg_r by lia. lia. }
    lia. }
  destruct (Z_lt_le_dec (Zdigits2 m) d) as [Hlt|Hge].
  - assert (2 ^ Zdigits2 m <= 2 ^ (d - 1)) by (apply Z.pow_le_mono_r; lia).
    lia.
  - destruct (Z_lt_le_dec d (Zdigits2 m)) as [Hlt|Hle]; [|lia].
    assert (2 ^ d <= 2 ^ (Zdigits2 m - 1)) by (apply Z.pow_le_mono_r; lia).
    lia.
Qed.

End Shifts.

Section RoundToNearest.

Local Open Scope Z_scope.

Lemma div_pow2_bounds (m n : Z) :
  0 <= n -> m / 2 ^ n * 2 ^ n <= m < (m / 2 ^ n + 1) * 2 ^ n.
Proof.
  intros Hn. assert (Hp : 0 < 2 ^ n) by (apply Z.pow_pos_nonneg; lia).
  pose proof (Z.mul_div_le m (2 ^ n) Hp).
  pose proof (Z.mul_succ_div_gt m (2 ^ n) Hp). lia.
Qed.

Lemma rne_bounds (m : Z) (l : location) :
  m <= round_nearest_even m l <= m + 1.
Proof.
  unfold round_nearest_even.
  destruct l as [|[| |]]; try lia. destruct (Z.even m); lia.
Qed.

Lemma Zdigits2_le (m k : Z) : 0 <= k -> 0 <= m < 2 ^ k -> Zdigits2 m <= k.
Proof.
  intros Hk [H0 Hm]. destruct (Z.eq_dec m 0) as [->|Hne]; [cbn; lia|].
  destruct (Zdigits2_bounds m ltac:(lia)) as [Hlo _].
  destruct (Z_lt_le_dec k (Zdigits2 m)) as [Hlt|]; [|assumption].
  assert (2 ^ k <= 2 ^ (Zdigits2 m - 1)) by (apply Z.pow_le_mono_r; lia).
  lia.
Qed.

Lemma binary_round_aux_pack (mx ex : Z) (lx : location) :
  binary_round_aux Binary64.prec Binary64.emax false mx ex lx
  = let r1 := shr_fexp Binary64.prec Binary64.emax mx ex lx in
    let r2 := shr_fexp Binary64.prec Binary64.emax
                (round_nearest_even (shr_m (fst r1))
                                    (loc_of_shr_record (fst r1)))
                (snd r1) loc_Exact in
    pack (shr_m (fst r2)) (snd r2).
Proof.
  unfold binary_round_aux.
  destruct (shr_fexp Binary64.prec Binary64.emax mx ex lx) as [mrs' e'].
  cbn [fst snd].
  destruct (shr_fexp Binary64.prec Binary64.emax _ e' loc_Exact)
    as [mrs'' e''].
  cbn [fst snd]. unfold pack.
  destruct (shr_m mrs''); reflexivity.
Qed.

(** Rounding, coarsely: the result is within one unit of its last place of
    the value rounded, and it is normal unless its exponent is the least. *)
Lemma binary_round_aux_spec (mx ex : Z) (lx : location) :
  0 <= mx -> ex <= fexp64 (Zdigits2 mx + ex) ->
  exists m e,
    binary_round_aux Binary64.prec Binary64.emax false mx ex lx = pack m e
    /\ 0 <= m /\ fexp64 (Zdigits2 mx + ex) <= e
    /\ (m - 1) * 2 ^ (e - ex) <= mx
    /\ mx + 1 <= (m + 1) * 2 ^ (e - ex)
    /\ (2 ^ 52 <= m \/ e = -1074).
Proof.
  intros Hmx Hex. rewrite binary_round_aux_pack. cbv zeta.
  destruct (shr_fexp_spec mx ex lx Hmx) as [He1 Hm1].
  set (r1 := shr_fexp Binary64.prec Binary64.emax mx ex lx) in *.
  set (e1 := snd r1) in *. set (m1 := shr_m (fst r1)) in *.
  set (n1 := Z.max (fexp64 (Zdigits2 mx + ex) - ex) 0) in *.
  assert (Hn1 : n1 = fexp64 (Zdigits2 mx + ex) - ex) by (unfold n1; lia).
  assert (Hn1pos : 0 <= n1) by lia.
  destruct (div_pow2_bounds mx n1 Hn1pos) as [F1 F2]. rewrite <- Hm1 in F1, F2.
  assert (Hm1pos : 0 <= m1).
  { rewrite Hm1. apply Z.div_pos; [assumption | apply Z.pow_pos_nonneg; lia]. }
  set (m2 := round_nearest_even m1 (loc_of_shr_record (fst r1))).
  pose proof (rne_bounds m1 (loc_of_shr_record (fst r1))) as Hm2.
  fold m2 in Hm2.
  assert (Hm2pos : 0 <= m2) by lia.
  destruct (shr_fexp_spec m2 e1 loc_Exact Hm2pos) as [He3 Hm3].
  set (r2 := shr_fexp Binary64.prec Binary64.emax m2 e1 loc_Exact) in *.
  set (e3 := snd r2) in *. set (m3 := shr_m (fst r2)) in *.
  set (n2 := Z.max (fexp64 (Zdigits2 m2 + e1) - e1) 0) in *.
  assert (Hn2pos : 0 <= n2) by (unfold n2; lia).
  destruct (div_pow2_bounds m2 n2 Hn2pos) as [G1 G2]. rewrite <- Hm3 in G1, G2.
  assert (Hm3pos : 0 <= m3).
  { rewrite Hm3. apply Z.div_pos; [assumption | apply Z.pow_pos_nonneg; lia]. }
  assert (He1' : e1 = fexp64 (Zdigits2 mx + ex)) by lia.
  assert (Hemin : -1074 <= e1) by (rewrite He1', fexp_eq; lia).
  assert (HK : 2 ^ (e3 - ex) = 2 ^ n1 * 2 ^ n2).
  { replace (e3 - ex) with (n1 + n2) by lia. apply Z.pow_add_r; lia. }
  assert (P1 : 0 < 2 ^ n1) by (apply Z.pow_pos_nonneg; lia).
  assert (P2 : 0 < 2 ^ n2) by (apply Z.pow_pos_nonneg; lia).
  exists m3, e3. split; [reflexivity|].
  split; [assumption|]. split; [lia|].
  split; [|split].
  - rewrite HK. nia.
  - rewrite HK. nia.
  - rewrite fexp_eq in He1'.
    destruct (Z_lt_le_dec (Zdigits2 mx + ex - 53) (-1074)) as [Hsub | Hnorm].
    + (* the least exponent *)
      right. assert (E1 : e1 = -1074) by lia.
      assert (Hm1lt : m1 < 2 ^ 52).
      { destruct (Z.eq_dec mx 0) as [Hz | Hnz].
        - rewrite Hm1, Hz. rewrite Z.div_0_l by lia. lia.
        - destruct (Zdigits2_bounds mx ltac:(lia)) as [_ Hhi].
          rewrite Hm1. apply Z.div_lt_upper_bound; [lia|].
          eapply Z.lt_le_trans; [exact Hhi|].
          rewrite <- Z.pow_add_r by lia.
          apply Z.pow_le_mono_r; lia. }
      assert (Hd2 : Zdigits2 m2 <= 53).
      { apply Zdigits2_le; [lia|]. split; [assumption|].
        change (2 ^ 53) with (2 * 2 ^ 52). lia. }
      assert (N2 : n2 = 0).
      { unfold n2. rewrite fexp_eq. lia. }
      lia.
    + (* a normal result *)
      left. assert (E1 : e1 = Zdigits2 mx + ex - 53) by lia.
      assert (N1 : n1 = Zdigits2 mx - 53) by lia.
      assert (Hmxpos : 0 < mx).
      { destruct (Z.eq_dec mx 0) as [Hz | Hnz]; [|lia].
        rewrite Hz in N1. cbn in N1. lia. }
      destruct (Zdigits2_bounds mx Hmxpos) as [Hlo Hhi].
      assert (L1 : 2 ^ 52 <= m1).
      { rewrite Hm1. apply Z.div_le_lower_bound; [lia|].
        rewrite <- Z.pow_add_r by lia.
        replace (n1 + 52) with (Zdigits2 mx - 1) by lia. exact Hlo. }
      assert (U1 : m1 < 2 ^ 53).
      { rewrite Hm1. apply Z.div_lt_upper_bound; [lia|].
        rewrite <- Z.pow_add_r by lia.
        replace (n1 + 53) with (Zdigits2 mx) by lia. exact Hhi. }
      destruct (Z_lt_le_dec m2 (2 ^ 53)) as [Hlt | Hge].
      * assert (D2 : Zdigits2 m2 = 53).
        { apply Zdigits2_unique; [lia|].
          change (53 - 1) with 52. lia. }
        assert (N2 : n2 = 0).
        { unfold n2. rewrite D2, fexp_eq. lia. }
        rewrite Hm3, N2. change (2 ^ 0) with 1. rewrite Z.div_1_r. lia.
      * assert (M2 : m2 = 2 ^ 53) by lia.
        assert (D2 : Zdigits2 m2 = 54) by (rewrite M2; reflexivity).
        assert (N2 : n2 = 1).
        { unfold n2. rewrite D2, fexp_eq. lia. }
        rewrite Hm3, N2, M2. reflexivity.
Qed.

(** Rounding an exact value that is already at or above the exponent of its
    format changes nothing. *)
Lemma shr_fexp_above (m e : Z) :
  fexp64 (Zdigits2 m + e) <= e ->
  shr_fexp Binary64.prec Binary64.emax m e loc_Exact
  = (Build_shr_record m false false, e).
Proof.
  intros H. unfold shr_fexp, shr. fold (fexp64 (Zdigits2 m + e)).
  destruct (fexp64 (Zdigits2 m + e) - e) eqn:E; try reflexivity. lia.
Qed.

Lemma binary_round_aux_exact (mx ex : Z) :
  fexp64 (Zdigits2 mx + ex) <= ex ->
  binary_round_aux Binary64.prec Binary64.emax false mx ex loc_Exact
  = pack mx ex.
Proof.
  intros H. rewrite binary_round_aux_pack. cbv zeta.
  rewrite (shr_fexp_above mx ex H). cbn [fst snd shr_m loc_of_shr_record
                                        round_nearest_even].
  rewrite (shr_fexp_above mx ex H). reflexivity.
Qed.

(** Whatever is rounded, the exponent of the result is not below the
    least. *)
Lemma binary_round_aux_exponent (mx ex : Z) (lx : location) :
  0 <= mx ->
  exists m e,
    binary_round_aux Binary64.prec Binary64.emax false mx ex lx = pack m e
    /\ 0 <= m /\ -1074 <= e.
Proof.
  intros Hmx. rewrite binary_round_aux_pack. cbv zeta.
  destruct (shr_fexp_spec mx ex lx Hmx) as [He1 Hm1].
  set (r1 := shr_fexp Binary64.prec Binary64.emax mx ex lx) in *.
  assert (Hm1pos : 0 <= shr_m (fst r1)).
  { rewrite Hm1. apply Z.div_pos; [assumption|].
    apply Z.pow_pos_nonneg; lia. }
  pose proof (rne_bounds (shr_m (fst r1)) (loc_of_shr_record (fst r1))) as Hm2.
  set (m2 := round_nearest_even (shr_m (fst r1))
                                (loc_of_shr_record (fst r1))) in *.
  assert (Hm2pos : 0 <= m2) by lia.
  destruct (shr_fexp_spec m2 (snd r1) loc_Exact Hm2pos) as [He3 Hm3].
  set (r2 := shr_fexp Binary64.prec Binary64.emax m2 (snd r1) loc_Exact) in *.
  exists (shr_m (fst r2)), (snd r2). split; [reflexivity|]. split.
  - rewrite Hm3. apply Z.div_pos; [assumption|].
    apply Z.pow_pos_nonneg; lia.
  - rewrite He3, He1. pose proof (fexp_eq (Zdigits2 mx + ex)). lia.
Qed.

End RoundToNearest.

Section Values.

Local Open Scope Q_scope.

Lemma pow2_pos (e : Z) : 0 < 2 ^ e.
Proof. apply Qpower_0_lt. reflexivity. Qed.

Lemma pow2_plus (a b : Z) : 2 ^ (a + b) == 2 ^ a * 2 ^ b.
Proof. apply Qpower_plus. discriminate. Qed.

Lemma pow2_inject (k : Z) : (0 <= k)%Z -> inject_Z (2 ^ k) == 2 ^ k.
Proof. intros Hk. now rewrite Zpower_Qpower. Qed.

Lemma value_shift (m e k : Z) :
  (0 <= k)%Z -> value (m * 2 ^ k) e == value m (e + k).
Proof.
  intros Hk. unfold value.
  rewrite inject_Z_mult, pow2_inject by assumption.
  rewrite pow2_plus. ring.
Qed.

Lemma value_le (m m' e : Z) : (m <= m')%Z -> value m e <= value m' e.
Proof.
  intros H. unfold value. apply Qmult_le_compat_r.
  - now rewrite <- Zle_Qle.
  - apply Qlt_le_weak, pow2_pos.
Qed.

Lemma value_lt (m m' e : Z) : (m < m')%Z -> value m e < value m' e.
Proof.
  intros H. unfold value. apply Qmult_lt_compat_r.
  - apply pow2_pos.
  - now rewrite <- Zlt_Qlt.
Qed.

Lemma value_plus (a b e : Z) : value (a + b) e == value a e + value b e.
Proof. unfold value. rewrite inject_Z_plus. ring. Qed.

Lemma value_pos (m e : Z) : (0 < m)%Z -> 0 < value m e.
Proof.
  intros H. unfold value.
  apply Qmult_lt_0_compat; [|apply pow2_pos].
  rewrite (Zlt_Qlt 0 m) in H. exact H.
Qed.

Lemma value_0 (e : Z) : value 0 e == 0.
Proof. unfold value. ring. Qed.

Lemma value_1 (e : Z) : value 1 e == 2 ^ e.
Proof. unfold value. ring. Qed.

(** The value of a positive double. *)
Lemma to_Q_value (p : positive) (e : Z) :
  Binary64.to_Q (S754_finite false p e) == value (Z.pos p) e.
Proof.
  unfold Binary64.to_Q, value. destruct e as [|k|k].
  - cbn. ring.
  - rewrite inject_Z_mult, pow2_inject by lia. reflexivity.
  - rewrite Qmake_Qdiv. rewrite Pos2Z.inj_pow.
    rewrite pow2_inject by lia.
    change (Z.neg k) with (- Z.pos k)%Z. rewrite Qpower_opp.
    reflexivity.
Qed.

(** A mantissa that has at least 53 bits is at least [2^52] units of its
    last place. *)
Lemma value_ulp (m e : Z) :
  (2 ^ 52 <= m)%Z -> 2 ^ e <= (1 # 4503599627370496) * value m e.
Proof.
  intros H. unfold value.
  assert (E : inject_Z (2 ^ 52) <= inject_Z m) by now rewrite <- Zle_Qle.
  change (inject_Z (2 ^ 52)) with (4503599627370496 # 1) in E.
  pose proof (pow2_pos e) as P.
  set (x := inject_Z m) in *. set (p := 2 ^ e) in *.
  assert (H1 : (4503599627370496 # 1) * p <= x * p).
  { apply Qmult_le_compat_r; [assumption | now apply Qlt_le_weak]. }
  lra.
Qed.

End Values.

Section SaneDoubles.

Local Open Scope Z_scope.

Lemma pos_iter_xO (m d : positive) :
  Z.pos (Pos.iter xO m d) = Z.pos m * 2 ^ Z.pos d.
Proof.
  induction d as [|d IH] using Pos.peano_ind.
  - cbn [Pos.iter]. rewrite Pos2Z.inj_xO. change (2 ^ 1) with 2. lia.
  - rewrite Pos.iter_succ, Pos2Z.inj_xO, IH, Pos2Z.inj_succ.
    rewrite Z.pow_succ_r by lia. lia.
Qed.

Lemma shl_align_spec (mx : positive) (ex ex' : Z) :
  snd (shl_align mx ex ex') = Z.min ex ex'
  /\ Z.pos (fst (shl_align mx ex ex'))
     = Z.pos mx * 2 ^ (ex - Z.min ex ex').
Proof.
  unfold shl_align. destruct (ex' - ex) as [|d|d] eqn:E; cbn [fst snd].
  - rewrite Z.min_l by lia. rewrite Z.sub_diag. split; lia.
  - rewrite Z.min_l by lia. rewrite Z.sub_diag. split; lia.
  - rewrite Z.min_r by lia. split; [reflexivity|].
    rewrite pos_iter_xO. f_equal. f_equal. lia.
Qed.

Lemma Zdigits2_shift (m k : Z) :
  0 < m -> 0 <= k -> Zdigits2 (m * 2 ^ k) = Zdigits2 m + k.
Proof.
  intros Hm Hk. destruct (Zdigits2_bounds m Hm) as [Hlo Hhi].
  assert (P : 0 < 2 ^ k) by (apply Z.pow_pos_nonneg; lia).
  assert (D : 1 <= Zdigits2 m).
  { destruct m; try lia. cbn. lia. }
  apply Zdigits2_unique; [nia|].
  replace (Zdigits2 m + k - 1) with (Zdigits2 m - 1 + k) by lia.
  rewrite !Z.pow_add_r by lia. nia.
Qed.

Lemma pack_sane (m e : Z) : 0 <= m -> -1074 <= e -> sane (pack m e) = true.
Proof.
  intros Hm He. unfold pack. destruct m as [|p|p]; [reflexivity | | lia].
  destruct (e <=? 971); [|reflexivity]. cbn. lia.
Qed.

Lemma binary_round_aux_sane (mx ex : Z) (lx : location) :
  0 <= mx ->
  sane (binary_round_aux Binary64.prec Binary64.emax false mx ex lx) = true.
Proof.
  intros Hmx.
  destruct (binary_round_aux_exponent mx ex lx Hmx) as [m [e [-> [Hm He]]]].
  now apply pack_sane.
Qed.

Lemma binary_round_sane (m : positive) (e : Z) :
  sane (binary_round Binary64.prec Binary64.emax false m e) = true.
Proof.
  unfold binary_round.
  destruct (shl_align m e _) as [mz ez]. apply binary_round_aux_sane. lia.
Qed.

Lemma mul_sane (x y : num binary64) :
  sane x = true -> Binary64.positive_finite y = true ->
  sane (mul binary64 x y) = true.
Proof.
  destruct x as [[|]|[|]| |[|] mx ex]; try discriminate;
    destruct y as [[|]|[|]| |[|] my ey]; try discriminate;
    intros _ _; try reflexivity.
  cbn [mul binary64 SFmul xorb]. apply binary_round_aux_sane. lia.
Qed.

Lemma add_finite (mx my : positive) (ex ey : Z) :
  add binary64 (S754_finite false mx ex) (S754_finite false my ey)
  = binary_round Binary64.prec Binary64.emax false
      (fst (shl_align mx ex (Z.min ex ey))
       + fst (shl_align my ey (Z.min ex ey)))%positive
      (Z.min ex ey).
Proof. reflexivity. Qed.

Lemma add_sane (x y : num binary64) :
  sane x = true -> sane y = true -> sane (add binary64 x y) = true.
Proof.
  destruct x as [[|]|[|]| |[|] mx ex]; try discriminate;
    destruct y as [[|]|[|]| |[|] my ey]; try discriminate;
    intros Hx Hy; try reflexivity; try assumption.
  rewrite add_finite. apply binary_round_sane.
Qed.

End SaneDoubles.

Section AdditionBounds.

Local Open Scope Z_scope.

Lemma value_bounds_of_Z (mx ex m e : Z) :
  ex <= e ->
  (m - 1) * 2 ^ (e - ex) <= mx ->
  mx + 1 <= (m + 1) * 2 ^ (e - ex) ->
  (value m e - 2 ^ e <= value mx ex /\ value mx ex <= value m e + 2 ^ e)%Q.
Proof.
  intros He Hlo Hhi.
  assert (E1 : (value ((m - 1) * 2 ^ (e - ex)) ex == value m e - 2 ^ e)%Q).
  { rewrite value_shift by lia. replace (ex + (e - ex)) with e by lia.
    replace (m - 1) with (m + -1) by lia.
    rewrite value_plus. unfold value at 2. cbn [inject_Z]. ring. }
  assert (E2 : (value ((m + 1) * 2 ^ (e - ex)) ex == value m e + 2 ^ e)%Q).
  { rewrite value_shift by lia. replace (ex + (e - ex)) with e by lia.
    rewrite value_plus, value_1. reflexivity. }
  split.
  - rewrite <- E1. now apply value_le.
  - rewrite <- E2. apply value_le. lia.
Qed.

(** Rounding a positive integer multiple of [2^ez] to a double, when [ez]
    is not below the least exponent: the relative error is at most [roundoff]. *)
Lemma binary_round_spec (M : positive) (ez : Z) :
  -1074 <= ez ->
  exists m e,
    binary_round Binary64.prec Binary64.emax false M ez = pack m e
    /\ 0 < m /\ -1074 <= e
    /\ ((1 - roundoff) * value m e <= value (Z.pos M) ez
        /\ value (Z.pos M) ez <= (1 + roundoff) * value m e)%Q.
Proof.
  intros Hez. unfold binary_round.
  change (SpecFloat.fexp Binary64.prec Binary64.emax
            (Z.pos (digits2_pos M) + ez))
    with (fexp64 (Zdigits2 (Z.pos M) + ez)).
  set (fe := fexp64 (Zdigits2 (Z.pos M) + ez)).
  destruct (shl_align_spec M ez fe) as [Hsnd Hfst].
  destruct (shl_align M ez fe) as [mz ez']. cbn [fst snd] in Hsnd, Hfst.
  subst ez'.
  assert (Hfe : -1074 <= fe) by (unfold fe; rewrite fexp_eq; lia).
  assert (Hdig : Zdigits2 (Z.pos mz) + Z.min ez fe
                 = Zdigits2 (Z.pos M) + ez).
  { rewrite Hfst, Zdigits2_shift by lia. lia. }
  destruct (Z_le_gt_dec fe ez) as [Hle | Hgt].
  - (* exact *)
    rewrite (Z.min_r ez fe) in * by lia.
    exists (Z.pos mz), fe.
    split.
    { apply binary_round_aux_exact. rewrite Hdig. fold fe. lia. }
    split; [lia|]. split; [assumption|].
    assert (V : (value (Z.pos mz) fe == value (Z.pos M) ez)%Q).
    { rewrite Hfst.
      rewrite value_shift by lia. now replace (fe + (ez - fe)) with ez by lia. }
    pose proof (value_pos (Z.pos mz) fe ltac:(lia)) as P.
    rewrite <- V. unfold roundoff. split; lra.
  - (* rounded *)
    rewrite (Z.min_l ez fe) in * by lia.
    assert (Hmz : Z.pos mz = Z.pos M).
    { rewrite Hfst. rewrite Z.sub_diag. lia. }
    rewrite Hmz.
    destruct (binary_round_aux_spec (Z.pos M) ez loc_Exact ltac:(lia))
      as [m [e [Hr [Hm [Hfe' [Hlo [Hhi Hn]]]]]]].
    { fold fe. lia. }
    fold fe in Hfe'.
    assert (Hm52 : 2 ^ 52 <= m) by (destruct Hn; [assumption | lia]).
    exists m, e. split; [exact Hr|]. split; [lia|]. split; [lia|].
    destruct (value_bounds_of_Z (Z.pos M) ez m e ltac:(lia) Hlo Hhi)
      as [B1 B2].
    pose proof (value_ulp m e Hm52) as U. fold roundoff in U.
    split; lra.
Qed.

Lemma pack_finite (m e : Z) (p : positive) (e' : Z) :
  pack m e = S754_finite false p e' -> m = Z.pos p /\ e = e'.
Proof.
  unfold pack. destruct m as [|q|q]; try discriminate.
  destruct (e <=? 971); [|discriminate].
  intros H. now inversion H.
Qed.

(** The sum of two doubles, when it is a double. *)
Lemma add_spec (x y : num binary64) (p : positive) (e : Z) :
  sane x = true -> sane y = true ->
  add binary64 x y = S754_finite false p e ->
  Binary64.nonneg x = true /\ Binary64.nonneg y = true
  /\ x <> S754_infinity false /\ y <> S754_infinity false
  /\ ((1 - roundoff) * value (Z.pos p) e <= Binary64.to_Q x + Binary64.to_Q y
      /\ Binary64.to_Q x + Binary64.to_Q y <= (1 + roundoff) * value (Z.pos p) e)%Q.
Proof.
  destruct x as [[|]|[|]| |[|] mx ex]; try discriminate;
    destruct y as [[|]|[|]| |[|] my ey]; try discriminate;
    intros Hx Hy Hr; try discriminate Hr.
  - (* 0 + y *)
    cbn in Hr. inversion Hr; subst. repeat split; try discriminate.
    + rewrite (to_Q_value p e). cbn [Binary64.to_Q].
      pose proof (value_pos (Z.pos p) e ltac:(lia)). unfold roundoff. lra.
    + rewrite (to_Q_value p e). cbn [Binary64.to_Q].
      pose proof (value_pos (Z.pos p) e ltac:(lia)). unfold roundoff. lra.
  - (* x + 0 *)
    cbn in Hr. inversion Hr; subst. repeat split; try discriminate.
    + rewrite (to_Q_value p e). cbn [Binary64.to_Q].
      pose proof (value_pos (Z.pos p) e ltac:(lia)). unfold roundoff. lra.
    + rewrite (to_Q_value p e). cbn [Binary64.to_Q].
      pose proof (value_pos (Z.pos p) e ltac:(lia)). unfold roundoff. lra.
  - (* two doubles *)
    cbn [sane] in Hx, Hy. apply Z.leb_le in Hx, Hy.
    rewrite add_finite in Hr.
    destruct (shl_align_spec mx ex (Z.min ex ey)) as [_ Fx].
    destruct (shl_align_spec my ey (Z.min ex ey)) as [_ Fy].
    replace (Z.min ex (Z.min ex ey)) with (Z.min ex ey) in Fx by lia.
    replace (Z.min ey (Z.min ex ey)) with (Z.min ex ey) in Fy by lia.
    set (ax := fst (shl_align mx ex (Z.min ex ey))) in *.
    set (ay := fst (shl_align my ey (Z.min ex ey))) in *.
    destruct (binary_round_spec (ax + ay)%positive (Z.min ex ey) ltac:(lia))
      as [m [e' [Hp [Hm [He' [B1 B2]]]]]].
    rewrite Hp in Hr. apply pack_finite in Hr. destruct Hr as [-> ->].
    repeat split; try discriminate.
    + rewrite !to_Q_value.
      assert (V : (value (Z.pos (ax + ay)) (Z.min ex ey)
                   == value (Z.pos mx) ex + value (Z.pos my) ey)%Q).
      { rewrite Pos2Z.inj_add, value_plus, Fx, Fy.
        rewrite !value_shift by lia.
        replace (Z.min ex ey + (ex - Z.min ex ey)) with ex by lia.
        replace (Z.min ex ey + (ey - Z.min ex ey)) with ey by lia.
        reflexivity. }
      rewrite <- V. exact B1.
    + rewrite !to_Q_value.
      assert (V : (value (Z.pos (ax + ay)) (Z.min ex ey)
                   == value (Z.pos mx) ex + value (Z.pos my) ey)%Q).
      { rewrite Pos2Z.inj_add, value_plus, Fx, Fy.
        rewrite !value_shift by lia.
        replace (Z.min ex ey + (ex - Z.min ex ey)) with ex by lia.
        replace (Z.min ex ey + (ey - Z.min ex ey)) with ey by lia.
        reflexivity. }
      rewrite <- V. exact B2.
Qed.

End AdditionBounds.

Section DivisionCore.

Local Open Scope Z_scope.

Lemma fexp64_mono (a b : Z) : a <= b -> fexp64 a <= fexp64 b.
Proof. intros H. rewrite !fexp_eq. lia. Qed.

Lemma Zdigits2_pos_ge_1 (m : Z) : 0 < m -> 1 <= Zdigits2 m.
Proof. destruct m; try lia. intros _. cbn. lia. Qed.

(** The quotient and the exponent that the division starts from. *)
Lemma div_core_spec (mx my : positive) (ex ey : Z) :
  exists q e' l,
    SFdiv_core_binary Binary64.prec Binary64.emax (Z.pos mx) ex (Z.pos my) ey
    = (q, e', l)
    /\ 0 <= q
    /\ e' <= ex - ey
    /\ e' <= fexp64 (Zdigits2 q + e')
    /\ q * Z.pos my <= Z.pos mx * 2 ^ (ex - ey - e')
    /\ Z.pos mx * 2 ^ (ex - ey - e') < (q + 1) * Z.pos my.
Proof.
  unfold SFdiv_core_binary.
  change (SpecFloat.fexp Binary64.prec Binary64.emax
            (Zdigits2 (Z.pos mx) + ex - (Zdigits2 (Z.pos my) + ey)))
    with (fexp64 (Zdigits2 (Z.pos mx) + ex - (Zdigits2 (Z.pos my) + ey))).
  set (d1 := Zdigits2 (Z.pos mx)). set (d2 := Zdigits2 (Z.pos my)).
  set (D := d1 + ex - (d2 + ey)).
  set (e' := Z.min (fexp64 D) (ex - ey)).
  set (s := ex - ey - e').
  assert (Hs : 0 <= s) by (unfold s, e'; lia).
  set (m' := match s with
             | Z0 => Z.pos mx
             | Z.pos _ => Z.shiftl (Z.pos mx) s
             | Z.neg _ => 0
             end).
  assert (Hm' : m' = Z.pos mx * 2 ^ s).
  { unfold m'. destruct s as [|k|k] eqn:Es.
    - cbn. lia.
    - apply Z.shiftl_mul_pow2. lia.
    - lia. }
  assert (P : 0 < 2 ^ s) by (apply Z.pow_pos_nonneg; lia).
  pose proof (Z.div_mod m' (Z.pos my) ltac:(lia)) as Hdm.
  pose proof (Z.mod_pos_bound m' (Z.pos my) ltac:(lia)) as Hmod.
  unfold Z.div, Z.modulo in Hdm, Hmod.
  destruct (Z.div_eucl m' (Z.pos my)) as [q r]. cbn [fst snd] in Hdm, Hmod.
  exists q, e', (new_location (Z.pos my) r).
  split; [reflexivity|].
  assert (Hq : 0 <= q) by nia.
  split; [assumption|]. split; [unfold e'; lia|].
  split; [|split; [fold s; rewrite <- Hm'; nia | fold s; rewrite <- Hm'; nia]].
  destruct (Zdigits2_bounds (Z.pos mx) ltac:(lia)) as [L1 U1].
  destruct (Zdigits2_bounds (Z.pos my) ltac:(lia)) as [L2 U2].
  fold d1 in L1, U1. fold d2 in L2, U2.
  pose proof (Zdigits2_pos_ge_1 (Z.pos mx) ltac:(lia)) as D1. fold d1 in D1.
  pose proof (Zdigits2_pos_ge_1 (Z.pos my) ltac:(lia)) as D2. fold d2 in D2.
  assert (L1s : 2 ^ (d1 - 1 + s) <= m').
  { rewrite Hm', Z.pow_add_r by lia. nia. }
  assert (HfD : e' <= fexp64 D) by (unfold e'; lia).
  destruct (Z.eq_dec q 0) as [Hq0 | Hqn].
  - (* the quotient vanishes: the exponent is at most the least one *)
    subst q. cbn [Zdigits2]. rewrite Z.add_0_l.
    assert (Hlt : m' < Z.pos my) by lia.
    assert (Hk : d1 - 1 + s < d2).
    { apply (Z.pow_lt_mono_r_iff 2); lia. }
    assert (He'D : D <= e') by (unfold D, s in *; lia).
    rewrite fexp_eq in HfD |- *. lia.
  - (* the quotient has enough digits *)
    assert (Hqpos : 0 < q) by lia.
    destruct (Zdigits2_bounds q Hqpos) as [Lq Uq].
    pose proof (Zdigits2_pos_ge_1 q Hqpos) as Dq.
    assert (Hdq : d1 + s - d2 <= Zdigits2 q).
    { destruct (Z_lt_le_dec (d1 - 1 + s - d2) 0) as [Hneg | Hnn]; [lia|].
      assert (E : 2 ^ (d1 - 1 + s) = 2 ^ (d1 - 1 + s - d2) * 2 ^ d2).
      { rewrite <- Z.pow_add_r by lia. f_equal. lia. }
      assert (Pk : 0 < 2 ^ (d1 - 1 + s - d2))
        by (apply Z.pow_pos_nonneg; lia).
      assert (Hqk : 2 ^ (d1 - 1 + s - d2) <= q) by nia.
      assert (Hk : d1 - 1 + s - d2 < Zdigits2 q).
      { apply (Z.pow_lt_mono_r_iff 2); lia. }
      lia. }
    assert (HD : D <= Zdigits2 q + e') by (unfold D, s in *; lia).
    pose proof (fexp64_mono _ _ HD). lia.
Qed.

End DivisionCore.

Section DivisionBounds.

Local Open Scope Z_scope.

Lemma value_mul (a b e f : Z) :
  (value (a * b) (e + f) == value a e * value b f)%Q.
Proof.
  unfold value. rewrite inject_Z_mult, pow2_plus. ring.
Qed.

Lemma value_succ_bound (mx ex m e : Z) :
  ex <= e ->
  mx + 1 <= (m + 1) * 2 ^ (e - ex) ->
  (value (mx + 1) ex <= value m e + 2 ^ e)%Q.
Proof.
  intros He Hhi.
  assert (E2 : (value ((m + 1) * 2 ^ (e - ex)) ex == value m e + 2 ^ e)%Q).
  { rewrite value_shift by lia. replace (ex + (e - ex)) with e by lia.
    rewrite value_plus, value_1. reflexivity. }
  rewrite <- E2. now apply value_le.
Qed.

(** The quotient of two positive doubles: within one unit of the last place
    of the result, which is normal unless its exponent is the least. *)
Lemma div_finite_spec (mx my : positive) (ex ey : Z) :
  exists m e,
    div binary64 (S754_finite false mx ex) (S754_finite false my ey)
    = Some (pack m e)
    /\ 0 <= m /\ -1074 <= e /\ (2 ^ 52 <= m \/ e = -1074)
    /\ ((value m e - 2 ^ e) * value (Z.pos my) ey <= value (Z.pos mx) ex
        /\ value (Z.pos mx) ex <= (value m e + 2 ^ e) * value (Z.pos my) ey)%Q.
Proof.
  destruct (div_core_spec mx my ex ey)
    as [q [e' [l [Hcore [Hq [He' [Hfe [Hlo Hhi]]]]]]]].
  destruct (binary_round_aux_spec q e' l Hq Hfe)
    as [m [e [Hr [Hm [Hfe' [Blo [Bhi Hn]]]]]]].
  exists m, e.
  assert (He : -1074 <= e).
  { pose proof (fexp_eq (Zdigits2 q + e')). lia. }
  assert (Hee : e' <= e) by lia.
  split.
  { change (div binary64 (S754_finite false mx ex) (S754_finite false my ey))
      with (Some (SFdiv Binary64.prec Binary64.emax
                        (S754_finite false mx ex) (S754_finite false my ey))).
    f_equal. cbn [SFdiv xorb]. rewrite Hcore. exact Hr. }
  split; [assumption|]. split; [assumption|]. split; [assumption|].
  destruct (value_bounds_of_Z q e' m e Hee Blo Bhi) as [B1 _].
  pose proof (value_succ_bound q e' m e Hee Bhi) as B2.
  pose proof (value_pos (Z.pos my) ey ltac:(lia)) as Py.
  set (s := ex - ey - e') in *.
  assert (Hs : 0 <= s) by (unfold s; lia).
  assert (Vx : (value (Z.pos mx * 2 ^ s) (e' + ey) == value (Z.pos mx) ex)%Q).
  { rewrite value_shift by lia.
    now replace (e' + ey + s) with ex by (unfold s; lia). }
  assert (L : (value q e' * value (Z.pos my) ey <= value (Z.pos mx) ex)%Q).
  { rewrite <- value_mul, <- Vx. now apply value_le. }
  assert (U : (value (Z.pos mx) ex
               <= value (q + 1) e' * value (Z.pos my) ey)%Q).
  { rewrite <- value_mul, <- Vx. apply value_le. lia. }
  split.
  - eapply Qle_trans; [|exact L].
    apply Qmult_le_compat_r; [exact B1 | now apply Qlt_le_weak].
  - eapply Qle_trans; [exact U|].
    apply Qmult_le_compat_r; [exact B2 | now apply Qlt_le_weak].
Qed.

End DivisionBounds.

Section Rows.

Local Open Scope Q_scope.

Lemma least_double_pos : 0 < least_double.
Proof. apply pow2_pos. Qed.

Lemma least_double_small : least_double <= 1 # 1000000000000.
Proof. vm_compute. discriminate. Qed.

Lemma to_Q_nonneg (x : num binary64) :
  sane x = true -> 0 <= Binary64.to_Q x.
Proof.
  destruct x as [[|]|[|]| |[|] m e]; try discriminate; intros _;
    try apply Qle_refl.
  rewrite to_Q_value. apply Qlt_le_weak, value_pos. reflexivity.
Qed.

Lemma add_lit0_l (x : num binary64) :
  sane x = true -> add binary64 (lit binary64 0) x = x.
Proof.
  destruct x as [[|]|[|]| |[|] m e]; try discriminate; reflexivity.
Qed.

Lemma pack_not_zero (m e : Z) : (0 < m)%Z -> pack m e <> S754_zero false.
Proof.
  unfold pack. destruct m; try lia. intros _.
  destruct (e <=? 971)%Z; discriminate.
Qed.

(** The sum of two numbers of the table, when it did not overflow. *)
Lemma add_spec_any (x y : num binary64) :
  sane x = true -> sane y = true ->
  add binary64 x y <> S754_infinity false ->
  x <> S754_infinity false /\ y <> S754_infinity false
  /\ (1 - roundoff) * Binary64.to_Q (add binary64 x y)
     <= Binary64.to_Q x + Binary64.to_Q y
  /\ Binary64.to_Q x + Binary64.to_Q y
     <= (1 + roundoff) * Binary64.to_Q (add binary64 x y).
Proof.
  intros Hx Hy Hr.
  pose proof (add_sane x y Hx Hy) as Hs.
  destruct (add binary64 x y) as [[|]|[|]| |[|] p e] eqn:E;
    try discriminate; try congruence.
  - (* the sum is zero: both are *)
    destruct x as [[|]|[|]| |[|] mx ex]; try discriminate;
      destruct y as [[|]|[|]| |[|] my ey]; try discriminate;
      try discriminate E.
    + repeat split; try discriminate; cbn; lra.
    + exfalso. rewrite add_finite in E.
      cbn [sane] in Hx, Hy. apply Z.leb_le in Hx, Hy.
      destruct (binary_round_spec
                  (fst (shl_align mx ex (Z.min ex ey))
                   + fst (shl_align my ey (Z.min ex ey)))%positive
                  (Z.min ex ey) ltac:(lia))
        as [m [e' [Hp [Hm _]]]].
      rewrite Hp in E. now apply (pack_not_zero m e').
  - destruct (add_spec x y p e Hx Hy E) as [_ [_ [Nx [Ny [B1 B2]]]]].
    rewrite to_Q_value. auto.
Qed.

Lemma pow2_ge_1 (e : Z) : (0 <= e)%Z -> 1 <= 2 ^ e.
Proof. intros He. apply Qpower_1_le; [discriminate | assumption]. Qed.

(** A number of the table divided by a positive double that is at least half
    of it: the quotient did not overflow, and it is within [roundoff] of itself
    plus [least_double] of the exact quotient. *)
Lemma div_spec_any (x : num binary64) (ps : positive) (es : Z) :
  sane x = true -> x <> S754_infinity false ->
  Binary64.to_Q x <= 2 * value (Z.pos ps) es ->
  exists q,
    div binary64 x (S754_finite false ps es) = Some q
    /\ 0 <= Binary64.to_Q q
    /\ ((1 - roundoff) * (Binary64.to_Q q * value (Z.pos ps) es)
        - least_double * value (Z.pos ps) es <= Binary64.to_Q x)
    /\ (Binary64.to_Q x
        <= (1 + roundoff) * (Binary64.to_Q q * value (Z.pos ps) es)
           + least_double * value (Z.pos ps) es).
Proof.
  intros Hx Hinf Hle.
  pose proof (value_pos (Z.pos ps) es ltac:(lia)) as PS.
  pose proof least_double_pos as PE.
  destruct x as [[|]|[|]| |[|] mx ex]; try discriminate; try congruence.
  - (* zero *)
    exists (S754_zero false). split; [reflexivity|].
    cbn [Binary64.to_Q]. split; [lra|]. unfold roundoff. split; nra.
  - destruct (div_finite_spec mx ps ex es)
      as [m [e [Hd [Hm [He [Hn [B1 B2]]]]]]].
    rewrite to_Q_value in Hle.
    set (tot := value (Z.pos ps) es) in *. set (X := value (Z.pos mx) ex) in *.
    pose proof (pow2_pos e) as P2.
    assert (Hm0 : 0 <= value m e).
    { destruct (Z.eq_dec m 0) as [->|]; [rewrite value_0; lra|].
      apply Qlt_le_weak, value_pos. lia. }
    assert (Hulp : 2 ^ e <= roundoff * value m e + least_double).
    { destruct Hn as [Hn | ->].
      - pose proof (value_ulp m e Hn) as U. unfold roundoff. lra.
      - change (2 ^ (-1074)) with least_double. unfold roundoff. lra. }
    assert (Hpack : Binary64.to_Q (pack m e) == value m e
                    /\ pack m e <> S754_infinity false).
    { unfold pack. destruct m as [|p|p]; [| |lia].
      - split; [now rewrite value_0 | discriminate].
      - destruct (e <=? 971)%Z eqn:Ee.
        + split; [apply to_Q_value | discriminate].
        + exfalso. apply Z.leb_gt in Ee.
          assert (Hm52 : (2 ^ 52 <= Z.pos p)%Z)
            by (destruct Hn; [assumption | lia]).
          pose proof (value_ulp (Z.pos p) e Hm52) as U.
          pose proof (pow2_ge_1 e ltac:(lia)) as G1.
          assert (H3 : 3 <= value (Z.pos p) e - 2 ^ e).
          { change (1 # 4503599627370496) with roundoff in U. unfold roundoff in U. lra. }
          assert (H4 : 3 * tot <= (value (Z.pos p) e - 2 ^ e) * tot).
          { apply Qmult_le_compat_r; lra. }
          lra. }
    destruct Hpack as [Vq _].
    exists (pack m e). split; [exact Hd|].
    rewrite Vq, (to_Q_value mx ex). fold X. split; [assumption|].
    set (Qv := value m e) in *. set (p2 := 2 ^ e) in *.
    assert (E1 : (Qv - p2) * tot == Qv * tot - p2 * tot) by ring.
    assert (E2 : (Qv + p2) * tot == Qv * tot + p2 * tot) by ring.
    rewrite E1 in B1. rewrite E2 in B2.
    assert (H5 : p2 * tot <= (roundoff * Qv + least_double) * tot).
    { apply Qmult_le_compat_r; lra. }
    assert (E3 : (roundoff * Qv + least_double) * tot == roundoff * (Qv * tot) + least_double * tot) by ring.
    rewrite E3 in H5.
    set (T := Qv * tot) in *. split; lra.
Qed.

End Rows.

Section RowSums.

Local Open Scope Q_scope.

Lemma sane_cases (x : num binary64) :
  sane x = true -> x <> S754_infinity false ->
  Binary64.is_zero x = false ->
  exists p e, x = S754_finite false p e.
Proof.
  destruct x as [[|]|[|]| |[|] p e]; try discriminate; try congruence.
  intros _ _ _. now exists p, e.
Qed.

Lemma quotient_bounds (X tot Qv : Q) :
  0 < tot ->
  (1 - roundoff) * (Qv * tot) - least_double * tot <= X ->
  X <= (1 + roundoff) * (Qv * tot) + least_double * tot ->
  (1 - roundoff) * (Qv * tot) - (1 # 1000000000000) * tot <= X
  /\ X <= (1 + roundoff) * (Qv * tot) + (1 # 1000000000000) * tot.
Proof.
  intros HS H1 H2. pose proof least_double_small as E.
  assert (H : least_double * tot <= (1 # 1000000000000) * tot).
  { apply Qmult_le_compat_r; [assumption | now apply Qlt_le_weak]. }
  split; lra.
Qed.

Lemma within_of_scaled (x tot : Q) :
  0 < tot ->
  (1 - (1 # 1000000000)) * tot <= x * tot ->
  x * tot <= (1 + (1 # 1000000000)) * tot ->
  within_1e9 x 1.
Proof.
  intros HS H1 H2. unfold within_1e9. apply Qabs_Qle_condition.
  apply Qmult_le_r in H1; [|assumption].
  apply Qmult_le_r in H2; [|assumption].
  split; lra.
Qed.

(** The three gene entries of a normalized row sum to [1] within [1e-9]
    whenever their total did not overflow. *)
Lemma normalized_gene_sum (d d' : Distribution binary64) :
  sane_row d ->
  gene_total binary64 d <> S754_infinity false ->
  normalize_person binary64 d = Some d' ->
  within_1e9 (gene_sum_Q d') 1.
Proof.
  intros [S2 [S1 [S0 _]]] Hinf Hn.
  unfold normalize_person in Hn.
  destruct (div binary64 (gene2 d) (gene_total binary64 d)) as [q2|] eqn:D2;
    [|discriminate].
  destruct (div binary64 (gene1 d) (gene_total binary64 d)) as [q1|] eqn:D1;
    [|discriminate].
  destruct (div binary64 (gene0 d) (gene_total binary64 d)) as [q0|] eqn:D0;
    [|discriminate].
  destruct (div binary64 (trait_true d) (trait_total binary64 d));
    [|discriminate].
  destruct (div binary64 (trait_false d) (trait_total binary64 d));
    [|discriminate].
  injection Hn as <-. unfold gene_sum_Q. cbn [gene2 gene1 gene0].
  assert (Hz : Binary64.is_zero (gene_total binary64 d) = false).
  { destruct (Binary64.is_zero (gene_total binary64 d)) eqn:Z; [|reflexivity].
    apply (div_binary64_raises (gene2 d)) in Z. congruence. }
  unfold gene_total in *. rewrite (add_lit0_l (gene2 d) S2) in *.
  set (b := add binary64 (gene2 d) (gene1 d)) in *.
  assert (Sb : sane b = true) by now apply add_sane.
  assert (Ss : sane (add binary64 b (gene0 d)) = true) by now apply add_sane.
  destruct (sane_cases _ Ss Hinf Hz) as [ps [es Es]].
  destruct (add_spec_any b (gene0 d) Sb S0 Hinf) as [Nb [N0 [A1 A2]]].
  destruct (add_spec_any (gene2 d) (gene1 d) S2 S1 Nb) as [N2 [N1 [B1 B2]]].
  fold b in B1, B2. rewrite Es in *. rewrite to_Q_value in A1, A2.
  pose proof (value_pos (Z.pos ps) es ltac:(lia)) as PS.
  pose proof (to_Q_nonneg _ S2) as X2. pose proof (to_Q_nonneg _ S1) as X1.
  pose proof (to_Q_nonneg _ S0) as X0. pose proof (to_Q_nonneg _ Sb) as XB.
  set (tot := value (Z.pos ps) es) in *.
  set (x2 := Binary64.to_Q (gene2 d)) in *.
  set (x1 := Binary64.to_Q (gene1 d)) in *.
  set (x0 := Binary64.to_Q (gene0 d)) in *.
  set (B := Binary64.to_Q b) in *.
  unfold roundoff in A1, A2, B1, B2.
  destruct (div_spec_any (gene2 d) ps es S2 N2) as [r2 [E2 [P2 [L2 U2]]]].
  { fold x2 tot. lra. }
  destruct (div_spec_any (gene1 d) ps es S1 N1) as [r1 [E1 [P1 [L1 U1]]]].
  { fold x1 tot. lra. }
  destruct (div_spec_any (gene0 d) ps es S0 N0) as [r0 [E0 [P0 [L0 U0]]]].
  { fold x0 tot. lra. }
  rewrite D2 in E2. rewrite D1 in E1. rewrite D0 in E0.
  injection E2 as <-. injection E1 as <-. injection E0 as <-.
  fold x2 tot in L2, U2. fold x1 tot in L1, U1. fold x0 tot in L0, U0.
  destruct (quotient_bounds _ _ _ PS L2 U2) as [L2' U2'].
  destruct (quotient_bounds _ _ _ PS L1 U1) as [L1' U1'].
  destruct (quotient_bounds _ _ _ PS L0 U0) as [L0' U0'].
  clear L2 U2 L1 U1 L0 U0.
  apply (within_of_scaled _ tot PS).
  - assert (E : (Binary64.to_Q q2 + Binary64.to_Q q1 + Binary64.to_Q q0) * tot
                == Binary64.to_Q q2 * tot + Binary64.to_Q q1 * tot
                   + Binary64.to_Q q0 * tot) by ring.
    rewrite E. unfold roundoff in *.
    set (T2 := Binary64.to_Q q2 * tot) in *.
    set (T1 := Binary64.to_Q q1 * tot) in *.
    set (T0 := Binary64.to_Q q0 * tot) in *. lra.
  - assert (E : (Binary64.to_Q q2 + Binary64.to_Q q1 + Binary64.to_Q q0) * tot
                == Binary64.to_Q q2 * tot + Binary64.to_Q q1 * tot
                   + Binary64.to_Q q0 * tot) by ring.
    rewrite E. unfold roundoff in *.
    set (T2 := Binary64.to_Q q2 * tot) in *.
    set (T1 := Binary64.to_Q q1 * tot) in *.
    set (T0 := Binary64.to_Q q0 * tot) in *. lra.
Qed.

End RowSums.

Section RowSums2.

Local Open Scope Q_scope.

(** The two trait entries of a normalized row sum to [1] within [1e-9]
    whenever their total did not overflow. *)
Lemma normalized_trait_sum (d d' : Distribution binary64) :
  sane_row d ->
  trait_total binary64 d <> S754_infinity false ->
  normalize_person binary64 d = Some d' ->
  within_1e9 (trait_sum_Q d') 1.
Proof.
  intros [_ [_ [_ [S1 S0]]]] Hinf Hn.
  unfold normalize_person in Hn.
  destruct (div binary64 (gene2 d) (gene_total binary64 d));
    [|discriminate].
  destruct (div binary64 (gene1 d) (gene_total binary64 d));
    [|discriminate].
  destruct (div binary64 (gene0 d) (gene_total binary64 d));
    [|discriminate].
  destruct (div binary64 (trait_true d) (trait_total binary64 d))
    as [q1|] eqn:D1; [|discriminate].
  destruct (div binary64 (trait_false d) (trait_total binary64 d))
    as [q0|] eqn:D0; [|discriminate].
  injection Hn as <-. unfold trait_sum_Q. cbn [trait_true trait_false].
  assert (Hz : Binary64.is_zero (trait_total binary64 d) = false).
  { destruct (Binary64.is_zero (trait_total binary64 d)) eqn:Z;
      [|reflexivity].
    apply (div_binary64_raises (trait_true d)) in Z. congruence. }
  unfold trait_total in *. rewrite (add_lit0_l (trait_true d) S1) in *.
  assert (Ss : sane (add binary64 (trait_true d) (trait_false d)) = true)
    by now apply add_sane.
  destruct (sane_cases _ Ss Hinf Hz) as [ps [es Es]].
  destruct (add_spec_any (trait_true d) (trait_false d) S1 S0 Hinf)
    as [N1 [N0 [A1 A2]]].
  rewrite Es in *. rewrite to_Q_value in A1, A2.
  pose proof (value_pos (Z.pos ps) es ltac:(lia)) as PS.
  pose proof (to_Q_nonneg _ S1) as X1. pose proof (to_Q_nonneg _ S0) as X0.
  set (tot := value (Z.pos ps) es) in *.
  set (x1 := Binary64.to_Q (trait_true d)) in *.
  set (x0 := Binary64.to_Q (trait_false d)) in *.
  unfold roundoff in A1, A2.
  destruct (div_spec_any (trait_true d) ps es S1 N1)
    as [r1 [E1 [P1 [L1 U1]]]].
  { fold x1 tot. lra. }
  destruct (div_spec_any (trait_false d) ps es S0 N0)
    as [r0 [E0 [P0 [L0 U0]]]].
  { fold x0 tot. lra. }
  rewrite D1 in E1. rewrite D0 in E0.
  injection E1 as <-. injection E0 as <-.
  fold x1 tot in L1, U1. fold x0 tot in L0, U0.
  destruct (quotient_bounds _ _ _ PS L1 U1) as [L1' U1'].
  destruct (quotient_bounds _ _ _ PS L0 U0) as [L0' U0'].
  clear L1 U1 L0 U0.
  apply (within_of_scaled _ tot PS).
  - assert (E : (Binary64.to_Q q1 + Binary64.to_Q q0) * tot
                == Binary64.to_Q q1 * tot + Binary64.to_Q q0 * tot) by ring.
    rewrite E. unfold roundoff in *.
    set (T1 := Binary64.to_Q q1 * tot) in *.
    set (T0 := Binary64.to_Q q0 * tot) in *. lra.
  - assert (E : (Binary64.to_Q q1 + Binary64.to_Q q0) * tot
                == Binary64.to_Q q1 * tot + Binary64.to_Q q0 * tot) by ring.
    rewrite E. unfold roundoff in *.
    set (T1 := Binary64.to_Q q1 * tot) in *.
    set (T0 := Binary64.to_Q q0 * tot) in *. lra.
Qed.

End RowSums2.

(** ** The table stays sane *)

Lemma joint_step_sane one two ht (acc : num binary64) entry :
  sane acc = true ->
  sane (joint_step binary64 one two ht acc entry) = true.
Proof.
  intros Hacc. destruct entry as [person info]. unfold joint_step.
  destruct (mother info).
  - destruct (gene_count one two person),
             (parent_count one two (Some s)),
             (parent_count one two (father info)),
             (mem person ht);
      cbv beta iota;
      (apply mul_sane;
       [apply mul_sane; [exact Hacc | vm_compute; reflexivity]
       | vm_compute; reflexivity]).
  - destruct (gene_count one two person), (mem person ht);
      cbv beta iota;
      (apply mul_sane;
       [apply mul_sane; [exact Hacc | vm_compute; reflexivity]
       | vm_compute; reflexivity]).
Qed.

Lemma joint_probability_sane people one two ht :
  sane (joint_probability binary64 people one two ht) = true.
Proof.
  unfold joint_probability.
  assert (H : sane (lit binary64 1) = true) by reflexivity.
  revert H. generalize (lit binary64 1).
  induction people as [|entry people IH]; intros acc Hacc; simpl.
  - assumption.
  - apply IH, joint_step_sane, Hacc.
Qed.

Lemma sane_nonneg (x : spec_float) :
  sane x = true -> Binary64.nonneg x = true.
Proof.
  destruct x as [[|]|[|]| |[|] m e]; intros H; try discriminate H;
    reflexivity.
Qed.

(** In floating point the weight of a scenario is [+0.0], a positive
    double or [+inf]: never negative and never a NaN. *)
Lemma joint_probability_nonneg people one two ht :
  Binary64.nonneg (joint_probability binary64 people one two ht) = true.
Proof.
  apply sane_nonneg, joint_probability_sane.
Qed.


Lemma add_mass_sane (d : Distribution binary64) g t (p : num binary64) :
  sane_row d -> sane p = true -> sane_row (add_mass binary64 d g t p).
Proof.
  intros [H2 [H1 [H0 [Ht Hf]]]] Hp. unfold sane_row, add_mass.
  cbn [gene2 gene1 gene0 trait_true trait_false].
  destruct g, t; repeat split; try assumption; now apply add_sane.
Qed.

Lemma person_after_sane people person calls :
  forall d, sane_row d ->
            sane_row (person_after binary64 people person calls d).
Proof.
  induction calls as [|c calls IH]; intros d Hd.
  - exact Hd.
  - unfold person_after in *. cbn [fold_left]. apply IH.
    apply add_mass_sane; [exact Hd | apply joint_probability_sane].
Qed.

Lemma zero_distribution_sane : sane_row (zero_distribution binary64).
Proof. repeat split. Qed.

(** In floating point, for every pedigree and every person, the row that
    [main] returns sums to [1] within [1e-9], for the gene counts and for
    the trait, whenever the person's accumulated total did not overflow. *)
Lemma main_sums_within (people : dict Person)
    (table : dict (Distribution binary64)) (person : string)
    (d0 d : Distribution binary64) :
  main binary64 people = Some table ->
  lookup (probabilities (enumerate binary64 people)) person = Some d0 ->
  lookup table person = Some d ->
  (gene_total binary64 d0 <> S754_infinity false ->
   within_1e9 (gene_sum_Q d) 1)
  /\ (trait_total binary64 d0 <> S754_infinity false ->
      within_1e9 (trait_sum_Q d) 1).
Proof.
  intros Hmain Hrow Hd.
  destruct (normalize_lookup binary64 _ _ _ _ Hmain Hrow) as [d' [Hl' Hn]].
  rewrite Hd in Hl'. injection Hl' as <-.
  assert (Hs : sane_row d0).
  { rewrite enumerate_table in Hrow.
    rewrite (lookup_map (fun p _ =>
               person_after binary64 people p
                 (scenarios people (to_set (keys people))
                            (powerset (to_set (keys people))))
                 (zero_distribution binary64))) in Hrow.
    destruct (lookup people person); [|discriminate].
    cbn [option_map] in Hrow. injection Hrow as <-.
    apply person_after_sane, zero_distribution_sane. }
  split; intros Hinf.
  - now apply (normalized_gene_sum d0 d).
  - now apply (normalized_trait_sum d0 d).
Qed.

(** ** [load_data] *)

Lemma lookup_dict_set_same {V : Type} (d : dict V) (k : string) (v : V) :
  lookup (dict_set d k v) k = Some v.
Proof.
  induction d as [|[k' v'] d IH]; simpl.
  - now rewrite String.eqb_refl.
  - destruct (String.eqb k k') eqn:E; simpl.
    + now rewrite String.eqb_refl.
    + now rewrite E.
Qed.

Lemma lookup_dict_set_other {V : Type} (d : dict V) (k k' : string) (v : V) :
  k <> k' -> lookup (dict_set d k v) k' = lookup d k'.
Proof.
  intros Hne. induction d as [|[k0 v0] d IH]; simpl.
  - destruct (String.eqb k' k) eqn:E; [|reflexivity].
    apply String.eqb_eq in E. congruence.
  - destruct (String.eqb k k0) eqn:E; simpl.
    + apply String.eqb_eq in E. subst k0.
      destruct (String.eqb k' k) eqn:E'; [|reflexivity].
      apply String.eqb_eq in E'. congruence.
    + now rewrite IH.
Qed.

Lemma keys_dict_set_present {V : Type} (d : dict V) (k : string) (v : V) :
  In k (keys d) -> keys (dict_set d k v) = keys d.
Proof.
  induction d as [|[k' v'] d IH]; simpl; intros Hin.
  - contradiction.
  - destruct (String.eqb k k') eqn:E; simpl.
    + apply String.eqb_eq in E. now subst.
    + f_equal. apply IH. destruct Hin as [Heq|Hin]; [|assumption].
      subst k'. now rewrite String.eqb_refl in E.
Qed.

Lemma dict_set_absent {V : Type} (d : dict V) (k : string) (v : V) :
  ~ In k (keys d) -> dict_set d k v = d ++ [(k, v)].
Proof.
  induction d as [|[k' v'] d IH]; simpl; intros Hin.
  - reflexivity.
  - destruct (String.eqb k k') eqn:E.
    + apply String.eqb_eq in E. subst. tauto.
    + f_equal. apply IH. tauto.
Qed.

Lemma load_data_snoc (rows : list Row) (row : Row) :
  load_data (rows ++ [row])
  = dict_set (load_data rows) (row_name row) (load_row row).
Proof.
  unfold load_data. now rewrite fold_left_app.
Qed.

Lemma find_snoc {X : Type} (f : X -> bool) (l : list X) (x : X) :
  find f (x :: l) = if f x then Some x else find f l.
Proof. reflexivity. Qed.

Lemma load_data_lookup (rows : list Row) (n : string) :
  lookup (load_data rows) n
  = option_map load_row
      (find (fun row => String.eqb (row_name row) n) (rev rows)).
Proof.
  induction rows as [|row rows IH] using rev_ind.
  - reflexivity.
  - rewrite load_data_snoc, rev_app_distr. cbn [rev app find].
    destruct (String.eqb (row_name row) n) eqn:E.
    + apply String.eqb_eq in E. subst n.
      now rewrite lookup_dict_set_same.
    + rewrite lookup_dict_set_other; [exact IH|].
      intros Heq. subst n. now rewrite String.eqb_refl in E.
Qed.

Lemma load_data_keys (rows : list Row) :
  keys (load_data rows)
  = rev (nodup string_dec (rev (map row_name rows))).
Proof.
  induction rows as [|row rows IH] using rev_ind.
  - reflexivity.
  - rewrite load_data_snoc, map_app, rev_app_distr. cbn [map rev app nodup].
    destruct (in_dec string_dec (row_name row) (rev (map row_name rows)))
      as [Hin|Hout].
    + rewrite keys_dict_set_present; [exact IH|].
      rewrite IH. apply -> in_rev. apply nodup_In. exact Hin.
    + rewrite dict_set_absent.
      * unfold keys in *. rewrite map_app, IH. reflexivity.
      * rewrite IH. intros H. apply Hout.
        apply in_rev in H. apply nodup_In in H. exact H.
Qed.

Lemma load_data_distinct (rows : list Row) :
  NoDup (map row_name rows) ->
  load_data rows = map (fun row => (row_name row, load_row row)) rows.
Proof.
  induction rows as [|row rows IH] using rev_ind; intros Hnd.
  - reflexivity.
  - rewrite load_data_snoc, map_app. cbn [map].
    rewrite map_app in Hnd. cbn [map] in Hnd.
    apply NoDup_remove in Hnd. rewrite app_nil_r in Hnd.
    destruct Hnd as [Hnd Hout].
    rewrite dict_set_absent.
    + now rewrite IH.
    + rewrite IH by assumption. unfold keys. rewrite map_map. exact Hout.
Qed.

(** ** [powerset], as a function of its own *)

Lemma length_sublists (l : list string) :
  List.length (sublists l) = 2 ^ List.length l.
Proof.
  induction l as [|x l IH]; [reflexivity|].
  cbn [sublists List.length]. rewrite length_app, length_map, IH.
  cbn [Nat.pow]. lia.
Qed.

Lemma powerset_length_any (s : list string) :
  List.length (powerset s) = 2 ^ List.length s.
Proof.
  unfold powerset. rewrite length_map.
  rewrite (Permutation_length (chain_combinations_sublists s)).
  apply length_sublists.
Qed.

Lemma combinations_length (s : list string) :
  forall r t, In t (combinations s r) -> List.length t = r.
Proof.
  induction s as [|x s IH]; intros [|r] t; simpl.
  - intros [<- | []]. reflexivity.
  - intros [].
  - intros [<- | []]. reflexivity.
  - rewrite in_app_iff, in_map_iff. intros [[t' [<- Ht']] | Ht].
    + simpl. f_equal. now apply IH.
    + now apply IH.
Qed.

Lemma combinations_full (s : list string) :
  combinations s (List.length s) = [s].
Proof.
  induction s as [|x s IH]; [reflexivity|].
  cbn [combinations List.length]. rewrite IH.
  rewrite combinations_beyond by lia. reflexivity.
Qed.

Lemma powerset_chain (s : pyset) :
  NoDup s ->
  powerset s = flat_map (combinations s) (seq 0 (List.length s + 1)).
Proof.
  intros Hs. unfold powerset.
  rewrite (map_ext_in to_set (fun t => t)); [now rewrite map_id|].
  intros t Ht. apply nodup_fixed_point.
  apply (sublists_NoDup s t Hs).
  eapply Permutation_in; [apply chain_combinations_sublists | exact Ht].
Qed.

Lemma sublist_is_filter (l t : list string) :
  NoDup l -> In t (sublists l) -> t = filter (fun x => mem x t) l.
Proof.
  intros Hl. revert t. induction Hl as [|x l Hx Hl IH]; intros t; simpl.
  - intros [<- | []]. reflexivity.
  - rewrite in_app_iff, in_map_iff. intros [[t' [<- Ht']] | Ht].
    + rewrite mem_cons_same. f_equal.
      rewrite (IH t' Ht') at 1. apply filter_ext_in.
      intros y Hy. symmetry. apply mem_cons_other. intros ->. tauto.
    + assert (Hm : mem x t = false).
      { apply mem_not_In. intros Hin. apply Hx.
        eapply sublists_incl; eassumption. }
      rewrite Hm. now apply IH.
Qed.

Lemma mem_ext (t u : pyset) :
  (forall x, In x t <-> In x u) -> forall x, mem x t = mem x u.
Proof.
  intros H x. destruct (mem x u) eqn:E.
  - apply mem_In. apply H. now apply mem_In.
  - apply mem_not_In. intros Hin. apply H in Hin.
    apply mem_In in Hin. congruence.
Qed.

Lemma sublists_same_members (l t u : list string) :
  NoDup l -> In t (sublists l) -> In u (sublists l) ->
  (forall x, In x t <-> In x u) -> t = u.
Proof.
  intros Hl Ht Hu Hm.
  rewrite (sublist_is_filter l t Hl Ht), (sublist_is_filter l u Hl Hu).
  apply filter_ext. apply mem_ext, Hm.
Qed.

Lemma sublists_all_NoDup (l : list string) : NoDup l -> NoDup (sublists l).
Proof.
  intros Hl. induction Hl as [|x l Hx Hl IH]; simpl.
  - constructor; [intros [] | constructor].
  - apply NoDup_app.
    + now apply NoDup_map_cons.
    + exact IH.
    + intros t Ht Ht'. apply in_map_iff in Ht. destruct Ht as [t' [<- _]].
      apply Hx. apply (sublists_incl l (x :: t') Ht'). now left.
Qed.

Lemma StronglySorted_app {X : Type} (R : X -> X -> Prop) (l1 l2 : list X) :
  StronglySorted R l1 -> StronglySorted R l2 ->
  (forall x y, In x l1 -> In y l2 -> R x y) ->
  StronglySorted R (l1 ++ l2).
Proof.
  intros H1 H2 H. induction H1 as [|x l1 H1 IH Hx]; simpl; [assumption|].
  constructor.
  - apply IH. intros a b Ha Hb. apply H; [now right | assumption].
  - apply Forall_app. split; [assumption|].
    apply Forall_forall. intros y Hy. apply H; [now left | assumption].
Qed.

Lemma StronglySorted_constant (n : nat) (l : list nat) :
  (forall x, In x l -> x = n) -> StronglySorted le l.
Proof.
  induction l as [|x l IH]; intros H; constructor.
  - apply IH. intros y Hy. apply H. now right.
  - apply Forall_forall. intros y Hy.
    rewrite (H x (or_introl eq_refl)), (H y (or_intror Hy)). constructor.
Qed.

Lemma chain_sorted (s : list string) (m a : nat) :
  StronglySorted le
    (map (@List.length string) (flat_map (combinations s) (seq a m))).
Proof.
  revert a. induction m as [|m IH]; intros a; simpl; [constructor|].
  rewrite map_app. apply StronglySorted_app.
  - apply (StronglySorted_constant a). intros x Hx.
    apply in_map_iff in Hx. destruct Hx as [t [<- Ht]].
    eapply combinations_length; eassumption.
  - apply IH.
  - intros x y Hx Hy.
    apply in_map_iff in Hx. destruct Hx as [t [<- Ht]].
    apply in_map_iff in Hy. destruct Hy as [u [<- Hu]].
    apply in_flat_map in Hu. destruct Hu as [r [Hr Hu]].
    apply in_seq in Hr.
    rewrite (combinations_length s a t Ht), (combinations_length s r u Hu).
    lia.
Qed.

Lemma chain_head (s : list string) (m : nat) :
  hd_error (flat_map (combinations s) (seq 0 (m + 1))) = Some [].
Proof.
  rewrite Nat.add_1_r. cbn [seq flat_map]. rewrite combinations_0.
  reflexivity.
Qed.

Lemma chain_last (s : list string) :
  last (flat_map (combinations s) (seq 0 (List.length s + 1))) [] = s.
Proof.
  rewrite seq_app, flat_map_app. cbn [seq flat_map Nat.add].
  rewrite app_nil_r, combinations_full. apply last_last.
Qed.

(** ** Folds *)

Lemma fold_left_ext_in {X Y : Type} (f g : Y -> X -> Y) (l : list X) :
  (forall x, In x l -> forall a, f a x = g a x) ->
  forall a, fold_left f l a = fold_left g l a.
Proof.
  induction l as [|x l IH]; intros H a; simpl; [reflexivity|].
  rewrite (H x (or_introl eq_refl)). apply IH.
  intros y Hy. apply H. now right.
Qed.

Lemma existsb_ext_all {X : Type} (f g : X -> bool) (l : list X) :
  (forall x, f x = g x) -> existsb f l = existsb g l.
Proof.
  intros H. induction l as [|x l IH]; simpl; [reflexivity|].
  now rewrite H, IH.
Qed.

Lemma fold_left_map {X Y W : Type} (f : Y -> X -> Y) (g : W -> X)
    (l : list W) :
  forall a, fold_left f (map g l) a = fold_left (fun a w => f a (g w)) l a.
Proof.
  induction l as [|w l IH]; intros a; simpl; [reflexivity | apply IH].
Qed.

(** ** The sets of [joint_probability] and [update] *)

Section SetsOfACall.

Context (A : Arith).

Lemma gene_count_ext (one two one' two' : pyset) :
  (forall x, mem x one = mem x one') ->
  (forall x, mem x two = mem x two') ->
  forall x, gene_count one two x = gene_count one' two' x.
Proof.
  intros H1 H2 x. unfold gene_count. now rewrite H1, H2.
Qed.

Lemma parent_count_gene_count (one two : pyset) (parent : option string) :
  parent_count one two parent
  = match parent with
    | Some x => gene_count one two x
    | None => C0
    end.
Proof. destruct parent; reflexivity. Qed.

Lemma joint_step_ext (one two ht one' two' ht' : pyset) acc entry :
  (forall x, gene_count one two x = gene_count one' two' x) ->
  (forall x, mem x ht = mem x ht') ->
  joint_step A one two ht acc entry = joint_step A one' two' ht' acc entry.
Proof.
  intros Hg Ht. destruct entry as [person info]. unfold joint_step.
  rewrite !parent_count_gene_count, Hg, Ht.
  destruct (mother info) as [m|]; [|reflexivity].
  rewrite Hg. destruct (father info) as [f|]; [rewrite Hg|]; reflexivity.
Qed.

Lemma joint_probability_ext people (one two ht one' two' ht' : pyset) :
  (forall x, gene_count one two x = gene_count one' two' x) ->
  (forall x, mem x ht = mem x ht') ->
  joint_probability A people one two ht
  = joint_probability A people one' two' ht'.
Proof.
  intros Hg Ht. unfold joint_probability. apply fold_left_ext_in.
  intros entry _ acc. now apply joint_step_ext.
Qed.

Lemma update_ext (table : dict (Distribution A))
    (one two ht one' two' ht' : pyset) (p : num A) :
  (forall x, gene_count one two x = gene_count one' two' x) ->
  (forall x, mem x ht = mem x ht') ->
  update A table one two ht p = update A table one' two' ht' p.
Proof.
  intros Hg Ht. unfold update. apply map_ext. intros [person d].
  now rewrite Hg, Ht.
Qed.

Lemma mem_difference (x : string) (s t : pyset) :
  mem x (difference s t) = mem x s && negb (mem x t).
Proof.
  unfold difference. destruct (mem x s) eqn:Es, (mem x t) eqn:Et; cbn.
  - apply mem_not_In. rewrite filter_In. intros [_ H].
    rewrite Et in H. discriminate.
  - apply mem_In. rewrite filter_In. split; [now apply mem_In|].
    now rewrite Et.
  - apply mem_not_In. rewrite filter_In. intros [H _].
    apply mem_In in H. congruence.
  - apply mem_not_In. rewrite filter_In. intros [H _].
    apply mem_In in H. congruence.
Qed.

Lemma gene_count_difference (one two : pyset) (x : string) :
  gene_count (difference one two) two x = gene_count one two x.
Proof.
  unfold gene_count. rewrite mem_difference.
  destruct (mem x two); [reflexivity|]. now rewrite andb_true_r.
Qed.

(** ** A father without a mother *)

Lemma joint_step_lone_father one two ht acc person info :
  joint_step A one two ht acc (person, without_lone_father info)
  = joint_step A one two ht acc (person, info).
Proof.
  unfold without_lone_father, joint_step.
  destruct (mother info) eqn:E; cbn [mother father]; rewrite ?E; reflexivity.
Qed.

Lemma joint_probability_lone_father people one two ht :
  joint_probability A
    (map (fun entry => (fst entry, without_lone_father (snd entry))) people)
    one two ht
  = joint_probability A people one two ht.
Proof.
  unfold joint_probability. rewrite fold_left_map.
  apply fold_left_ext_in. intros [person info] _ acc.
  apply joint_step_lone_father.
Qed.

Lemma trait_lone_father info : trait (without_lone_father info) = trait info.
Proof. unfold without_lone_father. now destruct (mother info). Qed.

Lemma fails_evidence_lone_father people names ht :
  fails_evidence
    (map (fun entry => (fst entry, without_lone_father (snd entry))) people)
    names ht
  = fails_evidence people names ht.
Proof.
  unfold fails_evidence. apply existsb_ext_all. intros person.
  rewrite (lookup_map (fun _ info => without_lone_father info)).
  destruct (lookup people person) as [info|]; [|reflexivity].
  cbn [option_map]. now rewrite trait_lone_father.
Qed.

Lemma enumerate_lone_father people :
  enumerate A
    (map (fun entry => (fst entry, without_lone_father (snd entry))) people)
  = enumerate A people.
Proof.
  unfold enumerate, keys. rewrite map_map. cbn [fst].
  unfold initial. rewrite map_map. cbn [fst].
  unfold accumulate. apply fold_left_ext_in. intros ht _ run.
  unfold trait_step. rewrite fails_evidence_lone_father.
  destruct (fails_evidence people _ ht); [reflexivity|].
  unfold gene_loop. apply fold_left_ext_in. intros one _ run1.
  apply fold_left_ext_in. intros two _ run2.
  unfold evaluate. now rewrite joint_probability_lone_father.
Qed.

End SetsOfACall.

(** ** The weight of a scenario is a probability *)

Section UnitInterval.

Local Open Scope Q_scope.

Lemma joint_step_le one two ht (acc : Q) entry :
  0 < acc -> joint_step rational one two ht acc entry <= acc.
Proof.
  intros Hacc. destruct entry as [person info]. unfold joint_step.
  destruct (mother info).
  - destruct (gene_count one two person),
             (parent_count one two (Some s)),
             (parent_count one two (father info)),
             (mem person ht);
      cbn; unfold Qminus; cbn; lra.
  - destruct (gene_count one two person), (mem person ht); cbn; lra.
Qed.

Lemma joint_fold_le one two ht people :
  forall acc : Q,
    0 < acc -> fold_left (joint_step rational one two ht) people acc <= acc.
Proof.
  induction people as [|entry people IH]; intros acc Hacc; simpl.
  - apply Qle_refl.
  - eapply Qle_trans; [apply IH, joint_step_pos, Hacc|].
    apply joint_step_le, Hacc.
Qed.

End UnitInterval.

(** ** [normalize] keeps the persons *)

Lemma normalize_keys (A : Arith) (table : dict (Distribution A)) :
  forall table', normalize A table = Some table' -> keys table' = keys table.
Proof.
  induction table as [|[person d] table IH]; intros table' H; simpl in H.
  - now injection H as <-.
  - destruct (normalize_person A d); [|discriminate].
    destruct (normalize A table) as [rest|]; [|discriminate].
    injection H as <-. simpl. f_equal. now apply IH.
Qed.

Lemma enumerate_keys (A : Arith) (people : dict Person) :
  keys (probabilities (enumerate A people)) = keys people.
Proof.
  rewrite enumerate_table. unfold keys. now rewrite map_map.
Qed.

(** ** The entries of the accumulated table *)

Section Entries.

Local Open Scope Q_scope.

Lemma copies_eqb_eq g h : copies_eqb g h = true <-> g = h.
Proof. destruct g, h; cbn; split; congruence. Qed.

Lemma gene_after people person g calls :
  forall d : Distribution rational,
    gene rational (person_after rational people person calls d) g
    == gene rational d g + mass people (with_count person g calls).
Proof.
  induction calls as [|c calls IH]; intros d.
  - unfold mass. destruct g; cbn; symmetry; apply Qplus_0_r.
  - unfold person_after in *. cbn [fold_left]. rewrite IH.
    unfold with_count. cbn [filter].
    destruct (gene_count (fst (fst c)) (snd (fst c)) person), g;
      cbn [copies_eqb]; rewrite ?mass_cons; cbn; ring.
Qed.

Lemma trait_after people person t calls :
  forall d : Distribution rational,
    trait_of rational (person_after rational people person calls d) t
    == trait_of rational d t + mass people (with_trait person t calls).
Proof.
  induction calls as [|c calls IH]; intros d.
  - unfold mass. destruct t; cbn; symmetry; apply Qplus_0_r.
  - unfold person_after in *. cbn [fold_left]. rewrite IH.
    unfold with_trait. cbn [filter].
    destruct (mem person (snd c)), t;
      cbn [Bool.eqb]; rewrite ?mass_cons; cbn; ring.
Qed.

Lemma gene_after_zero people person g calls :
  gene rational
    (person_after rational people person calls (zero_distribution rational)) g
  == mass people (with_count person g calls).
Proof. rewrite gene_after. destruct g; cbn; ring. Qed.

Lemma trait_after_zero people person t calls :
  trait_of rational
    (person_after rational people person calls (zero_distribution rational)) t
  == mass people (with_trait person t calls).
Proof. rewrite trait_after. destruct t; cbn; ring. Qed.

(** ** The order of the scenarios *)

Lemma mass_app people calls calls' :
  mass people (calls ++ calls') == mass people calls + mass people calls'.
Proof.
  induction calls as [|c calls IH]; simpl.
  - unfold mass at 2. simpl. ring.
  - rewrite !mass_cons, IH. ring.
Qed.

Lemma mass_Permutation people calls calls' :
  Permutation calls calls' -> mass people calls == mass people calls'.
Proof.
  induction 1.
  - reflexivity.
  - rewrite !mass_cons. now rewrite IHPermutation.
  - rewrite !mass_cons. ring.
  - now rewrite IHPermutation1.
Qed.

Lemma same_members_mem s t :
  same_members s t -> forall x, mem x s = mem x t.
Proof. intros H. apply mem_ext, H. Qed.

Lemma same_call_gene_count c c' :
  same_call c c' ->
  forall x, gene_count (fst (fst c)) (snd (fst c)) x
            = gene_count (fst (fst c')) (snd (fst c')) x.
Proof.
  intros [H1 [H2 _]]. apply gene_count_ext; now apply same_members_mem.
Qed.

Lemma same_call_weight people c c' :
  same_call c c' ->
  joint_probability rational people (fst (fst c)) (snd (fst c)) (snd c)
  = joint_probability rational people (fst (fst c')) (snd (fst c')) (snd c').
Proof.
  intros H. apply joint_probability_ext.
  - now apply same_call_gene_count.
  - apply same_members_mem, H.
Qed.

Lemma mass_with_count_same people person g calls calls' :
  Forall2 same_call calls calls' ->
  mass people (with_count person g calls)
  == mass people (with_count person g calls').
Proof.
  induction 1 as [|c c' calls calls' Hc _ IH]; [reflexivity|].
  unfold with_count in *. cbn [filter].
  rewrite <- (same_call_gene_count c c' Hc).
  destruct (copies_eqb _ g); [|exact IH].
  rewrite !mass_cons, IH, (same_call_weight people c c' Hc). reflexivity.
Qed.

Lemma mass_with_trait_same people person t calls calls' :
  Forall2 same_call calls calls' ->
  mass people (with_trait person t calls)
  == mass people (with_trait person t calls').
Proof.
  induction 1 as [|c c' calls calls' Hc _ IH]; [reflexivity|].
  unfold with_trait in *. cbn [filter].
  rewrite <- (same_members_mem _ _ (proj2 (proj2 Hc)) person).
  destruct (Bool.eqb _ t); [|exact IH].
  rewrite !mass_cons, IH, (same_call_weight people c c' Hc). reflexivity.
Qed.

Lemma Permutation_filter {X : Type} (f : X -> bool) (l l' : list X) :
  Permutation l l' -> Permutation (filter f l) (filter f l').
Proof.
  induction 1; simpl.
  - constructor.
  - destruct (f x); [now constructor | assumption].
  - destruct (f x), (f y); try reflexivity. apply perm_swap.
  - etransitivity; eassumption.
Qed.

Lemma row_eq_of_entries (d d' : Distribution rational) :
  (forall g, gene rational d g == gene rational d' g) ->
  (forall t, trait_of rational d t == trait_of rational d' t) ->
  row_eq d d'.
Proof.
  intros Hg Ht. unfold row_eq.
  split; [apply (Hg C2)|]. split; [apply (Hg C1)|]. split; [apply (Hg C0)|].
  split; [apply (Ht true) | apply (Ht false)].
Qed.

Lemma person_after_any_order people person calls mid calls' :
  Permutation calls mid -> Forall2 same_call mid calls' ->
  row_eq (person_after rational people person calls
                       (zero_distribution rational))
         (person_after rational people person calls'
                       (zero_distribution rational)).
Proof.
  intros Hp Hs. apply row_eq_of_entries.
  - intros g. rewrite !gene_after_zero.
    rewrite <- (mass_with_count_same people person g mid calls' Hs).
    apply mass_Permutation. now apply Permutation_filter.
  - intros t. rewrite !trait_after_zero.
    rewrite <- (mass_with_trait_same people person t mid calls' Hs).
    apply mass_Permutation. now apply Permutation_filter.
Qed.

(** ** [normalize] twice *)

Lemma normalize_Some_nonzero (table table' : dict (Distribution rational)) :
  normalize rational table = Some table' ->
  forall person d,
    In (person, d) table ->
    ~ gene_total rational d == 0 /\ ~ trait_total rational d == 0.
Proof.
  intros H person d Hin. split; intros Hz.
  - assert (Hn : normalize rational table = None).
    { apply normalize_None_iff. exists person, d. auto. }
    congruence.
  - assert (Hn : normalize rational table = None).
    { apply normalize_None_iff. exists person, d. auto. }
    congruence.
Qed.

Lemma normalize_Some_scaled (table table' : dict (Distribution rational)) :
  normalize rational table = Some table' ->
  table' = map (fun entry => (fst entry, scaled (snd entry))) table.
Proof.
  intros H. pose proof (normalize_Some_nonzero table table' H) as Hnz.
  rewrite (normalize_Some table Hnz) in H. now injection H as <-.
Qed.

Lemma gene_total_scaled (d : Distribution rational) :
  ~ gene_total rational d == 0 -> gene_total rational (scaled d) == 1.
Proof.
  intros H. pose proof (scaled_gene_sum d H) as E.
  unfold gene_total. cbn in *. rewrite Qplus_0_l. exact E.
Qed.

Lemma trait_total_scaled (d : Distribution rational) :
  ~ trait_total rational d == 0 -> trait_total rational (scaled d) == 1.
Proof.
  intros H. pose proof (scaled_trait_sum d H) as E.
  unfold trait_total. cbn in *. rewrite Qplus_0_l. exact E.
Qed.

Lemma Qdiv_one (x : Q) : x == x / 1.
Proof. field. Qed.

Lemma scaled_of_unit (d : Distribution rational) :
  gene_total rational d == 1 -> trait_total rational d == 1 ->
  row_eq d (scaled d).
Proof.
  intros Hg Ht. unfold row_eq, scaled. cbn [gene2 gene1 gene0 trait_true
                                             trait_false].
  rewrite Hg, Ht. repeat split; apply Qdiv_one.
Qed.

End Entries.

(** ** The number of evaluations *)

Lemma length_flat_map_constant {X Y : Type} (f : X -> list Y) (n : nat)
    (l : list X) :
  (forall x, In x l -> List.length (f x) = n) ->
  List.length (flat_map f l) = List.length l * n.
Proof.
  induction l as [|x l IH]; intros H; simpl; [reflexivity|].
  rewrite length_app, (H x (or_introl eq_refl)), IH; [lia|].
  intros y Hy. apply H. now right.
Qed.

Lemma length_gene_assignments (names ht : pyset) :
  NoDup names ->
  List.length (gene_assignments names ht) = 3 ^ List.length names.
Proof.
  intros Hn.
  rewrite <- (length_map (counts_of names) (gene_assignments names ht)).
  rewrite (Permutation_length (gene_assignments_counts names ht Hn)).
  apply length_all_counts.
Qed.

Lemma filter_map_swap {X Y : Type} (f : Y -> bool) (g : X -> Y)
    (l : list X) :
  filter f (map g l) = map g (filter (fun x => f (g x)) l).
Proof.
  induction l as [|x l IH]; simpl; [reflexivity|].
  destruct (f (g x)); simpl; now rewrite IH.
Qed.

Lemma filter_none {X : Type} (f : X -> bool) (l : list X) :
  (forall x, In x l -> f x = false) -> filter f l = [].
Proof.
  induction l as [|x l IH]; intros H; simpl; [reflexivity|].
  rewrite (H x (or_introl eq_refl)). apply IH.
  intros y Hy. apply H. now right.
Qed.

Lemma fails_evidence_cons people x xs ht :
  fails_evidence people (x :: xs) ht
  = contradicts people ht x || fails_evidence people xs ht.
Proof. reflexivity. Qed.

Lemma fails_evidence_skip people x xs t :
  ~ In x xs ->
  fails_evidence people xs (x :: t) = fails_evidence people xs t.
Proof.
  intros Hx. unfold fails_evidence.
  induction xs as [|y xs IH]; cbn [existsb]; [reflexivity|].
  rewrite IH by (simpl in Hx; tauto).
  rewrite (mem_cons_other y x t); [reflexivity|].
  intros ->. apply Hx. now left.
Qed.

Lemma surviving_sublists people (xs : list string) :
  NoDup xs ->
  List.length
    (filter (fun t => negb (fails_evidence people xs t)) (sublists xs))
  = 2 ^ List.length (filter (free people) xs).
Proof.
  intros Hn. induction Hn as [|x xs Hx Hn IH]; [reflexivity|].
  cbn [sublists]. rewrite filter_app, length_app, filter_map_swap, length_map.
  assert (Hwith :
            filter (fun t => negb (fails_evidence people (x :: xs) (x :: t)))
                   (sublists xs)
            = filter (fun t => negb (contradicts people [x] x)
                               && negb (fails_evidence people xs t))
                     (sublists xs)).
  { apply filter_ext_in. intros t Ht.
    rewrite fails_evidence_cons, negb_orb, fails_evidence_skip by assumption.
    f_equal. unfold contradicts.
    now rewrite !mem_cons_same. }
  assert (Hwithout :
            @filter (list string)
                    (fun t : pyset =>
                       negb (fails_evidence people (x :: xs) t))
                    (sublists xs)
            = filter (fun t => negb (contradicts people [] x)
                               && negb (fails_evidence people xs t))
                     (sublists xs)).
  { apply filter_ext_in. intros t Ht.
    rewrite fails_evidence_cons, negb_orb. f_equal.
    unfold contradicts.
    assert (Hm : mem x t = false).
    { apply mem_not_In. intros Hin. apply Hx.
      eapply sublists_incl; eassumption. }
    now rewrite Hm. }
  unfold pyset in *. rewrite Hwith, Hwithout. cbn [filter].
  assert (Hf : free people x
               = match lookup people x with
                 | Some info =>
                     match trait info with
                     | Some _ => false
                     | None => true
                     end
                 | None => true
                 end) by reflexivity.
  rewrite Hf. clear Hf. unfold contradicts. cbn [mem existsb].
  rewrite String.eqb_refl. cbn [orb].
  destruct (lookup people x) as [info|].
  - destruct (trait info) as [[|]|]; cbn [negb Bool.eqb andb].
    + rewrite (filter_none (fun _ : list string => false)) by reflexivity.
      cbn [List.length]. rewrite IH. lia.
    + rewrite (filter_none (fun _ : list string => false)) by reflexivity.
      cbn [List.length]. rewrite IH. lia.
    + cbn [List.length Nat.pow]. rewrite IH. lia.
  - cbn [negb andb List.length Nat.pow]. rewrite IH. lia.
Qed.

Lemma length_surviving people (names : pyset) :
  NoDup names ->
  List.length (surviving people names (powerset names))
  = 2 ^ List.length (filter (free people) names).
Proof.
  intros Hn. unfold surviving.
  rewrite (Permutation_length
             (Permutation_filter _ _ _ (powerset_sublists names Hn))).
  now apply surviving_sublists.
Qed.

Lemma length_scenarios people (names : pyset) :
  NoDup names ->
  List.length (scenarios people names (powerset names))
  = 2 ^ List.length (filter (free people) names) * 3 ^ List.length names.
Proof.
  intros Hn. unfold scenarios.
  rewrite (length_flat_map_constant _ (3 ^ List.length names)).
  - now rewrite length_surviving.
  - intros ht _. now apply length_gene_assignments.
Qed.

Lemma lookup_own {V : Type} (d : dict V) (k : string) (v : V) :
  NoDup (keys d) -> In (k, v) d -> lookup d k = Some v.
Proof.
  induction d as [|[k' v'] d IH]; simpl; intros Hn Hin; [contradiction|].
  inversion Hn as [|? ? Hk Hn']; subst.
  destruct Hin as [Heq|Hin].
  - injection Heq as -> ->. now rewrite String.eqb_refl.
  - destruct (String.eqb k k') eqn:E.
    + apply String.eqb_eq in E. subst k'. exfalso. apply Hk.
      unfold keys. apply in_map_iff. exists (k, v). auto.
    + now apply IH.
Qed.

Lemma free_count (people : dict Person) :
  NoDup (keys people) ->
  List.length (filter (free people) (keys people)) = unobserved people.
Proof.
  intros Hn. unfold unobserved.
  change (keys people) with (map (@fst string Person) people).
  rewrite filter_map_swap, length_map. f_equal.
  apply filter_ext_in. intros [k info] Hin. cbn [fst snd]. unfold free.
  now rewrite (lookup_own people k info Hn Hin).
Qed.

(** ** The scenarios as functions *)

Section Weights.

Local Open Scope Q_scope.

Lemma joint_step_factor one two ht (acc : Q) entry :
  joint_step rational one two ht acc entry
  == acc * factor (gene_count one two) (fun y => mem y ht) entry.
Proof.
  destruct entry as [person info].
  unfold joint_step, factor, gene_part. cbn [fst snd].
  rewrite !parent_count_gene_count.
  destruct (mother info) as [m|].
  - destruct (gene_count one two person);
      cbn -[Qeq Qmult Qplus Qminus passing_prob PROBS_trait]; ring.
  - cbn -[Qeq Qmult Qplus Qminus PROBS_gene PROBS_trait]. ring.
Qed.

Lemma joint_fold_weight one two ht people :
  forall acc : Q,
    fold_left (joint_step rational one two ht) people acc
    == acc * weight people (gene_count one two) (fun y => mem y ht).
Proof.
  induction people as [|entry people IH]; intros acc.
  - unfold weight. cbn. ring.
  - cbn [fold_left]. rewrite IH, joint_step_factor.
    unfold weight, product. cbn [map fold_right]. ring.
Qed.

Lemma joint_probability_weight people one two ht :
  joint_probability rational people one two ht
  == weight people (gene_count one two) (fun y => mem y ht).
Proof.
  unfold joint_probability. rewrite joint_fold_weight.
  apply Qmult_1_l.
Qed.

(** The factor of a person reads the functions at the person and at the
    parents only. *)
Lemma factor_ext (g g' : string -> copies) (t t' : string -> bool) entry :
  g (fst entry) = g' (fst entry) ->
  (forall p, parent_of p (snd entry) -> g p = g' p) ->
  t (fst entry) = t' (fst entry) ->
  factor g t entry = factor g' t' entry.
Proof.
  intros Hself Hpar Ht. unfold factor, gene_part. rewrite Hself, Ht.
  destruct (mother (snd entry)) as [m|] eqn:Em; [|reflexivity].
  rewrite (Hpar m) by (now left).
  destruct (father (snd entry)) as [f|] eqn:Ef; [|reflexivity].
  rewrite (Hpar f) by (now right). reflexivity.
Qed.

Lemma weight_ext (people : dict Person) (g g' : string -> copies)
    (t t' : string -> bool) :
  (forall entry, In entry people ->
     g (fst entry) = g' (fst entry)
     /\ (forall p, parent_of p (snd entry) -> g p = g' p)
     /\ t (fst entry) = t' (fst entry)) ->
  weight people g t = weight people g' t'.
Proof.
  intros H. unfold weight. f_equal. apply map_ext_in.
  intros entry Hin. destruct (H entry Hin) as [H1 [H2 H3]].
  now apply factor_ext.
Qed.

(** ** Sums *)

Lemma total_cons (x : Q) (l : list Q) : total (x :: l) = x + total l.
Proof. reflexivity. Qed.

Lemma total_app (l l' : list Q) : total (l ++ l') == total l + total l'.
Proof.
  induction l as [|x l IH]; cbn [app].
  - unfold total at 2. cbn [fold_right]. ring.
  - rewrite !total_cons, IH. ring.
Qed.

Lemma total_Permutation (l l' : list Q) :
  Permutation l l' -> total l == total l'.
Proof.
  induction 1.
  - reflexivity.
  - rewrite !total_cons. now rewrite IHPermutation.
  - rewrite !total_cons. ring.
  - etransitivity; eassumption.
Qed.

Lemma total_map_ext {X : Type} (F F' : X -> Q) (l : list X) :
  (forall x, In x l -> F x == F' x) ->
  total (map F l) == total (map F' l).
Proof.
  induction l as [|x l IH]; intros H; cbn [map]; [reflexivity|].
  rewrite !total_cons.
  rewrite (H x (or_introl eq_refl)), IH; [reflexivity|].
  intros y Hy. apply H. now right.
Qed.

Lemma total_map_plus {X : Type} (F F' : X -> Q) (l : list X) :
  total (map (fun x => F x + F' x) l)
  == total (map F l) + total (map F' l).
Proof.
  induction l as [|x l IH]; cbn [map].
  - unfold total. cbn [fold_right]. ring.
  - rewrite !total_cons, IH. ring.
Qed.

Lemma total_map_scale {X : Type} (k : Q) (F : X -> Q) (l : list X) :
  total (map (fun x => k * F x) l) == k * total (map F l).
Proof.
  induction l as [|x l IH]; cbn [map].
  - unfold total. cbn [fold_right]. ring.
  - rewrite !total_cons, IH. ring.
Qed.

Lemma total_flat_map {X Y : Type} (F : Y -> Q) (f : X -> list Y)
    (l : list X) :
  total (map F (flat_map f l))
  == total (map (fun x => total (map F (f x))) l).
Proof.
  induction l as [|x l IH]; cbn [flat_map map]; [reflexivity|].
  rewrite total_cons, map_app, total_app, IH. reflexivity.
Qed.

End Weights.

(** ** Lists of values as functions *)

Lemma assign_map {V : Type} (default : V) (f : string -> V)
    (names : list string) (y : string) :
  In y names -> assign default names (map f names) y = f y.
Proof.
  induction names as [|x xs IH]; intros Hin; [contradiction|].
  cbn [map assign]. destruct (String.eqb y x) eqn:E.
  - apply String.eqb_eq in E. now subst.
  - apply IH. destruct Hin as [->|Hin]; [|assumption].
    now rewrite String.eqb_refl in E.
Qed.

Lemma assign_out {V : Type} (default : V) (names : list string)
    (values : list V) (y : string) :
  ~ In y names -> assign default names values y = default.
Proof.
  revert values. induction names as [|x xs IH]; intros values Hout.
  - reflexivity.
  - destruct values as [|v vs]; [reflexivity|]. cbn [assign].
    destruct (String.eqb y x) eqn:E.
    + apply String.eqb_eq in E. subst. exfalso. apply Hout. now left.
    + apply IH. intros H. apply Hout. now right.
Qed.

Lemma gene_count_assign (names ht : pyset) (c : call) :
  NoDup names -> In c (gene_assignments names ht) ->
  forall y,
    gene_count (fst (fst c)) (snd (fst c)) y
    = assign C0 names (counts_of names c) y.
Proof.
  intros Hn Hc y.
  destruct (gene_assignments_In names ht c Hn Hc) as [_ [H1 H2]].
  destruct (in_dec string_dec y names) as [Hin|Hout].
  - unfold counts_of. now rewrite assign_map.
  - rewrite assign_out by assumption.
    unfold gene_count.
    assert (M2 : mem y (snd (fst c)) = false).
    { apply mem_not_In. intros H. apply Hout.
      apply (difference_incl names (fst (fst c))).
      eapply sublists_incl; eassumption. }
    assert (M1 : mem y (fst (fst c)) = false).
    { apply mem_not_In. intros H. apply Hout.
      eapply sublists_incl; eassumption. }
    now rewrite M1, M2.
Qed.

Lemma traits_of_sublists (names : pyset) :
  NoDup names ->
  map (traits_of names) (sublists names) = all_traits (List.length names).
Proof.
  induction 1 as [|x xs Hx Hn IH]; [reflexivity|].
  cbn [sublists List.length all_traits]. rewrite map_app, <- IH.
  rewrite !map_map. f_equal.
  - apply map_ext_in. intros t Ht. unfold traits_of. cbn [map].
    rewrite mem_cons_same. f_equal. apply map_ext_in. intros y Hy.
    apply mem_cons_other. intros ->. tauto.
  - apply map_ext_in. intros t Ht. unfold traits_of. cbn [map].
    f_equal. apply mem_not_In. intros Hin. apply Hx.
    eapply sublists_incl; eassumption.
Qed.

Lemma mem_assign (names ht : pyset) :
  incl ht names ->
  forall y, mem y ht = assign false names (traits_of names ht) y.
Proof.
  intros Hi y. destruct (in_dec string_dec y names) as [Hin|Hout].
  - unfold traits_of. now rewrite assign_map.
  - rewrite assign_out by assumption. apply mem_not_In.
    intros H. apply Hout, Hi, H.
Qed.

(** ** The scenarios as lists of values *)

Section AllScenarios.

Local Open Scope Q_scope.

Lemma weight_pointwise (people : dict Person) (g g' : string -> copies)
    (t t' : string -> bool) :
  (forall y, g y = g' y) -> (forall y, t y = t' y) ->
  weight people g t = weight people g' t'.
Proof.
  intros Hg Ht. apply weight_ext. intros entry _. auto.
Qed.

Lemma mass_gene_assignments people (names ht : pyset) :
  NoDup names ->
  mass people (gene_assignments names ht)
  == total (map (fun v => weight people (assign C0 names v)
                                 (fun y => mem y ht))
                (all_counts (List.length names))).
Proof.
  intros Hn. unfold mass.
  rewrite (total_map_ext _
             (fun c => weight people (assign C0 names (counts_of names c))
                              (fun y => mem y ht))).
  - rewrite <- (map_map (counts_of names)
                  (fun v => weight people (assign C0 names v)
                                   (fun y => mem y ht))).
    apply total_Permutation, Permutation_map.
    now apply gene_assignments_counts.
  - intros c Hc. rewrite joint_probability_weight.
    destruct (gene_assignments_In names ht c Hn Hc) as [Hht _].
    rewrite Hht.
    rewrite (weight_pointwise people _
               (assign C0 names (counts_of names c)) _ (fun y => mem y ht));
      [reflexivity | | reflexivity].
    now apply (gene_count_assign names ht).
Qed.

Lemma mass_all_scenarios people (names : pyset) :
  NoDup names ->
  mass people (all_scenarios names)
  == total
       (map (fun tv =>
               total
                 (map (fun v => weight people (assign C0 names v)
                                       (assign false names tv))
                      (all_counts (List.length names))))
            (all_traits (List.length names))).
Proof.
  intros Hn. unfold mass, all_scenarios. rewrite total_flat_map.
  rewrite (total_map_ext _
             (fun ht => total
                          (map (fun v => weight people (assign C0 names v)
                                                (fun y => mem y ht))
                               (all_counts (List.length names))))).
  2:{ intros ht _. now apply (mass_gene_assignments people names ht). }
  rewrite (total_Permutation _ _
             (Permutation_map _ (powerset_sublists names Hn))).
  rewrite <- (traits_of_sublists names Hn), map_map.
  apply total_map_ext. intros ht Hht.
  apply total_map_ext. intros v _.
  rewrite (weight_pointwise people (assign C0 names v) (assign C0 names v)
             (fun y => mem y ht) (assign false names (traits_of names ht)));
    [reflexivity | reflexivity |].
  apply mem_assign. eapply sublists_incl; eassumption.
Qed.

End AllScenarios.

(** ** The total probability *)

Section TotalProbability.

Local Open Scope Q_scope.

Lemma own_factor_sum (info : Person) (g : string -> copies) :
  own_factor info g C0 true + own_factor info g C1 true
  + own_factor info g C2 true + own_factor info g C0 false
  + own_factor info g C1 false + own_factor info g C2 false == 1.
Proof.
  unfold own_factor. destruct (mother info) as [m|].
  - destruct (g m), (match father info with Some f => g f | None => C0 end);
      reflexivity.
  - reflexivity.
Qed.

Lemma weight_first x info rest xs (c : copies) v (b : bool) tv :
  ~ parent_of x info ->
  (forall entry, In entry rest ->
     fst entry <> x /\ ~ parent_of x (snd entry)) ->
  weight ((x, info) :: rest) (assign C0 (x :: xs) (c :: v))
         (assign false (x :: xs) (b :: tv))
  = own_factor info (assign C0 xs v) c b
    * weight rest (assign C0 xs v) (assign false xs tv).
Proof.
  intros Hself Hrest. unfold weight at 1. cbn [map product fold_right].
  fold (product (map (factor (assign C0 (x :: xs) (c :: v))
                             (assign false (x :: xs) (b :: tv))) rest)).
  fold (weight rest (assign C0 (x :: xs) (c :: v))
               (assign false (x :: xs) (b :: tv))).
  f_equal.
  - unfold factor, gene_part, own_factor. cbn [fst snd assign].
    rewrite String.eqb_refl.
    destruct (mother info) as [m|] eqn:Em; [|reflexivity].
    assert (Hm : String.eqb m x = false).
    { apply String.eqb_neq. intros ->. apply Hself. now left. }
    rewrite Hm.
    destruct (father info) as [f|] eqn:Ef; [|reflexivity].
    assert (Hf : String.eqb f x = false).
    { apply String.eqb_neq. intros ->. apply Hself. now right. }
    now rewrite Hf.
  - apply weight_ext. intros entry Hin.
    destruct (Hrest entry Hin) as [Hne Hpar].
    assert (E : String.eqb (fst entry) x = false)
      by now apply String.eqb_neq.
    cbn [assign]. rewrite E. split; [reflexivity|]. split; [|reflexivity].
    intros p Hp.
    assert (Ep : String.eqb p x = false).
    { apply String.eqb_neq. intros ->. now apply Hpar. }
    now rewrite Ep.
Qed.

Lemma children_first_rest x info rest :
  NoDup (keys ((x, info) :: rest)) ->
  children_first ((x, info) :: rest) ->
  ~ parent_of x info
  /\ (forall entry, In entry rest ->
        fst entry <> x /\ ~ parent_of x (snd entry))
  /\ NoDup (keys rest) /\ children_first rest.
Proof.
  intros Hn [Hself [Hrest Hc]]. cbn [keys map fst] in Hn.
  inversion Hn as [|? ? Hx Hn']; subst.
  split; [assumption|]. split; [|split; assumption].
  intros entry Hin. split; [|now apply Hrest].
  intros Heq. apply Hx. unfold keys. apply in_map_iff.
  exists entry. auto.
Qed.

Lemma six_sums {X : Type} (F : copies -> bool -> X -> Q) (w : X -> Q)
    (l : list X) :
  (forall v, In v l ->
     F C0 true v + F C1 true v + F C2 true v
     + F C0 false v + F C1 false v + F C2 false v == w v) ->
  total (map (F C0 true) l) + total (map (F C1 true) l)
  + total (map (F C2 true) l) + total (map (F C0 false) l)
  + total (map (F C1 false) l) + total (map (F C2 false) l)
  == total (map w l).
Proof.
  intros H. rewrite <- !total_map_plus. now apply total_map_ext.
Qed.

Lemma total_weight_cons x info rest :
  NoDup (keys ((x, info) :: rest)) ->
  children_first ((x, info) :: rest) ->
  total_weight ((x, info) :: rest) == total_weight rest.
Proof.
  intros Hn Hc.
  destruct (children_first_rest x info rest Hn Hc) as [Hself [Hrest _]].
  unfold total_weight.
  cbn [keys map fst List.length all_traits all_counts].
  fold (keys rest).
  set (B := all_traits (List.length rest)).
  set (C := all_counts (List.length rest)).
  rewrite map_app, total_app, !map_map.
  rewrite <- total_map_plus. apply total_map_ext. intros tv _.
  rewrite !map_app, !total_app, !map_map.
  rewrite <- (six_sums
                (fun c b v =>
                   weight ((x, info) :: rest)
                          (assign C0 (x :: keys rest) (c :: v))
                          (assign false (x :: keys rest) (b :: tv)))
                (fun v => weight rest (assign C0 (keys rest) v)
                                 (assign false (keys rest) tv))
                C).
  - ring.
  - intros v _. rewrite !weight_first by assumption.
    set (w := weight rest (assign C0 (keys rest) v)
                     (assign false (keys rest) tv)).
    pose proof (own_factor_sum info (assign C0 (keys rest) v)) as Hs.
    set (a1 := own_factor info (assign C0 (keys rest) v) C0 true) in *.
    set (a2 := own_factor info (assign C0 (keys rest) v) C1 true) in *.
    set (a3 := own_factor info (assign C0 (keys rest) v) C2 true) in *.
    set (a4 := own_factor info (assign C0 (keys rest) v) C0 false) in *.
    set (a5 := own_factor info (assign C0 (keys rest) v) C1 false) in *.
    set (a6 := own_factor info (assign C0 (keys rest) v) C2 false) in *.
    transitivity ((a1 + a2 + a3 + a4 + a5 + a6) * w); [ring|].
    rewrite Hs. ring.
Qed.

Lemma total_weight_one (people : dict Person) :
  NoDup (keys people) -> children_first people ->
  total_weight people == 1.
Proof.
  induction people as [|[x info] rest IH]; intros Hn Hc.
  - reflexivity.
  - rewrite (total_weight_cons x info rest Hn Hc).
    destruct (children_first_rest x info rest Hn Hc) as [_ [_ [Hn' Hc']]].
    now apply IH.
Qed.

End TotalProbability.

(** ** The order of the names *)

Section OrderOfNames.

Local Open Scope Q_scope.

Lemma product_Permutation (l l' : list Q) :
  Permutation l l' -> product l == product l'.
Proof.
  induction 1; unfold product in *; cbn [fold_right].
  - reflexivity.
  - now rewrite IHPermutation.
  - ring.
  - etransitivity; eassumption.
Qed.

Lemma weight_Permutation people people' g t :
  Permutation people people' -> weight people g t == weight people' g t.
Proof.
  intros H. unfold weight. apply product_Permutation.
  now apply Permutation_map.
Qed.

Lemma sum_counts_cons x xs F :
  sum_counts (x :: xs) F
  == sum_counts xs (fun g => F (upd g x C0))
     + sum_counts xs (fun g => F (upd g x C1))
     + sum_counts xs (fun g => F (upd g x C2)).
Proof.
  unfold sum_counts. cbn [List.length all_counts].
  rewrite !map_app, !total_app, !map_map, Qplus_assoc.
  repeat apply Qplus_comp; reflexivity.
Qed.

Lemma sum_traits_cons x xs F :
  sum_traits (x :: xs) F
  == sum_traits xs (fun t => F (upd t x true))
     + sum_traits xs (fun t => F (upd t x false)).
Proof.
  unfold sum_traits. cbn [List.length all_traits].
  rewrite !map_app, !total_app, !map_map.
  apply Qplus_comp; reflexivity.
Qed.

Lemma sum_counts_ext names F F' :
  (forall g, F g == F' g) -> sum_counts names F == sum_counts names F'.
Proof.
  intros H. unfold sum_counts. apply total_map_ext. intros v _. apply H.
Qed.

Lemma sum_traits_ext names F F' :
  (forall t, F t == F' t) -> sum_traits names F == sum_traits names F'.
Proof.
  intros H. unfold sum_traits. apply total_map_ext. intros v _. apply H.
Qed.

Lemma upd_swap {V : Type} (g : string -> V) x y (a b : V) :
  x <> y -> forall z, upd (upd g x a) y b z = upd (upd g y b) x a z.
Proof.
  intros Hne z. unfold upd.
  destruct (String.eqb z y) eqn:Ey, (String.eqb z x) eqn:Ex; try reflexivity.
  apply String.eqb_eq in Ey, Ex. congruence.
Qed.

Lemma upd_pointwise {V : Type} (g g' : string -> V) x (a : V) :
  (forall z, g z = g' z) -> forall z, upd g x a z = upd g' x a z.
Proof. intros H z. unfold upd. now rewrite H. Qed.

Lemma sum_counts_Permutation names names' :
  Permutation names names' ->
  forall F,
    (forall g g', (forall y, g y = g' y) -> F g == F g') ->
    sum_counts names F == sum_counts names' F.
Proof.
  induction 1 as [|x l l' Hp IH|x y l|l l' l'' Hp IH Hp' IH'];
    intros F HF.
  - reflexivity.
  - rewrite !sum_counts_cons.
    rewrite (IH (fun g => F (upd g x C0))),
            (IH (fun g => F (upd g x C1))),
            (IH (fun g => F (upd g x C2))); [reflexivity| | |];
      intros g g' Hg; apply HF; now apply upd_pointwise.
  - destruct (string_dec x y) as [->|Hne]; [reflexivity|].
    rewrite !sum_counts_cons.
    assert (E : forall a b,
               sum_counts l (fun g => F (upd (upd g x a) y b))
               == sum_counts l (fun g => F (upd (upd g y b) x a))).
    { intros a b. apply sum_counts_ext. intros g. apply HF.
      now apply upd_swap. }
    rewrite !E. ring.
  - rewrite (IH F HF). now apply IH'.
Qed.

Lemma sum_traits_Permutation names names' :
  Permutation names names' ->
  forall F,
    (forall t t', (forall y, t y = t' y) -> F t == F t') ->
    sum_traits names F == sum_traits names' F.
Proof.
  induction 1 as [|x l l' Hp IH|x y l|l l' l'' Hp IH Hp' IH'];
    intros F HF.
  - reflexivity.
  - rewrite !sum_traits_cons.
    rewrite (IH (fun g => F (upd g x true))),
            (IH (fun g => F (upd g x false))); [reflexivity| |];
      intros g g' Hg; apply HF; now apply upd_pointwise.
  - destruct (string_dec x y) as [->|Hne]; [reflexivity|].
    rewrite !sum_traits_cons.
    assert (E : forall a b,
               sum_traits l (fun g => F (upd (upd g x a) y b))
               == sum_traits l (fun g => F (upd (upd g y b) x a))).
    { intros a b. apply sum_traits_ext. intros g. apply HF.
      now apply upd_swap. }
    rewrite !E. ring.
  - rewrite (IH F HF). now apply IH'.
Qed.

Lemma mass_as_sums people names :
  NoDup names ->
  mass people (all_scenarios names)
  == sum_traits names
       (fun t => sum_counts names (fun g => weight people g t)).
Proof. intros Hn. now rewrite mass_all_scenarios. Qed.

Lemma total_weight_as_sums people :
  total_weight people
  = sum_traits (keys people)
      (fun t => sum_counts (keys people) (fun g => weight people g t)).
Proof.
  unfold total_weight, sum_traits, sum_counts, keys.
  now rewrite !length_map.
Qed.

Lemma sums_any_order people people' names :
  Permutation people people' ->
  Permutation names (keys people') ->
  sum_traits names (fun t => sum_counts names (fun g => weight people g t))
  == total_weight people'.
Proof.
  intros Hp Hn. rewrite total_weight_as_sums.
  rewrite (sum_traits_Permutation names (keys people') Hn).
  - apply sum_traits_ext. intros t.
    rewrite (sum_counts_Permutation names (keys people') Hn).
    + apply sum_counts_ext. intros g. now apply weight_Permutation.
    + intros g g' Hg.
      now rewrite (weight_pointwise people g g' t t Hg).
  - intros t t' Ht. apply sum_counts_ext. intros g.
    now rewrite (weight_pointwise people g g t t').
Qed.

End OrderOfNames.

(** ** Children before parents *)

Section Generations.

Context (rank : string -> nat).

Lemma insert_by_rank_Permutation e l :
  Permutation (e :: l) (insert_by_rank rank e l).
Proof.
  induction l as [|e' l IH]; cbn [insert_by_rank]; [reflexivity|].
  destruct (rank (fst e') <=? rank (fst e))%nat; [reflexivity|].
  rewrite perm_swap. now constructor.
Qed.

Lemma sort_by_rank_Permutation l : Permutation l (sort_by_rank rank l).
Proof.
  induction l as [|e l IH]; cbn [sort_by_rank]; [reflexivity|].
  rewrite <- insert_by_rank_Permutation. now constructor.
Qed.

Lemma insert_by_rank_sorted e l :
  from_high rank l -> from_high rank (insert_by_rank rank e l).
Proof.
  unfold from_high. induction 1 as [|e' l Hl IH Hall]; cbn [insert_by_rank].
  - constructor; constructor.
  - destruct (rank (fst e') <=? rank (fst e))%nat eqn:E.
    + apply Nat.leb_le in E. constructor.
      * now constructor.
      * constructor; [assumption|].
        eapply Forall_impl; [|exact Hall]. cbn. intros a Ha. lia.
    + apply Nat.leb_gt in E. constructor; [assumption|].
      apply Forall_forall. intros a Ha.
      apply (Permutation_in _ (Permutation_sym (insert_by_rank_Permutation e l)))
        in Ha.
      destruct Ha as [<-|Ha]; [lia|].
      rewrite Forall_forall in Hall. now apply Hall.
Qed.

Lemma sort_by_rank_sorted l : from_high rank (sort_by_rank rank l).
Proof.
  induction l as [|e l IH]; cbn [sort_by_rank].
  - constructor.
  - now apply insert_by_rank_sorted.
Qed.

Lemma from_high_children_first l :
  from_high rank l -> generations l rank -> children_first l.
Proof.
  unfold from_high. induction 1 as [|[x info] l Hl IH Hall]; intros Hg.
  - exact I.
  - cbn [children_first]. split; [|split].
    + intros Hp.
      pose proof (Hg (x, info) x (or_introl eq_refl) Hp
                     (or_introl eq_refl)) as H.
      cbn in H. lia.
    + intros entry Hin Hp.
      pose proof (Hg entry x (or_intror Hin) Hp (or_introl eq_refl)) as H.
      rewrite Forall_forall in Hall. specialize (Hall entry Hin).
      cbn in Hall. lia.
    + apply IH. intros entry p Hin Hp Hk.
      apply Hg; [now right | assumption | now right].
Qed.

Lemma generations_Permutation l l' :
  Permutation l l' -> generations l rank -> generations l' rank.
Proof.
  intros Hp Hg entry p Hin Hpar Hk.
  apply Hg; [|assumption|].
  - eapply Permutation_in; [apply Permutation_sym|]; eassumption.
  - unfold keys in *.
    eapply Permutation_in;
      [apply Permutation_map, Permutation_sym|]; eassumption.
Qed.

End Generations.

Lemma acyclic_order (people : dict Person) :
  acyclic people ->
  exists order, Permutation people order /\ children_first order.
Proof.
  intros [rank Hg]. exists (sort_by_rank rank people).
  split; [apply sort_by_rank_Permutation|].
  apply (from_high_children_first rank); [apply sort_by_rank_sorted|].
  eapply generations_Permutation; [apply sort_by_rank_Permutation|].
  exact Hg.
Qed.

(** ** The total probability of a pedigree *)

Section TotalOfPedigree.

Local Open Scope Q_scope.

Lemma mass_all_scenarios_one (people : dict Person) :
  NoDup (keys people) -> acyclic people ->
  mass people (all_scenarios (to_set (keys people))) == 1.
Proof.
  intros Hn Ha. destruct (acyclic_order people Ha) as [order [Hp Hc]].
  unfold to_set. rewrite (nodup_fixed_point string_dec Hn).
  rewrite (mass_as_sums people (keys people) Hn).
  rewrite (sums_any_order people order (keys people) Hp).
  - apply total_weight_one; [|assumption].
    eapply Permutation_NoDup; [|exact Hn].
    unfold keys. now apply Permutation_map.
  - unfold keys. now apply Permutation_map.
Qed.

Lemma lookup_pair {V : Type} (d : dict V) (k : string) (v : V) :
  lookup d k = Some v -> In (k, v) d.
Proof.
  induction d as [|[k' v'] d IH]; simpl; [discriminate|].
  destruct (String.eqb k k') eqn:E.
  - intros H. injection H as ->. apply String.eqb_eq in E. subst. now left.
  - intros H. right. now apply IH.
Qed.

Lemma no_evidence_passes people names ht :
  no_evidence people -> fails_evidence people names ht = false.
Proof.
  intros Hne. unfold fails_evidence.
  induction names as [|x xs IH]; cbn [existsb]; [reflexivity|].
  rewrite IH, orb_false_r.
  destruct (lookup people x) as [info|] eqn:L; [|reflexivity].
  apply lookup_pair in L. pose proof (Hne (x, info) L) as Ht.
  cbn [snd] in Ht. now rewrite Ht.
Qed.

Lemma no_evidence_scenarios people names cands :
  no_evidence people ->
  scenarios people names cands = flat_map (gene_assignments names) cands.
Proof.
  intros Hne. unfold scenarios, surviving. f_equal.
  induction cands as [|ht cands IH]; cbn [filter]; [reflexivity|].
  rewrite (no_evidence_passes people names ht Hne). cbn [negb].
  now rewrite IH.
Qed.

End TotalOfPedigree.

Section MoreLemmas.

Local Open Scope Q_scope.

Lemma Forall2_map_same {X Y : Type} (R : Y -> Y -> Prop) (f g : X -> Y)
    (l : list X) :
  (forall x, In x l -> R (f x) (g x)) -> Forall2 R (map f l) (map g l).
Proof.
  induction l as [|x l IH]; intros H; cbn [map]; constructor.
  - apply H. now left.
  - apply IH. intros y Hy. apply H. now right.
Qed.

Lemma mass_with_count_Permutation people person g calls calls' :
  Permutation calls calls' ->
  mass people (with_count person g calls)
  == mass people (with_count person g calls').
Proof.
  intros H. apply mass_Permutation. unfold with_count.
  now apply Permutation_filter.
Qed.

Lemma mass_with_trait_Permutation people person t calls calls' :
  Permutation calls calls' ->
  mass people (with_trait person t calls)
  == mass people (with_trait person t calls').
Proof.
  intros H. apply mass_Permutation. unfold with_trait.
  now apply Permutation_filter.
Qed.

Lemma person_after_any_order_from people person calls mid calls' d :
  Permutation calls mid -> Forall2 same_call mid calls' ->
  row_eq (person_after rational people person calls d)
         (person_after rational people person calls' d).
Proof.
  intros Hp Hs. apply row_eq_of_entries.
  - intros g. rewrite !gene_after.
    rewrite <- (mass_with_count_same people person g mid calls' Hs).
    rewrite (mass_with_count_Permutation people person g calls mid Hp).
    reflexivity.
  - intros t. rewrite !trait_after.
    rewrite <- (mass_with_trait_same people person t mid calls' Hs).
    rewrite (mass_with_trait_Permutation people person t calls mid Hp).
    reflexivity.
Qed.

Lemma scenario_with_count people (names : pyset) cands person g :
  NoDup names -> In person names ->
  surviving people names cands <> [] ->
  with_count person g (scenarios people names cands) <> [].
Proof.
  intros Hn Hin Hs.
  destruct (surviving people names cands) as [|ht rest] eqn:E;
    [congruence|].
  assert (Hv : In (only person g names)
                  (map (counts_of names) (gene_assignments names ht))).
  { eapply Permutation_in.
    - apply Permutation_sym, gene_assignments_counts, Hn.
    - apply all_counts_length. unfold only. apply length_map. }
  apply in_map_iff in Hv. destruct Hv as [c [Hc Hcin]].
  assert (Hg : gene_count (fst (fst c)) (snd (fst c)) person = g).
  { unfold counts_of, only in Hc.
    pose proof (proj1 (map_ext_in_iff) Hc person Hin) as H.
    cbn beta in H. now rewrite String.eqb_refl in H. }
  assert (Hsc : In c (scenarios people names cands)).
  { unfold scenarios. rewrite E. cbn [flat_map].
    apply in_or_app. now left. }
  intros Hnil.
  assert (Hf : In c (with_count person g (scenarios people names cands))).
  { unfold with_count. apply filter_In. split; [assumption|].
    apply copies_eqb_eq, Hg. }
  rewrite Hnil in Hf. contradiction.
Qed.

Lemma Qdiv_pos (a b : Q) : 0 < a -> 0 < b -> 0 < a / b.
Proof.
  intros Ha Hb. unfold Qdiv. apply Qmult_lt_0_compat; [assumption|].
  now apply Qinv_lt_0_compat.
Qed.

End MoreLemmas.

(** The posterior of a person as a quotient of sums of joint
    probabilities. *)
Lemma posterior_as_quotient :
  forall (people : dict Person) (person : string) (info : Person),
    lookup people person = Some info ->
    exists table d,
      main rational people = Some table
      /\ lookup table person = Some d
      /\ (forall g,
            gene rational d g
            == mass people
                 (with_count person g (evaluated (enumerate rational people)))
               / mass people (evaluated (enumerate rational people)))%Q
      /\ (forall t,
            trait_of rational d t
            == mass people
                 (with_trait person t (evaluated (enumerate rational people)))
               / mass people (evaluated (enumerate rational people)))%Q.
Proof.
  intros people person info Hl.
  rewrite main_rational_Some, enumerate_evaluated, enumerate_table.
  set (calls := scenarios people (to_set (keys people))
                          (powerset (to_set (keys people)))).
  set (d0 := person_after rational people person calls
                          (zero_distribution rational)).
  exists (map (fun entry => (fst entry, scaled (snd entry)))
              (map (fun entry =>
                      (fst entry,
                       person_after rational people (fst entry) calls
                                    (zero_distribution rational)))
                   people)),
         (scaled d0).
  split; [reflexivity|]. split.
  - rewrite (lookup_map (fun _ d => scaled d)).
    rewrite (lookup_map (fun p _ =>
               person_after rational people p calls
                            (zero_distribution rational))).
    now rewrite Hl.
  - destruct (row_totals people person calls) as [Tg Tt]. fold d0 in Tg, Tt.
    split.
    + intros g.
      pose proof (gene_after_zero people person g calls) as E. fold d0 in E.
      destruct g; cbn [gene scaled gene2 gene1 gene0] in *;
        now rewrite Tg, E.
    + intros t.
      pose proof (trait_after_zero people person t calls) as E.
      fold d0 in E.
      destruct t; cbn [trait_of scaled trait_true trait_false] in *;
        now rewrite Tt, E.
Qed.

(** ** Rounding to nearest *)

Section RoundingToNearest.

Local Open Scope Z_scope.

Lemma shr_1_r (mrs : shr_record) :
  0 <= shr_m mrs -> shr_r (shr_1 mrs) = Z.odd (shr_m mrs).
Proof.
  destruct mrs as [m r s]. cbn [shr_m]. intros Hm.
  destruct m as [|p|p]; [reflexivity | | lia].
  destruct p; reflexivity.
Qed.

Lemma iter_shr_1_r (p : positive) :
  forall mrs,
    0 <= shr_m mrs ->
    shr_r (iter_pos shr_1 p mrs) = Z.odd (shr_m mrs / 2 ^ (Z.pos p - 1)).
Proof.
  induction p as [p IH | p IH |]; intros mrs Hm; cbn [iter_pos].
  - rewrite IH.
    + rewrite iter_shr_1_div, shr_1_half by (try apply shr_1_nonneg; assumption).
      rewrite !Z.div_div by lia. do 2 f_equal.
      rewrite <- Z.pow_add_r, <- Z.pow_succ_r by lia. f_equal. lia.
    + apply iter_shr_1_nonneg. now apply shr_1_nonneg.
  - rewrite IH.
    + rewrite iter_shr_1_div by assumption.
      rewrite !Z.div_div by lia. do 2 f_equal.
      rewrite <- Z.pow_add_r by lia. f_equal. lia.
    + now apply iter_shr_1_nonneg.
  - rewrite shr_1_r by assumption. now rewrite Z.div_1_r.
Qed.

Lemma even_quotient (m n : Z) :
  0 <= m -> 0 < n -> 2 * (m mod 2 ^ n) < 2 ^ n ->
  Z.odd (m / 2 ^ (n - 1)) = false.
Proof.
  intros Hm Hn Hr.
  assert (P : 0 < 2 ^ (n - 1)) by (apply Z.pow_pos_nonneg; lia).
  assert (E : 2 ^ n = 2 * 2 ^ (n - 1)) by (apply pow2_pred; lia).
  pose proof (Z.div_mod m (2 ^ n) ltac:(lia)) as D.
  pose proof (Z.mod_pos_bound m (2 ^ n) ltac:(lia)) as B.
  assert (Q : m / 2 ^ (n - 1) = 2 * (m / 2 ^ n)).
  { symmetry. apply Z.div_unique with (r := m mod 2 ^ n); [lia|].
    rewrite E in D at 1. lia. }
  rewrite Q. rewrite Z.odd_mul. reflexivity.
Qed.

(** When less than half a unit is shifted out, the mantissa is not rounded
    up. *)
Lemma round_down (mx ex : Z) :
  0 <= mx ->
  let n := Z.max (fexp64 (Zdigits2 mx + ex) - ex) 0 in
  let r1 := shr_fexp Binary64.prec Binary64.emax mx ex loc_Exact in
  2 * (mx mod 2 ^ n) < 2 ^ n ->
  round_nearest_even (shr_m (fst r1)) (loc_of_shr_record (fst r1))
  = mx / 2 ^ n.
Proof.
  intros Hmx n r1 Hr.
  destruct (shr_fexp_spec mx ex loc_Exact Hmx) as [_ Hm1].
  fold n r1 in Hm1. rewrite <- Hm1.
  assert (Hrb : shr_r (fst r1) = false).
  { unfold r1, shr_fexp, shr. fold (fexp64 (Zdigits2 mx + ex)).
    destruct (fexp64 (Zdigits2 mx + ex) - ex) as [|p|p] eqn:E;
      cbn [fst shr_record_of_loc shr_r]; try reflexivity.
    rewrite iter_shr_1_r by (cbn; assumption). cbn [shr_m].
    apply even_quotient; [assumption | lia |].
    unfold n in Hr. rewrite ?E in Hr. rewrite Z.max_l in Hr by lia.
    exact Hr. }
  destruct (fst r1) as [m r s]. cbn [shr_r] in Hrb. subst r.
  destruct s; reflexivity.
Qed.

(** Rounding: the result is the mantissa shifted to the exponent of the
    format and rounded down or up by one unit, down when less than half a
    unit is shifted out. *)
Lemma binary_round_aux_fine (mx ex : Z) :
  0 <= mx ->
  let n := Z.max (fexp64 (Zdigits2 mx + ex) - ex) 0 in
  exists m e,
    binary_round_aux Binary64.prec Binary64.emax false mx ex loc_Exact
    = pack m e
    /\ 0 <= m /\ -1074 <= e /\ ex + n <= e
    /\ mx / 2 ^ n <= m * 2 ^ (e - (ex + n)) <= mx / 2 ^ n + 1
    /\ (2 * (mx mod 2 ^ n) < 2 ^ n -> m * 2 ^ (e - (ex + n)) = mx / 2 ^ n).
Proof.
  intros Hmx n. rewrite binary_round_aux_pack. cbv zeta.
  destruct (shr_fexp_spec mx ex loc_Exact Hmx) as [He1 Hm1].
  pose proof (round_down mx ex Hmx) as Hdown. cbv zeta in Hdown.
  set (r1 := shr_fexp Binary64.prec Binary64.emax mx ex loc_Exact) in *.
  set (e1 := snd r1) in *. set (m1 := shr_m (fst r1)) in *.
  fold n in He1, Hm1, Hdown.
  assert (Hn : 0 <= n) by (unfold n; lia).
  assert (P1 : 0 < 2 ^ n) by (apply Z.pow_pos_nonneg; lia).
  assert (Hm1pos : 0 <= m1).
  { rewrite Hm1. apply Z.div_pos; lia. }
  set (m2 := round_nearest_even m1 (loc_of_shr_record (fst r1))) in *.
  pose proof (rne_bounds m1 (loc_of_shr_record (fst r1))) as Hm2.
  fold m2 in Hm2.
  assert (Hm2pos : 0 <= m2) by lia.
  destruct (shr_fexp_spec m2 e1 loc_Exact Hm2pos) as [He3 Hm3].
  set (r2 := shr_fexp Binary64.prec Binary64.emax m2 e1 loc_Exact) in *.
  set (e3 := snd r2) in *. set (m3 := shr_m (fst r2)) in *.
  set (n2 := Z.max (fexp64 (Zdigits2 m2 + e1) - e1) 0) in *.
  assert (Hn2 : 0 <= n2) by (unfold n2; lia).
  assert (Hemin : -1074 <= e1).
  { rewrite He1. unfold n. rewrite fexp_eq. lia. }
  (* the second shift loses nothing *)
  assert (Hexact : m3 * 2 ^ n2 = m2).
  { destruct (Z.eq_dec n 0) as [Hn0 | Hnpos].
    - (* nothing was shifted out: the mantissa is unchanged *)
      assert (Hm1mx : m1 = mx) by (rewrite Hm1, Hn0; apply Z.div_1_r).
      assert (Hm2mx : m2 = mx).
      { rewrite Hdown; [now rewrite <- Hm1|].
        rewrite Hn0. change (2 ^ 0) with 1. rewrite Z.mod_1_r. lia. }
      assert (He1ex : e1 = ex) by lia.
      assert (N2 : n2 = 0).
      { unfold n2. rewrite Hm2mx, He1ex. fold n. exact Hn0. }
      rewrite Hm3, N2. change (2 ^ 0) with 1. rewrite Z.div_1_r. lia.
    - assert (Hn1 : n = fexp64 (Zdigits2 mx + ex) - ex) by (unfold n in *; lia).
      assert (He1' : e1 = fexp64 (Zdigits2 mx + ex)) by lia.
      rewrite fexp_eq in He1'.
      destruct (Z_lt_le_dec (Zdigits2 mx + ex - 53) (-1074)) as [Hsub | Hnorm].
      + assert (E1 : e1 = -1074) by lia.
        assert (Hm1lt : m1 < 2 ^ 52).
        { destruct (Z.eq_dec mx 0) as [Hz | Hnz].
          - rewrite Hm1, Hz. rewrite Z.div_0_l by lia. lia.
          - destruct (Zdigits2_bounds mx ltac:(lia)) as [_ Hhi].
            rewrite Hm1. apply Z.div_lt_upper_bound; [lia|].
            eapply Z.lt_le_trans; [exact Hhi|].
            rewrite <- Z.pow_add_r by lia.
            apply Z.pow_le_mono_r; lia. }
        assert (Hd2 : Zdigits2 m2 <= 53).
        { apply Zdigits2_le; [lia|]. split; [assumption|].
          change (2 ^ 53) with (2 * 2 ^ 52). lia. }
        assert (N2 : n2 = 0).
        { unfold n2. rewrite fexp_eq. lia. }
        rewrite Hm3, N2. change (2 ^ 0) with 1. rewrite Z.div_1_r. lia.
      + assert (E1 : e1 = Zdigits2 mx + ex - 53) by lia.
        assert (N1 : n = Zdigits2 mx - 53) by lia.
        assert (Hmxpos : 0 < mx).
        { destruct (Z.eq_dec mx 0) as [Hz | Hnz]; [|lia].
          rewrite Hz in N1. cbn in N1. lia. }
        destruct (Zdigits2_bounds mx Hmxpos) as [Hlo Hhi].
        assert (L1 : 2 ^ 52 <= m1).
        { rewrite Hm1. apply Z.div_le_lower_bound; [lia|].
          rewrite <- Z.pow_add_r by lia.
          replace (n + 52) with (Zdigits2 mx - 1) by lia. exact Hlo. }
        assert (U1 : m1 < 2 ^ 53).
        { rewrite Hm1. apply Z.div_lt_upper_bound; [lia|].
          rewrite <- Z.pow_add_r by lia.
          replace (n + 53) with (Zdigits2 mx) by lia. exact Hhi. }
        destruct (Z_lt_le_dec m2 (2 ^ 53)) as [Hlt | Hge].
        * assert (D2 : Zdigits2 m2 = 53).
          { apply Zdigits2_unique; [lia|].
            change (53 - 1) with 52. lia. }
          assert (N2 : n2 = 0).
          { unfold n2. rewrite D2, fexp_eq. lia. }
          rewrite Hm3, N2. change (2 ^ 0) with 1. rewrite Z.div_1_r. lia.
        * assert (M2 : m2 = 2 ^ 53) by lia.
          assert (D2 : Zdigits2 m2 = 54) by (rewrite M2; reflexivity).
          assert (N2 : n2 = 1).
          { unfold n2. rewrite D2, fexp_eq. lia. }
          rewrite Hm3, N2, M2. reflexivity. }
  assert (Hm3pos : 0 <= m3).
  { rewrite Hm3. apply Z.div_pos; [assumption | apply Z.pow_pos_nonneg; lia]. }
  exists m3, e3. split; [reflexivity|]. split; [assumption|].
  split; [lia|]. split; [lia|].
  replace (e3 - (ex + n)) with n2 by lia. rewrite Hexact, <- Hm1.
  split; [exact Hm2|].
  intros Hr. rewrite Hm1. now apply Hdown.
Qed.

End RoundingToNearest.

Section Caps.

Local Open Scope Z_scope.

Lemma value_of_shifted (m e e1 : Z) :
  e1 <= e -> (value (m * 2 ^ (e - e1)) e1 == value m e)%Q.
Proof.
  intros H. rewrite value_shift by lia.
  now replace (e1 + (e - e1)) with e by lia.
Qed.

Lemma value_pow2 (k e1 : Z) :
  e1 <= k -> (value (2 ^ (k - e1)) e1 == 2 ^ k)%Q.
Proof.
  intros H. rewrite <- (Z.mul_1_l (2 ^ (k - e1))).
  rewrite value_of_shifted by assumption. apply value_1.
Qed.

(** Rounding does not cross a power of two: a number below [2^K] is
    rounded to a double that is at most [2^K]. *)
Lemma round_below (mx ex K : Z) :
  0 <= mx -> Zdigits2 mx + ex <= K -> -1074 <= K ->
  exists m e,
    binary_round_aux Binary64.prec Binary64.emax false mx ex loc_Exact
    = pack m e
    /\ 0 <= m /\ -1074 <= e /\ (m = 0 \/ e <= K)
    /\ (value m e <= 2 ^ K)%Q.
Proof.
  intros Hmx HK Kmin.
  destruct (binary_round_aux_fine mx ex Hmx) as [m [e [Hr [Hm [He [He1 [Hb Hd]]]]]]].
  set (n := Z.max (fexp64 (Zdigits2 mx + ex) - ex) 0) in *.
  set (e1 := ex + n) in *.
  assert (Hn : 0 <= n) by (unfold n; lia).
  assert (P1 : 0 < 2 ^ n) by (apply Z.pow_pos_nonneg; lia).
  assert (Pk : 0 < 2 ^ (e - e1)) by (apply Z.pow_pos_nonneg; lia).
  assert (Main : e1 <= K /\ m * 2 ^ (e - e1) <= 2 ^ (K - e1)).
  { destruct (Z.eq_dec mx 0) as [Hz | Hnz].
    - assert (D0 : Zdigits2 mx = 0) by (rewrite Hz; reflexivity).
      assert (E1 : e1 <= K).
      { unfold e1, n. rewrite fexp_eq. lia. }
      split; [exact E1|].
      rewrite Hd.
      + rewrite Hz, Z.div_0_l by lia. apply Z.pow_nonneg. lia.
      + rewrite Hz, Z.mod_0_l by lia. lia.
    - destruct (Zdigits2_bounds mx ltac:(lia)) as [Hlo Hhi].
      assert (Dpos : 1 <= Zdigits2 mx) by (apply Zdigits2_pos_ge_1; lia).
      destruct (Z.eq_dec n 0) as [Hn0 | Hnpos].
      + assert (E1 : e1 = ex) by (unfold e1; lia).
        split; [lia|].
        rewrite Hd.
        * rewrite Hn0. change (2 ^ 0) with 1. rewrite Z.div_1_r.
          apply Z.lt_le_incl. eapply Z.lt_le_trans; [exact Hhi|].
          apply Z.pow_le_mono_r; lia.
        * rewrite Hn0. change (2 ^ 0) with 1. rewrite Z.mod_1_r. lia.
      + assert (Hn1 : n = fexp64 (Zdigits2 mx + ex) - ex)
          by (unfold n in *; lia).
        assert (E1 : e1 = fexp64 (Zdigits2 mx + ex)) by (unfold e1; lia).
        rewrite fexp_eq in E1.
        split; [lia|].
        eapply Z.le_trans; [apply Hb|].
        destruct (Z_le_gt_dec n (Zdigits2 mx)) as [Hle | Hgt].
        * assert (Hq : mx / 2 ^ n < 2 ^ (Zdigits2 mx - n)).
          { apply Z.div_lt_upper_bound; [lia|].
            rewrite <- Z.pow_add_r by lia.
            now replace (n + (Zdigits2 mx - n)) with (Zdigits2 mx) by lia. }
          eapply Z.le_trans with (m := 2 ^ (Zdigits2 mx - n)); [lia|].
          apply Z.pow_le_mono_r; lia.
        * assert (Hq : mx / 2 ^ n = 0).
          { apply Z.div_small. split; [lia|].
            eapply Z.lt_le_trans; [exact Hhi|].
            apply Z.pow_le_mono_r; lia. }
          rewrite Hq.
          assert (0 < 2 ^ (K - e1)) by (apply Z.pow_pos_nonneg; lia).
          lia. }
  destruct Main as [E1K Hle].
  exists m, e. split; [exact Hr|]. split; [exact Hm|]. split; [exact He|].
  split.
  - destruct (Z.eq_dec m 0) as [Hz | Hnz]; [now left | right].
    assert (H2 : 2 ^ (e - e1) <= 2 ^ (K - e1)) by nia.
    apply (Z.pow_le_mono_r_iff 2) in H2; lia.
  - rewrite <- (value_of_shifted m e e1) by lia.
    rewrite <- (value_pow2 K e1) by lia.
    now apply value_le.
Qed.

(** A number between [2^55] and [2^55 + 1] is rounded to [2^55]. *)
Lemma round_at_cap (mx ex : Z) :
  ex <= 0 ->
  2 ^ 55 * 2 ^ (- ex) <= mx <= (2 ^ 55 + 1) * 2 ^ (- ex) ->
  exists m e,
    binary_round_aux Binary64.prec Binary64.emax false mx ex loc_Exact
    = pack m e
    /\ 0 <= m /\ -1074 <= e /\ (m = 0 \/ e <= 55)
    /\ (value m e <= 2 ^ 55)%Q.
Proof.
  intros Hex [Hlo Hhi].
  change (2 ^ 55) with (8 * 4503599627370496) in Hlo, Hhi.
  set (P := 2 ^ (- ex)) in *.
  assert (HP : 0 < P) by (apply Z.pow_pos_nonneg; lia).
  assert (Hmx : 0 <= mx) by lia.
  assert (HD : Zdigits2 mx = 56 - ex).
  { apply Zdigits2_unique; [lia|].
    replace (56 - ex - 1) with (55 + - ex) by lia.
    replace (56 - ex) with (56 + - ex) by lia.
    rewrite !Z.pow_add_r by lia. fold P.
    change (2 ^ 55) with (8 * 4503599627370496).
    change (2 ^ 56) with (16 * 4503599627370496). lia. }
  destruct (binary_round_aux_fine mx ex Hmx)
    as [m [e [Hr [Hm [He [He1 [Hb Hd]]]]]]].
  rewrite HD in He1, Hb, Hd.
  replace (56 - ex + ex) with 56 in He1, Hb, Hd by lia.
  change (fexp64 56) with 3 in He1, Hb, Hd.
  rewrite (Z.max_l (3 - ex) 0) in He1, Hb, Hd by lia.
  replace (ex + (3 - ex)) with 3 in He1, Hb, Hd by lia.
  assert (E8 : 2 ^ (3 - ex) = 8 * P).
  { replace (3 - ex) with (3 + - ex) by lia.
    rewrite Z.pow_add_r by lia. reflexivity. }
  rewrite E8 in Hb, Hd. clear E8. clearbody P.
  assert (Hq : mx / (8 * P) = 4503599627370496).
  { clear Hb Hd. symmetry.
    apply Z.div_unique with (r := mx - 8 * 4503599627370496 * P); lia. }
  assert (Hrem : mx mod (8 * P) = mx - 8 * 4503599627370496 * P).
  { clear Hb Hd Hq. symmetry.
    apply Z.mod_unique with (q := 4503599627370496); lia. }
  rewrite Hq in Hb, Hd. rewrite Hrem in Hd.
  specialize (Hd ltac:(lia)).
  assert (Pk : 0 < 2 ^ (e - 3)) by (apply Z.pow_pos_nonneg; lia).
  exists m, e. split; [exact Hr|]. split; [exact Hm|]. split; [exact He|].
  split.
  - right.
    assert (Hm1 : 1 <= m).
    { destruct (Z.eq_dec m 0) as [Hz|Hnz]; [|lia].
      rewrite Hz, Z.mul_0_l in Hd. discriminate Hd. }
    assert (H2 : 2 ^ (e - 3) <= 2 ^ 52).
    { change (2 ^ 52) with 4503599627370496. rewrite <- Hd.
      set (t := 2 ^ (e - 3)) in *. nia. }
    apply (Z.pow_le_mono_r_iff 2) in H2; lia.
  - rewrite <- (value_of_shifted m e 3) by lia. rewrite Hd.
    change 4503599627370496 with (2 ^ (55 - 3)).
    rewrite value_pow2 by lia. apply Qle_refl.
Qed.

(** A number of at most [2^55 + 1] is rounded to a double of at most
    [2^55]. *)
Lemma round_capped (mx ex : Z) :
  0 <= mx -> ex <= 0 -> mx <= (2 ^ 55 + 1) * 2 ^ (- ex) ->
  exists m e,
    binary_round_aux Binary64.prec Binary64.emax false mx ex loc_Exact
    = pack m e
    /\ 0 <= m /\ -1074 <= e /\ (m = 0 \/ e <= 55)
    /\ (value m e <= 2 ^ 55)%Q.
Proof.
  intros Hmx Hex Hhi.
  destruct (Z_lt_le_dec mx (2 ^ 55 * 2 ^ (- ex))) as [Hlt | Hge].
  - apply round_below; [assumption | | lia].
    assert (Zdigits2 mx <= 55 - ex); [|lia].
    apply Zdigits2_le; [lia|]. split; [assumption|].
    replace (55 - ex) with (55 + - ex) by lia.
    now rewrite Z.pow_add_r by lia.
  - apply round_at_cap; [assumption | split; assumption].
Qed.

Lemma binary_round_capped (M : positive) (ez : Z) :
  ez <= 0 -> Z.pos M <= (2 ^ 55 + 1) * 2 ^ (- ez) ->
  exists m e,
    binary_round Binary64.prec Binary64.emax false M ez = pack m e
    /\ 0 <= m /\ -1074 <= e /\ (m = 0 \/ e <= 55)
    /\ (value m e <= 2 ^ 55)%Q.
Proof.
  intros Hez Hhi. unfold binary_round.
  change (SpecFloat.fexp Binary64.prec Binary64.emax
            (Z.pos (digits2_pos M) + ez))
    with (fexp64 (Zdigits2 (Z.pos M) + ez)).
  set (fe := fexp64 (Zdigits2 (Z.pos M) + ez)).
  destruct (shl_align_spec M ez fe) as [Hsnd Hfst].
  destruct (shl_align M ez fe) as [mz ez']. cbn [fst snd] in Hsnd, Hfst.
  apply round_capped; [lia | lia |].
  rewrite Hfst, Hsnd.
  assert (E : 2 ^ (- Z.min ez fe) = 2 ^ (- ez) * 2 ^ (ez - Z.min ez fe)).
  { rewrite <- Z.pow_add_r by lia. f_equal. lia. }
  rewrite E.
  assert (0 < 2 ^ (ez - Z.min ez fe)) by (apply Z.pow_pos_nonneg; lia).
  nia.
Qed.

Lemma binary_round_below (M : positive) (ez K : Z) :
  Zdigits2 (Z.pos M) + ez <= K -> -1074 <= K ->
  exists m e,
    binary_round Binary64.prec Binary64.emax false M ez = pack m e
    /\ 0 <= m /\ -1074 <= e /\ (m = 0 \/ e <= K)
    /\ (value m e <= 2 ^ K)%Q.
Proof.
  intros HK Kmin. unfold binary_round.
  change (SpecFloat.fexp Binary64.prec Binary64.emax
            (Z.pos (digits2_pos M) + ez))
    with (fexp64 (Zdigits2 (Z.pos M) + ez)).
  set (fe := fexp64 (Zdigits2 (Z.pos M) + ez)).
  destruct (shl_align_spec M ez fe) as [Hsnd Hfst].
  destruct (shl_align M ez fe) as [mz ez']. cbn [fst snd] in Hsnd, Hfst.
  apply round_below; [lia | | assumption].
  rewrite Hfst, Hsnd, Zdigits2_shift by lia. lia.
Qed.

End Caps.

(** ** Doubles that stay bounded *)

Section BoundedDoubles.

Local Open Scope Q_scope.

Lemma pow2_le (a b : Z) : (a <= b)%Z -> 2 ^ a <= 2 ^ b.
Proof.
  intros H. replace b with (a + (b - a))%Z by lia. rewrite pow2_plus.
  pose proof (pow2_pos a). pose proof (pow2_ge_1 (b - a) ltac:(lia)).
  nra.
Qed.

Lemma value_ge_pow2 (m e : Z) : (1 <= m)%Z -> 2 ^ e <= value m e.
Proof.
  intros H. rewrite <- value_1. now apply value_le.
Qed.

Lemma value_inject (b e : Z) :
  (e <= 0)%Z -> value (b * 2 ^ (- e)) e == inject_Z b.
Proof.
  intros He. rewrite value_shift by lia.
  replace (e + - e)%Z with 0%Z by lia. unfold value.
  change (2 ^ 0) with 1. ring.
Qed.

Lemma value_le_Z (a b e : Z) :
  (e <= 0)%Z -> value a e <= inject_Z b -> (a <= b * 2 ^ (- e))%Z.
Proof.
  intros He H. destruct (Z_le_gt_dec a (b * 2 ^ (- e))) as [Hle|Hgt];
    [assumption|].
  exfalso. pose proof (value_lt (b * 2 ^ (- e)) a e ltac:(lia)) as L.
  rewrite value_inject in L by assumption. lra.
Qed.

Lemma value_lt_Z (a b e : Z) :
  (e <= 0)%Z -> value a e < inject_Z b -> (a < b * 2 ^ (- e))%Z.
Proof.
  intros He H. destruct (Z_lt_le_dec a (b * 2 ^ (- e))) as [Hlt|Hge];
    [assumption|].
  exfalso. pose proof (value_le (b * 2 ^ (- e)) a e ltac:(lia)) as L.
  rewrite value_inject in L by assumption. lra.
Qed.

Lemma exponent_of_small (p : positive) (e : Z) :
  value (Z.pos p) e <= 1 -> (e <= 0)%Z.
Proof.
  intros H. destruct (Z_le_gt_dec e 0) as [Hle|Hgt]; [assumption|].
  exfalso. pose proof (value_ge_pow2 (Z.pos p) e ltac:(lia)) as L.
  pose proof (pow2_le 1 e ltac:(lia)) as L2.
  change (2 ^ 1) with 2 in L2. lra.
Qed.

Lemma pack_bounded (m e : Z) (C : Q) (K : Z) :
  (0 <= m)%Z -> (-1074 <= e)%Z -> (m = 0 \/ e <= K)%Z -> (K <= 971)%Z ->
  value m e <= C -> bounded_by C (pack m e).
Proof.
  intros Hm He HK K971 Hv. unfold bounded_by, pack.
  destruct m as [|p|p]; [| |lia].
  - rewrite value_0 in Hv. repeat split; [discriminate | exact Hv].
  - destruct HK as [HK|HK]; [discriminate|].
    assert (E : (e <=? 971)%Z = true) by (apply Z.leb_le; lia).
    rewrite E. cbn [sane]. split; [apply Z.leb_le; lia|].
    split; [discriminate|]. now rewrite to_Q_value.
Qed.

Lemma bounded_by_weaken (C C' : Q) (x : spec_float) :
  C <= C' -> bounded_by C x -> bounded_by C' x.
Proof.
  intros H [H1 [H2 H3]]. repeat split; try assumption. lra.
Qed.

Lemma add_zero_left (y : spec_float) :
  sane y = true -> add binary64 (S754_zero false) y = y.
Proof.
  destruct y as [[|]|[|]| |[|] m e]; try discriminate; reflexivity.
Qed.

Lemma add_zero_right (x : spec_float) :
  sane x = true -> add binary64 x (S754_zero false) = x.
Proof.
  destruct x as [[|]|[|]| |[|] m e]; try discriminate; reflexivity.
Qed.

Lemma sum_value (mx my : positive) (ex ey : Z) :
  value (Z.pos (fst (shl_align mx ex (Z.min ex ey))
                + fst (shl_align my ey (Z.min ex ey))))
        (Z.min ex ey)
  == value (Z.pos mx) ex + value (Z.pos my) ey.
Proof.
  destruct (shl_align_spec mx ex (Z.min ex ey)) as [_ Fx].
  destruct (shl_align_spec my ey (Z.min ex ey)) as [_ Fy].
  replace (Z.min ex (Z.min ex ey)) with (Z.min ex ey) in Fx by lia.
  replace (Z.min ey (Z.min ex ey)) with (Z.min ex ey) in Fy by lia.
  rewrite Pos2Z.inj_add, value_plus, Fx, Fy.
  rewrite !value_shift by lia.
  replace (Z.min ex ey + (ex - Z.min ex ey))%Z with ex by lia.
  replace (Z.min ex ey + (ey - Z.min ex ey))%Z with ey by lia.
  reflexivity.
Qed.

(** Adding a double of at most one to a double of at most [2^55] gives a
    double of at most [2^55]: beyond [2^53] the sum is rounded back. *)
Lemma add_capped (x y : spec_float) :
  bounded_by (2 ^ 55) x -> bounded_by 1 y ->
  bounded_by (2 ^ 55) (add binary64 x y).
Proof.
  intros [Sx [Nx Bx]] [Sy [Ny By]].
  destruct x as [[|]|[|]| |[|] mx ex]; try discriminate; try congruence.
  - rewrite add_zero_left by assumption.
    repeat split; try assumption.
    assert (1 <= 2 ^ 55) by (apply pow2_ge_1; lia). lra.
  - destruct y as [[|]|[|]| |[|] my ey]; try discriminate; try congruence.
    + repeat split; assumption.
    + rewrite add_finite.
      rewrite to_Q_value in Bx, By.
      pose proof (exponent_of_small my ey By) as Hey.
      cbn [sane] in Sx, Sy. apply Z.leb_le in Sx, Sy.
      set (M := (fst (shl_align mx ex (Z.min ex ey))
                 + fst (shl_align my ey (Z.min ex ey)))%positive).
      pose proof (sum_value mx my ex ey) as V. fold M in V.
      assert (HM : (Z.pos M <= (2 ^ 55 + 1) * 2 ^ (- Z.min ex ey))%Z).
      { apply value_le_Z; [lia|]. rewrite V.
        change (inject_Z (2 ^ 55 + 1)) with (2 ^ 55 + 1). lra. }
      destruct (binary_round_capped M (Z.min ex ey) ltac:(lia) HM)
        as [m [e [Hr [Hm [He [HK Hv]]]]]].
      rewrite Hr. apply (pack_bounded m e (2 ^ 55) 55); try assumption. lia.
Qed.

Lemma below_one_spec (x : spec_float) :
  below_one x = true ->
  exists m e, x = S754_finite false m e
              /\ (-1074 <= e)%Z /\ (Zdigits2 (Z.pos m) + e <= 0)%Z.
Proof.
  destruct x as [[|]|[|]| |[|] m e]; try discriminate. cbn [below_one].
  intros H. apply andb_prop in H. destruct H as [H1 H2].
  apply Z.leb_le in H1, H2. exists m, e. auto.
Qed.

End BoundedDoubles.

Section Products.

Local Open Scope Z_scope.

(** The product of a double of at most one and a double below one is a
    double of at most one. *)
Lemma mul_below_one (a b : spec_float) :
  bounded_by 1 a -> below_one b = true ->
  bounded_by 1 (mul binary64 a b).
Proof.
  intros [Sa [Na Ba]] Hb.
  destruct (below_one_spec b Hb) as [mb [eb [-> [Heb Hdb]]]].
  destruct a as [[|]|[|]| |[|] ma ea]; try discriminate; try congruence.
  - cbn. repeat split; [discriminate | lra].
  - cbn [mul binary64 SFmul xorb].
    rewrite to_Q_value in Ba.
    pose proof (exponent_of_small ma ea Ba) as Hea.
    change 1%Q with (inject_Z 1) in Ba.
    apply value_le_Z in Ba; [|assumption]. rewrite Z.mul_1_l in Ba.
    destruct (Zdigits2_bounds (Z.pos mb) ltac:(lia)) as [_ Hmb].
    assert (Hdig : Zdigits2 (Z.pos (ma * mb)) + (ea + eb) <= 0).
    { assert (Zdigits2 (Z.pos (ma * mb)) <= - ea + Zdigits2 (Z.pos mb));
        [|lia].
      pose proof (Zdigits2_nonneg (Z.pos mb)).
      apply Zdigits2_le; [lia|]. split; [lia|].
      rewrite Pos2Z.inj_mul, Z.pow_add_r by lia.
      assert (0 < 2 ^ (- ea)) by (apply Z.pow_pos_nonneg; lia).
      nia. }
    destruct (round_below (Z.pos (ma * mb)) (ea + eb) 0 ltac:(lia) Hdig
                ltac:(lia))
      as [m [e [Hr [Hm [He [HK Hv]]]]]].
    rewrite Hr. apply (pack_bounded m e 1 0); try assumption; try lia.
Qed.

End Products.

(** ** No overflow *)

Lemma joint_step_bounded one two ht (acc : num binary64) entry :
  bounded_by 1 acc ->
  bounded_by 1 (joint_step binary64 one two ht acc entry).
Proof.
  intros Hacc. destruct entry as [person info]. unfold joint_step.
  destruct (mother info).
  - destruct (gene_count one two person),
             (parent_count one two (Some s)),
             (parent_count one two (father info)),
             (mem person ht);
      cbv beta iota;
      (apply mul_below_one;
       [apply mul_below_one; [exact Hacc | vm_compute; reflexivity]
       | vm_compute; reflexivity]).
  - destruct (gene_count one two person), (mem person ht);
      cbv beta iota;
      (apply mul_below_one;
       [apply mul_below_one; [exact Hacc | vm_compute; reflexivity]
       | vm_compute; reflexivity]).
Qed.

Lemma one_bounded : bounded_by 1 (lit binary64 1).
Proof.
  repeat split; [discriminate|]. vm_compute. discriminate.
Qed.

(** In floating point the weight of a scenario is a double between zero
    and one. *)
Lemma joint_probability_bounded people one two ht :
  bounded_by 1 (joint_probability binary64 people one two ht).
Proof.
  unfold joint_probability.
  generalize one_bounded. generalize (lit binary64 1).
  induction people as [|entry people IH]; intros acc Hacc; simpl.
  - assumption.
  - apply IH, joint_step_bounded, Hacc.
Qed.

Lemma add_mass_capped (d : Distribution binary64) g t (p : num binary64) :
  capped_row d -> bounded_by 1 p -> capped_row (add_mass binary64 d g t p).
Proof.
  intros [H2 [H1 [H0 [Ht Hf]]]] Hp. unfold capped_row, add_mass.
  cbn [gene2 gene1 gene0 trait_true trait_false].
  destruct g, t; repeat split; try apply H2; try apply H1; try apply H0;
    try apply Ht; try apply Hf;
    try (apply add_capped; assumption).
Qed.

Lemma person_after_capped people person calls :
  forall d, capped_row d ->
            capped_row (person_after binary64 people person calls d).
Proof.
  induction calls as [|c calls IH]; intros d Hd.
  - exact Hd.
  - unfold person_after in *. cbn [fold_left]. apply IH.
    apply add_mass_capped; [exact Hd | apply joint_probability_bounded].
Qed.

Lemma zero_bounded (C : Q) : (0 <= C)%Q -> bounded_by C (lit binary64 0).
Proof. intros H. repeat split; [discriminate | exact H]. Qed.

Lemma zero_distribution_capped : capped_row (zero_distribution binary64).
Proof.
  assert (H : (0 <= 2 ^ 55)%Q) by (apply Qlt_le_weak, pow2_pos).
  repeat split; try discriminate; exact H.
Qed.

Section Totals.

Local Open Scope Q_scope.

(** A sum of two bounded doubles does not overflow. *)
Lemma add_bounded (x y : spec_float) (B : Q) :
  bounded_by B x -> bounded_by B y -> B <= 2 ^ 900 ->
  bounded_by (4 * B) (add binary64 x y).
Proof.
  intros [Sx [Nx Bx]] [Sy [Ny By]] HB.
  pose proof (add_sane x y Sx Sy) as Hs.
  pose proof (to_Q_nonneg x Sx) as Px.
  pose proof (to_Q_nonneg y Sy) as Py.
  assert (Hfin : add binary64 x y <> S754_infinity false).
  { destruct x as [[|]|[|]| |[|] mx ex]; try discriminate; try congruence;
      destruct y as [[|]|[|]| |[|] my ey]; try discriminate; try congruence.
    rewrite add_finite.
    cbn [sane] in Sx, Sy. apply Z.leb_le in Sx, Sy.
    destruct (binary_round_spec
                (fst (shl_align mx ex (Z.min ex ey))
                 + fst (shl_align my ey (Z.min ex ey)))%positive
                (Z.min ex ey) ltac:(lia))
      as [m [e [Hp [Hm [He [B1 _]]]]]].
    rewrite Hp. rewrite sum_value in B1. rewrite to_Q_value in Bx, By.
    unfold pack. destruct m as [|q|q]; try lia.
    destruct (e <=? 971)%Z eqn:E; [discriminate|].
    apply Z.leb_gt in E. exfalso.
    pose proof (value_ge_pow2 (Z.pos q) e ltac:(lia)) as L.
    pose proof (pow2_le 972 e ltac:(lia)) as L2.
    assert (L3 : 2 ^ 900 * 4 <= 2 ^ 972).
    { change 4 with (2 ^ 2). rewrite <- pow2_plus. apply pow2_le. lia. }
    pose proof (pow2_pos 900) as P9.
    unfold roundoff in B1. nra. }
  split; [exact Hs|]. split; [exact Hfin|].
  destruct (add_spec_any x y Sx Sy Hfin) as [_ [_ [B1 _]]].
  unfold roundoff in B1.
  pose proof (to_Q_nonneg _ Hs) as Ps. lra.
Qed.

Lemma totals_finite (d : Distribution binary64) :
  capped_row d ->
  gene_total binary64 d <> S754_infinity false
  /\ trait_total binary64 d <> S754_infinity false.
Proof.
  intros [H2 [H1 [H0 [Ht Hf]]]].
  assert (B55 : 2 ^ 55 <= 2 ^ 900) by (apply pow2_le; lia).
  assert (B57 : 4 * 2 ^ 55 <= 2 ^ 900).
  { change 4 with (2 ^ 2). rewrite <- pow2_plus. apply pow2_le. lia. }
  pose proof (pow2_pos 55) as P55.
  split.
  - unfold gene_total.
    rewrite (add_lit0_l (gene2 d)) by apply H2.
    pose proof (add_bounded _ _ _ H2 H1 B55) as S1.
    assert (H0' : bounded_by (4 * 2 ^ 55) (gene0 d)).
    { eapply bounded_by_weaken; [|exact H0]. lra. }
    apply (add_bounded _ _ _ S1 H0' B57).
  - unfold trait_total.
    rewrite (add_lit0_l (trait_true d)) by apply Ht.
    apply (add_bounded _ _ _ Ht Hf B55).
Qed.

End Totals.

Lemma normalize_lookup_None (A : Arith) (table table' : dict (Distribution A))
    (k : string) :
  normalize A table = Some table' ->
  lookup table k = None -> lookup table' k = None.
Proof.
  revert table'. induction table as [|[person d] table IH];
    intros table' H Hl; simpl in H.
  - now injection H as <-.
  - destruct (normalize_person A d); [|discriminate].
    destruct (normalize A table) as [rest|]; [|discriminate].
    injection H as <-. simpl in *.
    destruct (String.eqb k person); [discriminate|]. now apply IH.
Qed.

Lemma accumulated_row_capped people person d0 :
  lookup (probabilities (enumerate binary64 people)) person = Some d0 ->
  capped_row d0.
Proof.
  intros Hrow. rewrite enumerate_table in Hrow.
  rewrite (lookup_map (fun p _ =>
             person_after binary64 people p
               (scenarios people (to_set (keys people))
                          (powerset (to_set (keys people))))
               (zero_distribution binary64))) in Hrow.
  destruct (lookup people person); [|discriminate].
  cbn [option_map] in Hrow. injection Hrow as <-.
  apply person_after_capped, zero_distribution_capped.
Qed.

(** In floating point, for every pedigree and every person, the row that
    [main] returns sums to [1] within [1e-9], for the gene counts and for
    the trait. *)
Lemma main_sums_to_one (people : dict Person)
    (table : dict (Distribution binary64)) (person : string)
    (d : Distribution binary64) :
  main binary64 people = Some table ->
  lookup table person = Some d ->
  within_1e9 (gene_sum_Q d) 1 /\ within_1e9 (trait_sum_Q d) 1.
Proof.
  intros Hmain Hd.
  destruct (lookup (probabilities (enumerate binary64 people)) person)
    as [d0|] eqn:Hrow.
  - destruct (totals_finite d0 (accumulated_row_capped people person d0 Hrow))
      as [Fg Ft].
    destruct (main_sums_within people table person d0 d Hmain Hrow Hd)
      as [Hg Ht].
    split; [apply Hg, Fg | apply Ht, Ft].
  - exfalso.
    pose proof (normalize_lookup_None binary64 _ _ person Hmain Hrow) as Hn.
    congruence.
Qed.

(** ** No underflow *)

Section Magnitudes.

Local Open Scope Z_scope.

Lemma Zdigits2_ge (m k : Z) : 0 <= k -> 2 ^ k <= m -> k + 1 <= Zdigits2 m.
Proof.
  intros Hk Hm.
  assert (P : 0 < 2 ^ k) by (apply Z.pow_pos_nonneg; lia).
  destruct (Zdigits2_bounds m ltac:(lia)) as [_ Hhi].
  destruct (Z_le_gt_dec (k + 1) (Zdigits2 m)) as [H|H]; [assumption|].
  exfalso.
  pose proof (Zdigits2_nonneg m).
  assert (2 ^ Zdigits2 m <= 2 ^ k) by (apply Z.pow_le_mono_r; lia).
  lia.
Qed.

(** Rounding does not lose magnitude, down to the least normal exponent. *)
Lemma round_above (mx ex : Z) :
  0 < mx -> -1073 <= Zdigits2 mx + ex ->
  exists m e,
    binary_round_aux Binary64.prec Binary64.emax false mx ex loc_Exact
    = pack m e
    /\ 0 < m /\ -1074 <= e /\ Zdigits2 mx + ex <= Zdigits2 m + e.
Proof.
  intros Hmx Hmag.
  destruct (binary_round_aux_fine mx ex ltac:(lia))
    as [m [e [Hr [Hm [He [He1 [Hb _]]]]]]].
  set (n := Z.max (fexp64 (Zdigits2 mx + ex) - ex) 0) in *.
  destruct (Zdigits2_bounds mx Hmx) as [Hlo Hhi].
  assert (Dpos : 1 <= Zdigits2 mx) by (apply Zdigits2_pos_ge_1; lia).
  assert (Hn : 0 <= n <= Zdigits2 mx - 1).
  { unfold n. rewrite fexp_eq. lia. }
  assert (P1 : 0 < 2 ^ n) by (apply Z.pow_pos_nonneg; lia).
  assert (Pk : 0 < 2 ^ (e - (ex + n))) by (apply Z.pow_pos_nonneg; lia).
  assert (Hq : 2 ^ (Zdigits2 mx - 1 - n) <= mx / 2 ^ n).
  { apply Z.div_le_lower_bound; [lia|].
    rewrite <- Z.pow_add_r by lia.
    now replace (n + (Zdigits2 mx - 1 - n)) with (Zdigits2 mx - 1) by lia. }
  assert (Pq : 0 < 2 ^ (Zdigits2 mx - 1 - n))
    by (apply Z.pow_pos_nonneg; lia).
  assert (Hmpos : 0 < m) by nia.
  exists m, e. split; [exact Hr|]. split; [exact Hmpos|].
  split; [exact He|].
  pose proof (Zdigits2_ge (m * 2 ^ (e - (ex + n))) (Zdigits2 mx - 1 - n)
                ltac:(lia) ltac:(lia)) as Hd.
  rewrite Zdigits2_shift in Hd by lia. lia.
Qed.

Lemma at_least_spec (k : Z) (x : spec_float) :
  at_least k x = true ->
  exists m e, x = S754_finite false m e
              /\ -1074 <= e /\ k <= Zdigits2 (Z.pos m) + e.
Proof.
  destruct x as [[|]|[|]| |[|] m e]; try discriminate. cbn [at_least].
  intros H. apply andb_prop in H. destruct H as [H1 H2].
  apply Z.leb_le in H1, H2. exists m, e. auto.
Qed.

Lemma Zdigits2_mul (a b : positive) :
  Zdigits2 (Z.pos a) + Zdigits2 (Z.pos b) - 1 <= Zdigits2 (Z.pos (a * b)).
Proof.
  destruct (Zdigits2_bounds (Z.pos a) ltac:(lia)) as [La _].
  destruct (Zdigits2_bounds (Z.pos b) ltac:(lia)) as [Lb _].
  pose proof (Zdigits2_pos_ge_1 (Z.pos a) ltac:(lia)) as Da.
  pose proof (Zdigits2_pos_ge_1 (Z.pos b) ltac:(lia)) as Db.
  pose proof (Zdigits2_ge (Z.pos (a * b))
                (Zdigits2 (Z.pos a) - 1 + (Zdigits2 (Z.pos b) - 1))
                ltac:(lia)) as H.
  rewrite Z.pow_add_r in H by lia.
  assert (0 < 2 ^ (Zdigits2 (Z.pos a) - 1)) by (apply Z.pow_pos_nonneg; lia).
  assert (0 < 2 ^ (Zdigits2 (Z.pos b) - 1)) by (apply Z.pow_pos_nonneg; lia).
  rewrite Pos2Z.inj_mul in *.
  specialize (H ltac:(nia)). lia.
Qed.

(** The product of a double of magnitude [ka] and at most one with a double
    of magnitude [kb] below one has magnitude [ka + kb - 1] at least. *)
Lemma mul_at_least (ka kb : Z) (a b : spec_float) :
  at_least ka a = true -> bounded_by 1 a ->
  at_least kb b = true -> below_one b = true ->
  -1073 <= ka + kb - 1 ->
  at_least (ka + kb - 1) (mul binary64 a b) = true.
Proof.
  intros Ha Ba Hb Bb Hk.
  pose proof (mul_below_one a b Ba Bb) as [_ [Ninf _]].
  destruct (at_least_spec ka a Ha) as [ma [ea [-> [Hea Hda]]]].
  destruct (at_least_spec kb b Hb) as [mb [eb [-> [Heb Hdb]]]].
  cbn [mul binary64 SFmul xorb] in *.
  pose proof (Zdigits2_mul ma mb) as Hd.
  destruct (round_above (Z.pos (ma * mb)) (ea + eb) ltac:(lia) ltac:(lia))
    as [m [e [Hr [Hm [He Hmag]]]]].
  rewrite Hr in *. unfold pack in *.
  destruct m as [|p|p]; try lia.
  destruct (e <=? 971); [|congruence].
  cbn [at_least]. apply andb_true_intro. split; apply Z.leb_le; lia.
Qed.

Lemma at_least_weaken (k k' : Z) (x : spec_float) :
  k' <= k -> at_least k x = true -> at_least k' x = true.
Proof.
  intros Hk H. destruct (at_least_spec k x H) as [m [e [-> [He Hd]]]].
  cbn [at_least]. apply andb_true_intro. split; apply Z.leb_le; lia.
Qed.

End Magnitudes.

Lemma joint_step_at_least (k : Z) one two ht (acc : num binary64) entry :
  at_least k acc = true -> bounded_by 1 acc -> (-1073 <= k - 21)%Z ->
  at_least (k - 21) (joint_step binary64 one two ht acc entry) = true.
Proof.
  intros Hacc Bacc Hk. destruct entry as [person info]. unfold joint_step.
  replace (k - 21)%Z with (k + -13 - 1 + -6 - 1)%Z by lia.
  destruct (mother info).
  - destruct (gene_count one two person),
             (parent_count one two (Some s)),
             (parent_count one two (father info)),
             (mem person ht);
      cbv beta iota;
      (apply mul_at_least;
       [apply mul_at_least;
        [exact Hacc | exact Bacc | vm_compute; reflexivity
         | vm_compute; reflexivity | lia]
       | apply mul_below_one; [exact Bacc | vm_compute; reflexivity]
       | vm_compute; reflexivity | vm_compute; reflexivity | lia]).
  - destruct (gene_count one two person), (mem person ht);
      cbv beta iota;
      (apply mul_at_least;
       [apply mul_at_least;
        [exact Hacc | exact Bacc | vm_compute; reflexivity
         | vm_compute; reflexivity | lia]
       | apply mul_below_one; [exact Bacc | vm_compute; reflexivity]
       | vm_compute; reflexivity | vm_compute; reflexivity | lia]).
Qed.

Lemma joint_fold_at_least one two ht people :
  forall (k : Z) (acc : num binary64),
    at_least k acc = true -> bounded_by 1 acc ->
    (-1073 <= k - 21 * Z.of_nat (List.length people))%Z ->
    at_least (k - 21 * Z.of_nat (List.length people))
             (fold_left (joint_step binary64 one two ht) people acc) = true.
Proof.
  induction people as [|entry people IH]; intros k acc Hacc Bacc Hk.
  - cbn [fold_left List.length Z.of_nat] in *.
    now replace (k - 21 * 0)%Z with k by lia.
  - cbn [fold_left]. cbn [List.length] in *.
    replace (k - 21 * Z.of_nat (S (List.length people)))%Z
      with (k - 21 - 21 * Z.of_nat (List.length people))%Z in * by lia.
    apply IH.
    + apply joint_step_at_least; [assumption | assumption | lia].
    + now apply joint_step_bounded.
    + lia.
Qed.

(** In floating point the weight of a scenario of a pedigree of at most 51
    persons is a positive double: the product does not underflow. *)
Lemma joint_probability_at_least people one two ht :
  (List.length people <= 51)%nat ->
  at_least (1 - 21 * Z.of_nat (List.length people))
           (joint_probability binary64 people one two ht) = true.
Proof.
  intros Hn. unfold joint_probability. apply joint_fold_at_least.
  - reflexivity.
  - apply one_bounded.
  - lia.
Qed.

Section Positive.

Local Open Scope Q_scope.

Lemma at_least_positive (k : Z) (x : spec_float) :
  at_least k x = true -> 0 < Binary64.to_Q x.
Proof.
  intros H. destruct (at_least_spec k x H) as [m [e [-> _]]].
  rewrite to_Q_value. apply value_pos. lia.
Qed.

Lemma add_positive (x y : spec_float) (B : Q) :
  bounded_by B x -> bounded_by B y -> B <= 2 ^ 900 ->
  0 < Binary64.to_Q x + Binary64.to_Q y ->
  0 < Binary64.to_Q (add binary64 x y).
Proof.
  intros Hx Hy HB Hpos.
  destruct (add_bounded x y B Hx Hy HB) as [Hs [Hfin _]].
  destruct Hx as [Sx _]. destruct Hy as [Sy _].
  destruct (add_spec_any x y Sx Sy Hfin) as [_ [_ [_ B2]]].
  unfold roundoff in B2. lra.
Qed.

Lemma add_capped_positive (x p : spec_float) :
  bounded_by (2 ^ 55) x -> bounded_by 1 p ->
  0 < Binary64.to_Q x + Binary64.to_Q p ->
  0 < Binary64.to_Q (add binary64 x p).
Proof.
  intros Hx Hp Hpos.
  apply (add_positive x p (2 ^ 55)); try assumption.
  - eapply bounded_by_weaken; [|exact Hp]. apply pow2_ge_1. lia.
  - apply pow2_le. lia.
Qed.

Lemma bounded_nonneg (C : Q) (x : spec_float) :
  bounded_by C x -> 0 <= Binary64.to_Q x.
Proof. intros [S _]. now apply to_Q_nonneg. Qed.

Lemma add_mass_gene_positive (d : Distribution binary64) g t p :
  capped_row d -> bounded_by 1 p -> 0 < Binary64.to_Q p ->
  0 < Binary64.to_Q (gene binary64 (add_mass binary64 d g t p) g).
Proof.
  intros [H2 [H1 [H0 _]]] Hp Hpos.
  destruct g; cbn [gene add_mass gene2 gene1 gene0];
    apply add_capped_positive; try assumption.
  - pose proof (bounded_nonneg _ _ H0). lra.
  - pose proof (bounded_nonneg _ _ H1). lra.
  - pose proof (bounded_nonneg _ _ H2). lra.
Qed.

Lemma add_mass_trait_positive (d : Distribution binary64) g t p :
  capped_row d -> bounded_by 1 p -> 0 < Binary64.to_Q p ->
  0 < Binary64.to_Q (trait_of binary64 (add_mass binary64 d g t p) t).
Proof.
  intros [_ [_ [_ [Ht Hf]]]] Hp Hpos.
  destruct t; cbn [trait_of add_mass trait_true trait_false];
    apply add_capped_positive; try assumption.
  - pose proof (bounded_nonneg _ _ Ht). lra.
  - pose proof (bounded_nonneg _ _ Hf). lra.
Qed.

Lemma add_mass_gene_stays (d : Distribution binary64) g t p h :
  capped_row d -> bounded_by 1 p ->
  0 < Binary64.to_Q (gene binary64 d h) ->
  0 < Binary64.to_Q (gene binary64 (add_mass binary64 d g t p) h).
Proof.
  intros [H2 [H1 [H0 _]]] Hp Hpos.
  pose proof (bounded_nonneg _ _ Hp) as Pp.
  destruct g, h; cbn [gene add_mass gene2 gene1 gene0] in *;
    try assumption; apply add_capped_positive; try assumption; lra.
Qed.

Lemma add_mass_trait_stays (d : Distribution binary64) g t p u :
  capped_row d -> bounded_by 1 p ->
  0 < Binary64.to_Q (trait_of binary64 d u) ->
  0 < Binary64.to_Q (trait_of binary64 (add_mass binary64 d g t p) u).
Proof.
  intros [_ [_ [_ [Ht Hf]]]] Hp Hpos.
  pose proof (bounded_nonneg _ _ Hp) as Pp.
  destruct t, u; cbn [trait_of add_mass trait_true trait_false] in *;
    try assumption; apply add_capped_positive; try assumption; lra.
Qed.

Lemma person_after_stays_positive people person calls :
  forall d, capped_row d -> positive_row d ->
            positive_row (person_after binary64 people person calls d).
Proof.
  induction calls as [|c calls IH]; intros d Hc [[g Hg] [t Ht]].
  - split; [now exists g | now exists t].
  - unfold person_after in *. cbn [fold_left]. apply IH.
    + apply add_mass_capped; [assumption | apply joint_probability_bounded].
    + split.
      * exists g. apply add_mass_gene_stays;
          [assumption | apply joint_probability_bounded | assumption].
      * exists t. apply add_mass_trait_stays;
          [assumption | apply joint_probability_bounded | assumption].
Qed.

Lemma person_after_positive people person calls d :
  (List.length people <= 51)%nat -> calls <> [] -> capped_row d ->
  positive_row (person_after binary64 people person calls d).
Proof.
  intros Hn Hne Hc. destruct calls as [|c calls]; [congruence|].
  unfold person_after. cbn [fold_left].
  pose proof (joint_probability_bounded people (fst (fst c)) (snd (fst c))
                                        (snd c)) as Bp.
  pose proof (at_least_positive _ _
                (joint_probability_at_least people (fst (fst c))
                   (snd (fst c)) (snd c) Hn)) as Pp.
  apply (person_after_stays_positive people person calls).
  - now apply add_mass_capped.
  - split.
    + eexists. now apply add_mass_gene_positive.
    + eexists. now apply add_mass_trait_positive.
Qed.

Lemma positive_not_zero (x : spec_float) :
  0 < Binary64.to_Q x -> Binary64.is_zero x = false.
Proof.
  destruct x as [[|]|[|]| |[|] m e]; cbn; intros H; try reflexivity; lra.
Qed.

Lemma totals_not_zero (d : Distribution binary64) :
  capped_row d -> positive_row d ->
  Binary64.is_zero (gene_total binary64 d) = false
  /\ Binary64.is_zero (trait_total binary64 d) = false.
Proof.
  intros [H2 [H1 [H0 [Ht Hf]]]] [[g Hg] [t Hp]].
  assert (B55 : 2 ^ 55 <= 2 ^ 900) by (apply pow2_le; lia).
  assert (B57 : 4 * 2 ^ 55 <= 2 ^ 900).
  { change 4 with (2 ^ 2). rewrite <- pow2_plus. apply pow2_le. lia. }
  pose proof (pow2_pos 55) as P55.
  pose proof (bounded_nonneg _ _ H2) as N2.
  pose proof (bounded_nonneg _ _ H1) as N1.
  pose proof (bounded_nonneg _ _ H0) as N0.
  pose proof (bounded_nonneg _ _ Ht) as Nt.
  pose proof (bounded_nonneg _ _ Hf) as Nf.
  split; apply positive_not_zero.
  - unfold gene_total. rewrite (add_lit0_l (gene2 d)) by apply H2.
    pose proof (add_bounded _ _ _ H2 H1 B55) as S1.
    pose proof (bounded_nonneg _ _ S1) as NS1.
    assert (H0' : bounded_by (4 * 2 ^ 55) (gene0 d)).
    { eapply bounded_by_weaken; [|exact H0]. lra. }
    apply (add_positive _ _ (4 * 2 ^ 55) S1 H0' B57).
    destruct g; cbn [gene] in Hg.
    + lra.
    + assert (0 < Binary64.to_Q (add binary64 (gene2 d) (gene1 d)));
        [|lra].
      apply (add_positive _ _ (2 ^ 55) H2 H1 B55). lra.
    + assert (0 < Binary64.to_Q (add binary64 (gene2 d) (gene1 d)));
        [|lra].
      apply (add_positive _ _ (2 ^ 55) H2 H1 B55). lra.
  - unfold trait_total. rewrite (add_lit0_l (trait_true d)) by apply Ht.
    apply (add_positive _ _ (2 ^ 55) Ht Hf B55).
    destruct t; cbn [trait_of] in Hp; lra.
Qed.

End Positive.

(** ** Accumulated rounding *)

Section Drift.

Local Open Scope Q_scope.

Lemma Qpower_succ (q : Q) (k : nat) :
  q ^ Z.of_nat (S k) == q * q ^ Z.of_nat k.
Proof.
  rewrite Nat2Z.inj_succ, <- Z.add_1_l.
  rewrite Qpower_plus' by lia. now rewrite Qpower_1_r.
Qed.

Lemma shrink_bounds (k : nat) :
  0 <= (1 - roundoff) ^ Z.of_nat k <= 1.
Proof.
  induction k as [|k IH].
  - cbn. lra.
  - rewrite Qpower_succ. unfold roundoff in *.
    set (a := (1 - (1 # 4503599627370496)) ^ Z.of_nat k) in *. nra.
Qed.

Lemma growth_bound (k : nat) : 1 <= (1 + roundoff) ^ Z.of_nat k.
Proof.
  induction k as [|k IH].
  - cbn. lra.
  - rewrite Qpower_succ. unfold roundoff in *.
    set (a := (1 + (1 # 4503599627370496)) ^ Z.of_nat k) in *. nra.
Qed.

Lemma drifted_zero : drifted 0 (lit binary64 0) 0.
Proof. unfold drifted. cbn. lra. Qed.

Lemma drifted_keep (k : nat) (x : num binary64) (e : Q) :
  sane x = true -> drifted k x e -> drifted (S k) x e.
Proof.
  intros Hs [Hlo Hhi]. pose proof (to_Q_nonneg x Hs) as Hx.
  pose proof (shrink_bounds k) as Ha. pose proof (growth_bound k) as Hb.
  unfold drifted. rewrite !Qpower_succ. unfold roundoff in *.
  set (a := (1 - (1 # 4503599627370496)) ^ Z.of_nat k) in *.
  set (b := (1 + (1 # 4503599627370496)) ^ Z.of_nat k) in *.
  set (v := Binary64.to_Q x) in *.
  split; nra.
Qed.

Lemma drifted_add (k : nat) (x p : num binary64) (e : Q) :
  bounded_by (2 ^ 55) x -> bounded_by 1 p -> drifted k x e ->
  drifted (S k) (add binary64 x p) (e + Binary64.to_Q p).
Proof.
  intros Bx Bp [Hlo Hhi].
  destruct (add_capped x p Bx Bp) as [Ss [Sf _]].
  destruct Bx as [Sx _]. destruct Bp as [Sp _].
  destruct (add_spec_any x p Sx Sp Sf) as [_ [_ [L U]]].
  pose proof (to_Q_nonneg x Sx) as Hx. pose proof (to_Q_nonneg p Sp) as Hp.
  pose proof (to_Q_nonneg _ Ss) as Hf.
  pose proof (shrink_bounds k) as Ha. pose proof (growth_bound k) as Hb.
  unfold drifted. rewrite !Qpower_succ. unfold roundoff in *.
  set (a := (1 - (1 # 4503599627370496)) ^ Z.of_nat k) in *.
  set (b := (1 + (1 # 4503599627370496)) ^ Z.of_nat k) in *.
  set (v := Binary64.to_Q x) in *. set (w := Binary64.to_Q p) in *.
  set (f := Binary64.to_Q (add binary64 x p)) in *.
  split.
  - assert (a * ((1 - (1 # 4503599627370496)) * f) <= a * (v + w)) by nra.
    nra.
  - assert (b * (v + w) <= b * ((1 + (1 # 4503599627370496)) * f)) by nra.
    nra.
Qed.

Lemma float_mass_cons people c calls :
  float_mass people (c :: calls)
  = Binary64.to_Q (joint_probability binary64 people (fst (fst c))
                                     (snd (fst c)) (snd c))
    + float_mass people calls.
Proof. reflexivity. Qed.

(** One call: each of the two sums of the exact masses grows by the
    probability of the call. *)
Lemma add_mass_drifted (k : nat) (d : Distribution binary64) g t
    (p : num binary64) (e2 e1 e0 et ef : Q) :
  capped_row d -> bounded_by 1 p ->
  drifted k (gene2 d) e2 -> drifted k (gene1 d) e1 ->
  drifted k (gene0 d) e0 ->
  drifted k (trait_true d) et -> drifted k (trait_false d) ef ->
  exists e2' e1' e0' et' ef',
    drifted (S k) (gene2 (add_mass binary64 d g t p)) e2'
    /\ drifted (S k) (gene1 (add_mass binary64 d g t p)) e1'
    /\ drifted (S k) (gene0 (add_mass binary64 d g t p)) e0'
    /\ drifted (S k) (trait_true (add_mass binary64 d g t p)) et'
    /\ drifted (S k) (trait_false (add_mass binary64 d g t p)) ef'
    /\ e2' + e1' + e0' == e2 + e1 + e0 + Binary64.to_Q p
    /\ et' + ef' == et + ef + Binary64.to_Q p.
Proof.
  intros [C2' [C1' [C0' [Ct Cf]]]] Bp D2 D1 D0 Dt Df.
  exists (match g with C2 => e2 + Binary64.to_Q p | _ => e2 end),
         (match g with C1 => e1 + Binary64.to_Q p | _ => e1 end),
         (match g with C0 => e0 + Binary64.to_Q p | _ => e0 end),
         (if t then et + Binary64.to_Q p else et),
         (if t then ef else ef + Binary64.to_Q p).
  repeat split;
    try (destruct g; cbn [add_mass gene2 gene1 gene0];
         first [ apply drifted_add; assumption
               | apply drifted_keep;
                 [ first [apply C2' | apply C1' | apply C0'] | assumption ] ];
         fail);
    try (destruct t; cbn [add_mass trait_true trait_false];
         first [ apply drifted_add; assumption
               | apply drifted_keep;
                 [ first [apply Ct | apply Cf] | assumption ] ];
         fail).
  - destruct g; ring.
  - destruct t; ring.
Qed.

Lemma person_after_drifted people person calls :
  forall (k : nat) (d : Distribution binary64) (e2 e1 e0 et ef : Q),
    capped_row d ->
    drifted k (gene2 d) e2 -> drifted k (gene1 d) e1 ->
    drifted k (gene0 d) e0 ->
    drifted k (trait_true d) et -> drifted k (trait_false d) ef ->
    let d' := person_after binary64 people person calls d in
    let n := (k + List.length calls)%nat in
    exists e2' e1' e0' et' ef',
      drifted n (gene2 d') e2' /\ drifted n (gene1 d') e1'
      /\ drifted n (gene0 d') e0'
      /\ drifted n (trait_true d') et' /\ drifted n (trait_false d') ef'
      /\ e2' + e1' + e0' == e2 + e1 + e0 + float_mass people calls
      /\ et' + ef' == et + ef + float_mass people calls.
Proof.
  induction calls as [|c calls IH]; intros k d e2 e1 e0 et ef Hc D2 D1 D0 Dt Df.
  - cbn zeta. cbn [List.length person_after fold_left].
    rewrite Nat.add_0_r. exists e2, e1, e0, et, ef.
    unfold float_mass. cbn [map total fold_right].
    split; [exact D2|]. split; [exact D1|]. split; [exact D0|].
    split; [exact Dt|]. split; [exact Df|]. split; ring.
  - cbn zeta. unfold person_after. cbn [fold_left List.length].
    set (p := joint_probability binary64 people (fst (fst c)) (snd (fst c))
                                (snd c)).
    pose proof (joint_probability_bounded people (fst (fst c)) (snd (fst c))
                                          (snd c)) as Bp.
    fold p in Bp.
    destruct (add_mass_drifted k d
                (gene_count (fst (fst c)) (snd (fst c)) person)
                (mem person (snd c)) p e2 e1 e0 et ef Hc Bp D2 D1 D0 Dt Df)
      as [a2 [a1 [a0 [at' [af [A2 [A1 [A0 [At [Af [Sg St]]]]]]]]]]].
    destruct (IH (S k) _ a2 a1 a0 at' af
                (add_mass_capped d _ _ p Hc Bp) A2 A1 A0 At Af)
      as [b2 [b1 [b0 [bt [bf [B2 [B1 [B0 [Bt [Bf [Tg Tt]]]]]]]]]]].
    unfold person_after in *.
    replace (k + S (List.length calls))%nat
      with (S k + List.length calls)%nat by lia.
    exists b2, b1, b0, bt, bf.
    split; [exact B2|]. split; [exact B1|]. split; [exact B0|].
    split; [exact Bt|]. split; [exact Bf|]. split.
    + rewrite Tg, Sg, float_mass_cons. fold p. ring.
    + rewrite Tt, St, float_mass_cons. fold p. ring.
Qed.

(** The exact sums of the accumulated doubles of a row are the exact sum
    of the computed joint probabilities up to the roundings of the
    additions. *)
Lemma accumulated_sums_drift people person calls :
  let d := person_after binary64 people person calls
                        (zero_distribution binary64) in
  let n := Z.of_nat (List.length calls) in
  ((1 - roundoff) ^ n * gene_sum_Q d <= float_mass people calls
   /\ float_mass people calls <= (1 + roundoff) ^ n * gene_sum_Q d)
  /\ ((1 - roundoff) ^ n * trait_sum_Q d <= float_mass people calls
      /\ float_mass people calls <= (1 + roundoff) ^ n * trait_sum_Q d).
Proof.
  cbn zeta.
  destruct (person_after_drifted people person calls 0
              (zero_distribution binary64) 0 0 0 0 0
              zero_distribution_capped drifted_zero drifted_zero
              drifted_zero drifted_zero drifted_zero)
    as [e2 [e1 [e0 [et [ef [[L2 U2] [[L1 U1] [[L0 U0] [[Lt Ut] [[Lf Uf]
        [Sg St]]]]]]]]]]].
  cbn [Nat.add] in *.
  set (d := person_after binary64 people person calls
                         (zero_distribution binary64)) in *.
  set (a := (1 - roundoff) ^ Z.of_nat (List.length calls)) in *.
  set (b := (1 + roundoff) ^ Z.of_nat (List.length calls)) in *.
  unfold gene_sum_Q, trait_sum_Q.
  set (P := float_mass people calls) in *.
  repeat split; nra.
Qed.

End Drift.

(** ** Persons with and without a recorded mother *)

Lemma joint_step_with_mother (A : Arith) one two ht acc n info m :
  mother info = Some m ->
  joint_step A one two ht acc (n, info)
  = mul A (mul A acc
             (child_distribution A
                (transmit A (gene_count one two m))
                (transmit A (parent_count one two (father info)))
                (gene_count one two n)))
          (PROBS_trait A (gene_count one two n) (mem n ht)).
Proof.
  intros Hm.
  rewrite <- (passing_prob_transmit A (gene_count one two m)).
  rewrite <- (passing_prob_transmit A (parent_count one two (father info))).
  unfold joint_step. rewrite Hm.
  change (parent_count one two (Some m)) with (gene_count one two m).
  destruct (gene_count one two n); reflexivity.
Qed.

Lemma joint_step_without_mother (A : Arith) one two ht acc n info :
  mother info = None ->
  joint_step A one two ht acc (n, info)
  = mul A (mul A acc (PROBS_gene A (gene_count one two n)))
          (PROBS_trait A (gene_count one two n) (mem n ht)).
Proof. intros Hm. unfold joint_step. now rewrite Hm. Qed.

(** In floating point no total of a pedigree of at most 51 persons is
    zero. *)
Lemma main_binary64_returns (people : dict Person) :
  (List.length people <= 51)%nat -> main binary64 people <> None.
Proof.
  intros Hn E. unfold main in E.
  apply (normalize_raises binary64 Binary64.is_zero div_binary64_raises) in E.
  destruct E as [person [d [Hin Hz]]].
  rewrite enumerate_table in Hin. apply in_map_iff in Hin.
  destruct Hin as [[p info] [Heq _]]. cbn [fst snd] in Heq.
  injection Heq as <- <-.
  set (calls := scenarios people (to_set (keys people))
                          (powerset (to_set (keys people)))) in *.
  assert (Hne : calls <> []).
  { apply scenarios_nonempty;
      [apply names_NoDup | apply some_candidate_survives]. }
  pose proof (person_after_capped people p calls _ zero_distribution_capped)
    as Hc.
  pose proof (person_after_positive people p calls _ Hn Hne
                zero_distribution_capped) as Hp.
  destruct (totals_not_zero _ Hc Hp) as [Zg Zt].
  destruct Hz as [Hz|Hz]; congruence.
Qed.

(** * The specification, statement by statement *)

(** C1.  For every pedigree whose people have both parents or none, every
    pair of sets [one_gene], [two_genes] and every set [have_trait],
    [joint_probability] multiplies into [1], person after person and each
    person once, the probability of that person's gene count (the founder
    prior without parents, else the distribution of a child given the counts
    that this same assignment gives to the mother and the father) and then
    the probability of the person's trait value given the gene count.  This
    holds in every arithmetic, floating point included; with exact
    arithmetic the result is the product of these factors over the people
    and is not negative; in floating point the result is not negative
    either (and not a NaN). *)
Theorem joint_probability_is_product :
  forall (people : dict Person) (one_gene two_genes have_trait : pyset),
    both_or_neither people ->
    (forall A : Arith,
        joint_probability A people one_gene two_genes have_trait =
        fold_left (fun acc entry =>
                     mul A (mul A acc (gene_factor A one_gene two_genes entry))
                           (trait_factor A one_gene two_genes have_trait entry))
                  people (lit A 1))
    /\ (joint_probability rational people one_gene two_genes have_trait
        == product
             (map (fun entry =>
                     gene_factor rational one_gene two_genes entry
                     * trait_factor rational one_gene two_genes have_trait
                                    entry)
                  people))%Q
    /\ (0 <= joint_probability rational people one_gene two_genes have_trait)%Q
    /\ Binary64.nonneg
         (joint_probability binary64 people one_gene two_genes have_trait)
       = true.
Proof.
  intros people one two ht Hwf. split; [|split; [|split]].
  - intros A. unfold joint_probability. now apply joint_fold_factors.
  - unfold joint_probability. rewrite joint_fold_factors by assumption.
    rewrite fold_factors_product. cbn. ring.
  - apply Qlt_le_weak, joint_probability_pos.
  - apply joint_probability_nonneg.
Qed.

Lemma joint_probability_is_product_witness :
  both_or_neither family0
  /\ (joint_probability rational family0 ["Harry"] ["James"] ["James"]
      == product
           (map (fun entry =>
                   gene_factor rational ["Harry"] ["James"] entry
                   * trait_factor rational ["Harry"] ["James"] ["James"] entry)
                family0))%Q.
Proof.
  assert (H : both_or_neither family0).
  { repeat constructor; simpl; intros; discriminate. }
  split; [exact H|].
  apply (joint_probability_is_product family0 ["Harry"] ["James"] ["James"] H).
Defined.

(** C2.  In every arithmetic, for a person [n] recorded with mother [m] and
    father [f], the evaluator multiplies in the child's distribution at the
    person's own count: [t_mother * t_father] for two copies,
    [(1 - t_mother) * (1 - t_father)] for none, and the sum of the two paths
    [t_mother * (1 - t_father) + (1 - t_mother) * t_father] for one, where
    the transmit probability of a parent is the mutation rate for a parent
    without a copy, one half for a parent with one copy and one minus the
    mutation rate for a parent with two copies: [1/100], [1/2] and [99/100]
    exactly, and the doubles [0.01], [0.5] and [0.99] in floating point. *)
Theorem child_distribution_from_parents :
  forall (A : Arith) (people : dict Person)
         (one_gene two_genes have_trait : pyset)
         (n m f : string) (t : option bool),
    joint_probability A (people ++ [(n, child n m f t)])
                      one_gene two_genes have_trait
    = mul A (mul A (joint_probability A people one_gene two_genes have_trait)
               (child_distribution A
                  (transmit A (gene_count one_gene two_genes m))
                  (transmit A (gene_count one_gene two_genes f))
                  (gene_count one_gene two_genes n)))
            (PROBS_trait A (gene_count one_gene two_genes n)
                         (mem n have_trait))
    /\ (forall tm tf : num A,
           child_distribution A tm tf C2 = mul A tm tf
           /\ child_distribution A tm tf C0
              = mul A (sub A (lit A 1) tm) (sub A (lit A 1) tf)
           /\ child_distribution A tm tf C1
              = add A (mul A tm (sub A (lit A 1) tf))
                      (mul A (sub A (lit A 1) tm) tf))
    /\ (transmit A C0 = PROBS_mutation A
        /\ transmit A C1 = lit A (1 # 2)
        /\ transmit A C2 = sub A (lit A 1) (PROBS_mutation A))
    /\ (transmit rational C0 == 1 # 100
        /\ transmit rational C1 == 1 # 2
        /\ transmit rational C2 == 99 # 100)%Q
    /\ (transmit binary64 C0 = lit binary64 (1 # 100)
        /\ transmit binary64 C1 = lit binary64 (5 # 10)
        /\ transmit binary64 C2 = lit binary64 (99 # 100)).
Proof.
  intros A people one two ht n m f t. repeat split; try reflexivity.
  rewrite joint_probability_app. cbn [fold_left]. apply joint_step_child.
Qed.

(** C3.  For every set [names] of [n] people and every candidate
    [have_trait], the two inner loops of [main] (a subset [one_gene] of the
    people, then a subset [two_genes] of the remaining people) call the
    evaluator on exactly the pairs of [gene_assignments]; there are [3^n] of
    them; the gene counts they give to the people are all the [3^n] lists of
    [n] counts, each produced by exactly one pair; and in every pair the two
    sets are sets of people without a common member, so that each person is
    in exactly one of the groups two-copy, one-copy and zero-copy. *)
Theorem gene_enumeration_exact :
  forall (A : Arith) (people : dict Person) (names have_trait : pyset)
         (run : Run A),
    NoDup names ->
    evaluated (gene_loop A people names have_trait run)
    = evaluated run ++ gene_assignments names have_trait
    /\ List.length (gene_assignments names have_trait)
       = 3 ^ List.length names
    /\ Permutation (map (counts_of names) (gene_assignments names have_trait))
                   (all_counts (List.length names))
    /\ NoDup (map (counts_of names) (gene_assignments names have_trait))
    /\ (forall v : list copies,
           List.length v = List.length names ->
           exists c, In c (gene_assignments names have_trait)
                     /\ counts_of names c = v)
    /\ (forall one_gene two_genes ht,
           In (one_gene, two_genes, ht) (gene_assignments names have_trait) ->
           ht = have_trait
           /\ incl one_gene names /\ incl two_genes names
           /\ (forall x, In x two_genes -> ~ In x one_gene)).
Proof.
  intros A people names ht run Hn.
  pose proof (gene_assignments_counts names ht Hn) as Hperm.
  split; [|split; [|split; [|split; [|split]]]].
  - now rewrite gene_loop_calls.
  - rewrite <- (length_map (counts_of names)).
    rewrite (Permutation_length Hperm). apply length_all_counts.
  - exact Hperm.
  - eapply Permutation_NoDup; [symmetry; exact Hperm|].
    apply all_counts_NoDup.
  - intros v Hv. apply all_counts_length in Hv.
    eapply Permutation_in in Hv; [|symmetry; exact Hperm].
    apply in_map_iff in Hv. destruct Hv as [c [Hc Hin]]. now exists c.
  - intros one two ht' Hin.
    destruct (gene_assignments_In names ht _ Hn Hin) as [Hht [Hone Htwo]].
    cbn [fst snd] in *. apply sublists_incl in Hone, Htwo.
    split; [assumption|]. split; [assumption|]. split.
    + eapply incl_tran; [exact Htwo | apply difference_incl].
    + intros x Hx. apply Htwo in Hx. apply filter_In in Hx.
      destruct Hx as [_ Hx]. apply mem_not_In.
      now destruct (mem x one).
Qed.

Lemma gene_enumeration_exact_witness :
  NoDup ["Harry"; "James"; "Lily"]
  /\ List.length (gene_assignments ["Harry"; "James"; "Lily"] ["James"]) = 27.
Proof.
  assert (H : NoDup ["Harry"; "James"; "Lily"]).
  { repeat constructor; simpl; intuition discriminate. }
  split; [exact H|].
  exact (proj1 (proj2
    (gene_enumeration_exact rational family0 ["Harry"; "James"; "Lily"]
       ["James"] (start rational family0) H))).
Defined.

(** C4.  If some person has an observed trait value that differs from the
    person's membership in the candidate [have_trait], the body of the
    outermost loop leaves the state as it is, so that no scenario of this
    candidate is evaluated and no mass is added for it: in the whole
    enumeration no call of the evaluator has this candidate, and the
    enumeration ends in the same state as without the candidate. *)
Theorem inconsistent_candidate_discarded :
  forall (A : Arith) (people : dict Person) (names have_trait : pyset)
         (person : string) (info : Person) (t : bool),
    In person names ->
    lookup people person = Some info ->
    trait info = Some t ->
    t <> mem person have_trait ->
    (forall run, trait_step A people names run have_trait = run)
    /\ (forall candidates run one_gene two_genes,
           In (one_gene, two_genes, have_trait)
              (evaluated (accumulate A people names candidates run)) ->
           In (one_gene, two_genes, have_trait) (evaluated run))
    /\ (forall before after run,
           accumulate A people names (before ++ have_trait :: after) run
           = accumulate A people names (before ++ after) run).
Proof.
  intros A people names ht person info t Hin Hl Ht Hne.
  pose proof (fails_evidence_true _ _ _ _ _ _ Hin Hl Ht Hne) as Hfail.
  split; [|split].
  - intros run. unfold trait_step. now rewrite Hfail.
  - intros cands run one two. rewrite accumulate_calls.
    cbn [evaluated]. rewrite in_app_iff. intros [H | H]; [assumption|].
    apply scenarios_In in H. cbn [snd] in H. destruct H as [H _].
    congruence.
  - intros before after run. unfold accumulate.
    rewrite !fold_left_app. cbn [fold_left]. unfold trait_step at 2.
    now rewrite Hfail.
Qed.

Lemma inconsistent_candidate_discarded_witness :
  trait_step rational family0 ["Harry"; "James"; "Lily"]
             (start rational family0) ["Lily"]
  = start rational family0.
Proof.
  refine (proj1 (inconsistent_candidate_discarded rational family0
            ["Harry"; "James"; "Lily"] ["Lily"] "James"
            {| name := "James"; mother := None; father := None;
               trait := Some true |} true _ _ _ _) _).
  - simpl. auto.
  - reflexivity.
  - reflexivity.
  - simpl. discriminate.
Defined.

(** C5.  For every pedigree with a candidate that passes the evidence test,
    [normalize] succeeds on the accumulated table and returns, for every
    person, the accumulated row with each gene entry divided by the sum of
    the three gene entries and each trait entry divided by the sum of the
    two trait entries; in exact arithmetic the three gene entries of the
    result then sum to [1] and so do the two trait entries, in particular
    within [1e-9].  In floating point, for every pedigree, whenever [main]
    returns a table, the three gene entries of a person's row sum to [1]
    within [1e-9] if the sum of the person's accumulated gene entries did
    not overflow, and the two trait entries do if the sum of the accumulated
    trait entries did not overflow; the rows returned for a lone founder and
    for a child with absent parents are given in full. *)
Theorem normalize_sums_to_one :
  forall people : dict Person,
    surviving people (to_set (keys people))
              (powerset (to_set (keys people))) <> [] ->
    (exists table,
        normalize rational (probabilities (enumerate rational people))
        = Some table
        /\ table = map (fun entry => (fst entry, scaled (snd entry)))
                       (probabilities (enumerate rational people))
        /\ keys table = keys people
        /\ Forall (fun entry : string * Distribution rational =>
                     let d := snd entry in
                     (gene2 d + gene1 d + gene0 d == 1
                      /\ trait_true d + trait_false d == 1
                      /\ Qabs (gene2 d + gene1 d + gene0 d - 1)
                         <= 1 # 1000000000
                      /\ Qabs (trait_true d + trait_false d - 1)
                         <= 1 # 1000000000)%Q)
                  table)
    /\ (forall (table : dict (Distribution binary64)) (person : string)
               (d0 d : Distribution binary64),
           main binary64 people = Some table ->
           lookup (probabilities (enumerate binary64 people)) person
           = Some d0 ->
           lookup table person = Some d ->
           (gene_total binary64 d0 <> S754_infinity false ->
            within_1e9 (gene_sum_Q d) 1)
           /\ (trait_total binary64 d0 <> S754_infinity false ->
               within_1e9 (trait_sum_Q d) 1))
    /\ (main binary64 [("A", founder "A")] = Some [("A", founder_double)]
        /\ within_1e9 (gene_sum_Q founder_double) 1
        /\ within_1e9 (trait_sum_Q founder_double) 1)
    /\ (main binary64 (load_data orphan_rows) = Some [("Harry", orphan_double)]
        /\ within_1e9 (gene_sum_Q orphan_double) 1
        /\ within_1e9 (trait_sum_Q orphan_double) 1).
Proof.
  intros people Hs.
  assert (Hnz : forall person d,
             In (person, d) (probabilities (enumerate rational people)) ->
             ~ (gene_total rational d == 0)%Q
             /\ ~ (trait_total rational d == 0)%Q).
  { intros person d Hin. rewrite enumerate_accumulate in Hin.
    eapply accumulated_rows_nonzero; try eassumption. apply names_NoDup. }
  split; [|split; [|split]].
  - eexists. split; [apply normalize_Some, Hnz|]. split; [reflexivity|].
    split.
    + unfold keys. rewrite map_map. cbn [fst].
      rewrite enumerate_table, map_map. reflexivity.
    + apply Forall_forall. intros [person d'] Hin.
      apply in_map_iff in Hin. destruct Hin as [[p d] [Heq Hin]].
      cbn [fst snd] in Heq. inversion Heq; subst. clear Heq.
      destruct (Hnz _ _ Hin) as [Hg Ht]. cbn [snd].
      pose proof (scaled_gene_sum d Hg) as Sg.
      pose proof (scaled_trait_sum d Ht) as St.
      repeat split; try assumption.
      * rewrite Sg. discriminate.
      * rewrite St. discriminate.
  - intros table person d0 d. apply main_sums_within.
  - split; [reflexivity|]. split; vm_compute; discriminate.
  - split; [reflexivity|]. split; vm_compute; discriminate.
Qed.

Lemma normalize_sums_to_one_witness :
  (exists table,
      normalize rational (probabilities (enumerate rational family0))
      = Some table)
  /\ (exists d,
         lookup family0_double "Harry" = Some d
         /\ within_1e9 (gene_sum_Q d) 1
         /\ within_1e9 (trait_sum_Q d) 1).
Proof.
  assert (H : surviving family0 (to_set (keys family0))
                        (powerset (to_set (keys family0))) <> []).
  { vm_compute. discriminate. }
  destruct (normalize_sums_to_one family0 H)
    as [[table [Ht _]] [Hfloat _]].
  split; [exists table; exact Ht|].
  eexists. split; [reflexivity|].
  destruct (Hfloat family0_double "Harry"
              (person_after binary64 family0 "Harry"
                 (scenarios family0 (to_set (keys family0))
                            (powerset (to_set (keys family0))))
                 (zero_distribution binary64))
              _ eq_refl eq_refl eq_refl) as [Hg Hq].
  split.
  - apply Hg. vm_compute. discriminate.
  - apply Hq. vm_compute. discriminate.
Defined.

(** C6.  For every pedigree and every person with an observed trait value,
    every evaluated scenario has the person on the observed side, so the
    accumulator of the other side stays at zero.  In exact arithmetic [main]
    returns a table in which the person's trait posterior is [1] at the
    observed value and [0] at the other value.  In floating point, whenever
    [main] returns a table and the mass accumulated on the observed side is
    a positive finite double, the posterior is the double [1.0] at the
    observed value and [0.0] at the other value, exactly. *)
Theorem observed_trait_is_certain :
  forall (people : dict Person) (person : string) (info : Person) (b : bool),
    lookup people person = Some info ->
    trait info = Some b ->
    (forall (A : Arith) c,
        In c (evaluated (enumerate A people)) -> mem person (snd c) = b)
    /\ (exists table d,
           main rational people = Some table
           /\ lookup table person = Some d
           /\ (trait_of rational d b == 1)%Q
           /\ (trait_of rational d (negb b) == 0)%Q)
    /\ (forall table m e,
           main binary64 people = Some table ->
           option_map (fun d0 => trait_of binary64 d0 b)
                      (lookup (probabilities (enumerate binary64 people))
                              person)
           = Some (double m e) ->
           exists d,
             lookup table person = Some d
             /\ trait_of binary64 d b = lit binary64 1
             /\ trait_of binary64 d (negb b) = lit binary64 0).
Proof.
  intros people person info b Hl Ht.
  set (names := to_set (keys people)).
  set (calls := scenarios people names (powerset names)).
  assert (Hside : forall c, In c calls -> mem person (snd c) = b).
  { intros c Hc. apply scenarios_In in Hc. destruct Hc as [Hok _].
    eapply fails_evidence_false; try eassumption.
    apply names_In. eapply lookup_In; eassumption. }
  assert (Hrow : forall A,
             lookup (probabilities (enumerate A people)) person
             = Some (person_after A people person calls
                                  (zero_distribution A))).
  { intros A. rewrite enumerate_table.
    rewrite (lookup_map (fun p _ =>
               person_after A people p calls (zero_distribution A))).
    now rewrite Hl. }
  split; [|split].
  - intros A c Hc. rewrite enumerate_evaluated in Hc. now apply Hside.
  - set (d0 := person_after rational people person calls
                            (zero_distribution rational)).
    exists (map (fun entry => (fst entry, scaled (snd entry)))
                (probabilities (enumerate rational people))), (scaled d0).
    split; [apply main_rational_Some|].
    split.
    { rewrite (lookup_map (fun _ d => scaled d)). now rewrite Hrow. }
    pose proof (person_after_trait_other rational people person b calls Hside
                  (zero_distribution rational)) as Hother.
    fold d0 in Hother.
    destruct (row_totals people person calls) as [_ Htot]. fold d0 in Htot.
    pose proof (mass_pos people calls
                  (scenarios_nonempty people names (powerset names)
                     (names_NoDup people) (some_candidate_survives people)))
      as Hpos.
    assert (Hnz : ~ (trait_total rational d0 == 0)%Q).
    { intros E. rewrite Htot in E. rewrite E in Hpos. discriminate. }
    unfold trait_total in Hnz. cbn in Hnz.
    destruct b; cbn in Hother |- *; rewrite Hother in Hnz |- *;
      split; field; intros E; apply Hnz; rewrite E; reflexivity.
  - intros table m e Hmain Hmass. rewrite Hrow in Hmass.
    cbn [option_map] in Hmass. injection Hmass as Hmass.
    pose proof (person_after_trait_other binary64 people person b calls Hside
                  (zero_distribution binary64)) as Hother.
    destruct (normalize_lookup binary64 _ _ _ _ Hmain (Hrow binary64))
      as [d' [Hl' Hn]].
    exists d'. split; [exact Hl'|].
    destruct (person_after binary64 people person calls
                           (zero_distribution binary64))
      as [g2 g1 g0 t1 t0].
    unfold normalize_person, trait_total in Hn.
    cbn [gene2 gene1 gene0 trait_true trait_false] in Hn.
    destruct b; cbn [trait_of trait_true trait_false negb] in Hmass, Hother;
      change (trait_true (zero_distribution binary64))
        with (lit binary64 0) in Hother;
      change (trait_false (zero_distribution binary64))
        with (lit binary64 0) in Hother;
      subst t1 t0.
    + change (add binary64 (add binary64 (lit binary64 0) (double m e))
                  (lit binary64 0))
        with (double m e) in Hn.
      unfold double in Hn. rewrite (div_self m e) in Hn.
      change (div binary64 (lit binary64 0) (S754_finite false m e))
        with (Some (lit binary64 0)) in Hn.
      destruct (div binary64 g2 _) as [q2|]; [|discriminate Hn].
      destruct (div binary64 g1 _) as [q1|]; [|discriminate Hn].
      destruct (div binary64 g0 _) as [q0|]; [|discriminate Hn].
      injection Hn as <-. split; reflexivity.
    + change (add binary64 (add binary64 (lit binary64 0) (lit binary64 0))
                  (double m e))
        with (double m e) in Hn.
      unfold double in Hn. rewrite (div_self m e) in Hn.
      change (div binary64 (lit binary64 0) (S754_finite false m e))
        with (Some (lit binary64 0)) in Hn.
      destruct (div binary64 g2 _) as [q2|]; [|discriminate Hn].
      destruct (div binary64 g1 _) as [q1|]; [|discriminate Hn].
      destruct (div binary64 g0 _) as [q0|]; [|discriminate Hn].
      injection Hn as <-. split; reflexivity.
Qed.

Lemma observed_trait_is_certain_witness :
  (exists table d,
      main rational family0 = Some table
      /\ lookup table "James" = Some d
      /\ (trait_of rational d true == 1)%Q)
  /\ (exists d,
         lookup family0_double "James" = Some d
         /\ trait_of binary64 d true = lit binary64 1
         /\ trait_of binary64 d false = lit binary64 0).
Proof.
  destruct (observed_trait_is_certain family0 "James"
              {| name := "James"; mother := None; father := None;
                 trait := Some true |} true eq_refl eq_refl)
    as [_ [[table [d [H1 [H2 [H3 _]]]]] Hfloat]].
  split.
  - exists table, d. auto.
  - apply (Hfloat family0_double 4585397966970471%positive (-57)%Z).
    + reflexivity.
    + reflexivity.
Defined.

(** In floating point the posterior of a lone founder "A" has the double
    [0.030000000000000002] for one copy, which is not the double [0.03]. *)
Lemma single_founder_floating_point :
  main binary64 [("A", founder "A")] = Some [("A", founder_double)]
  /\ gene1 founder_double = double 8646911284551353 (-58)
  /\ lit binary64 (3 # 100) = double 8646911284551352 (-58)
  /\ float_eqb (gene1 founder_double) (lit binary64 (3 # 100)) = false
  /\ gene1 founder_double <> lit binary64 (3 # 100).
Proof.
  split; [reflexivity|].
  split; [reflexivity|]. split; [reflexivity|]. split; [reflexivity|].
  cbn. discriminate.
Qed.

(** C7, amended.  For a pedigree with a single founder without an observed
    trait, whatever the name, the posterior of the gene count is the founder
    prior [96/100], [3/100], [1/100] exactly when the arithmetic is exact;
    in floating point [main] returns the doubles [0.96] for no copy,
    [0.030000000000000002] for one copy and [0.01] for two copies, each
    within [1e-9] of the prior. *)
Theorem single_founder_posterior :
  forall n : string,
    (exists d,
        main rational [(n, founder n)] = Some [(n, d)]
        /\ (gene0 d == 96 # 100)%Q
        /\ (gene1 d == 3 # 100)%Q
        /\ (gene2 d == 1 # 100)%Q)
    /\ main binary64 [(n, founder n)] = Some [(n, founder_double)]
    /\ gene0 founder_double = lit binary64 (96 # 100)
    /\ gene1 founder_double = double 8646911284551353 (-58)
    /\ gene2 founder_double = lit binary64 (1 # 100)
    /\ within_1e9 (Binary64.to_Q (gene0 founder_double)) (96 # 100)
    /\ within_1e9 (Binary64.to_Q (gene1 founder_double)) (3 # 100)
    /\ within_1e9 (Binary64.to_Q (gene2 founder_double)) (1 # 100).
Proof.
  intros n. split.
  - exists (scaled (founder_row rational)). split.
    + rewrite main_single_founder.
      rewrite normalize_person_Some; [reflexivity | |];
        vm_compute; discriminate.
    + repeat split; vm_compute; reflexivity.
  - split.
    + rewrite main_single_founder.
      assert (E : normalize_person binary64 (founder_row binary64)
                  = Some founder_double) by reflexivity.
      rewrite E. reflexivity.
    + repeat split; try reflexivity; vm_compute; discriminate.
Qed.

(** Two files with a parent who has no row are accepted.  For the row of
    Harry with the mother Lily and the father James, the six scenarios of
    the child are evaluated, [main] returns a table in exact arithmetic and
    in floating point, and the child's count is weighed as inherited from
    two parents without a copy, not with the founder prior.  For the row of
    A with no mother and the father B, [main] returns the table of a lone
    founder: the reference to B is ignored and A is weighed with the
    founder prior. *)
Lemma missing_parent_not_rejected :
  (load_data orphan_rows = [("Harry", child "Harry" "Lily" "James" None)]
   /\ ~ In "Lily" (keys (load_data orphan_rows))
   /\ ~ In "James" (keys (load_data orphan_rows))
   /\ evaluated (enumerate rational (load_data orphan_rows))
      = single_calls "Harry"
   /\ main rational (load_data orphan_rows) <> None
   /\ main binary64 (load_data orphan_rows) = Some [("Harry", orphan_double)]
   /\ (joint_probability rational (load_data orphan_rows) [] ["Harry"] []
       == (1 # 100) * (1 # 100) * (35 # 100))%Q
   /\ ~ (joint_probability rational (load_data orphan_rows) [] ["Harry"] []
         == PROBS_gene rational C2 * PROBS_trait rational C2 false)%Q)
  /\ (load_data lone_father_rows
      = [("A", {| name := "A"; mother := None; father := Some "B";
                  trait := None |})]
      /\ ~ In "B" (keys (load_data lone_father_rows))
      /\ evaluated (enumerate rational (load_data lone_father_rows))
         = single_calls "A"
      /\ main rational (load_data lone_father_rows)
         = main rational [("A", founder "A")]
      /\ main binary64 (load_data lone_father_rows)
         = Some [("A", founder_double)]
      /\ (joint_probability rational (load_data lone_father_rows)
                            [] ["A"] []
          == PROBS_gene rational C2 * PROBS_trait rational C2 false)%Q).
Proof.
  split.
  - split; [reflexivity|].
    split; [simpl; intuition discriminate|].
    split; [simpl; intuition discriminate|].
    split; [reflexivity|].
    split; [rewrite main_rational_Some; discriminate|].
    split; [reflexivity|].
    split; [vm_compute; reflexivity|].
    vm_compute. discriminate.
  - split; [reflexivity|].
    split; [simpl; intuition discriminate|].
    split; [reflexivity|].
    split; [reflexivity|].
    split; [reflexivity|].
    vm_compute. reflexivity.
Qed.

(** C8, amended.  The engine does not check the parent references: every
    pedigree is accepted, and [main] returns a table for it, in exact
    arithmetic always and in floating point when the pedigree has at most
    51 persons.  In every scenario that [main] evaluates, a name that is not
    in the person set is in neither group.  What this means for a person
    with such a parent depends on the mother field alone.  A person with a
    recorded mother is not weighed as a founder: the count is weighed with
    the distribution of a child whose absent mother, or absent father, has
    no copy.  A person without a recorded mother is weighed with the
    founder prior, whatever father is recorded: an absent father of such a
    person is ignored. *)
Theorem missing_parent_is_not_checked :
  forall (A : Arith) (people : dict Person) (one_gene two_genes have_trait
          : pyset) (absent : string),
    In (one_gene, two_genes, have_trait) (evaluated (enumerate A people)) ->
    ~ In absent (keys people) ->
    parent_count one_gene two_genes (Some absent) = C0
    /\ (forall acc n info,
           mother info = Some absent ->
           joint_step A one_gene two_genes have_trait acc (n, info)
           = mul A (mul A acc
                      (child_distribution A
                         (transmit A C0)
                         (transmit A (parent_count one_gene two_genes
                                                   (father info)))
                         (gene_count one_gene two_genes n)))
                   (PROBS_trait A (gene_count one_gene two_genes n)
                                (mem n have_trait)))
    /\ (forall acc n info m,
           mother info = Some m ->
           father info = Some absent ->
           joint_step A one_gene two_genes have_trait acc (n, info)
           = mul A (mul A acc
                      (child_distribution A
                         (transmit A (gene_count one_gene two_genes m))
                         (transmit A C0)
                         (gene_count one_gene two_genes n)))
                   (PROBS_trait A (gene_count one_gene two_genes n)
                                (mem n have_trait)))
    /\ (forall acc n info,
           mother info = None ->
           joint_step A one_gene two_genes have_trait acc (n, info)
           = mul A (mul A acc
                      (PROBS_gene A (gene_count one_gene two_genes n)))
                   (PROBS_trait A (gene_count one_gene two_genes n)
                                (mem n have_trait)))
    /\ main rational people <> None
    /\ ((List.length people <= 51)%nat -> main binary64 people <> None).
Proof.
  intros A people one two ht absent Hin Habs.
  pose proof (stranger_has_no_copy A people one two ht absent Hin Habs) as H0.
  split; [exact H0|]. split; [|split; [|split; [|split]]].
  - intros acc n info Hm.
    rewrite (joint_step_with_mother A one two ht acc n info absent Hm).
    now rewrite H0.
  - intros acc n info m Hm Hf.
    rewrite (joint_step_with_mother A one two ht acc n info m Hm).
    rewrite Hf.
    change (parent_count one two (Some absent))
      with (gene_count one two absent).
    now rewrite H0.
  - intros acc n info Hm.
    exact (joint_step_without_mother A one two ht acc n info Hm).
  - rewrite main_rational_Some. discriminate.
  - apply main_binary64_returns.
Qed.

Lemma missing_parent_is_not_checked_witness :
  parent_count [] ["Harry"] (Some "Lily") = C0
  /\ main rational (load_data orphan_rows) <> None
  /\ main binary64 (load_data orphan_rows) <> None.
Proof.
  assert (Hin : In ([], ["Harry"], [])
                   (evaluated (enumerate rational (load_data orphan_rows)))).
  { rewrite enumerate_evaluated. right. left. reflexivity. }
  assert (Habs : ~ In "Lily" (keys (load_data orphan_rows))).
  { simpl. intuition discriminate. }
  destruct (missing_parent_is_not_checked rational (load_data orphan_rows)
              [] ["Harry"] [] "Lily" Hin Habs) as [H1 [_ [_ [_ [H2 H3]]]]].
  split; [exact H1|]. split; [exact H2|]. apply H3. simpl. lia.
Defined.

(** C9.  [normalize] raises exactly when some row of the table has a zero
    gene sum or a zero trait sum, in exact arithmetic and in floating point,
    where the division by a zero sum is the exception and never a value.
    In exact arithmetic, after the enumeration over any list of candidates,
    started from the zero table of a pedigree, some person has such a row
    exactly when the pedigree is not empty and no candidate of the list
    passes the evidence test; when one passes, [normalize] returns.  The
    candidates that [main] enumerates always contain one that passes, so
    [main] does not raise. *)
Theorem normalize_raises_iff_no_candidate :
  (forall table : dict (Distribution rational),
      normalize rational table = None
      <-> exists person d,
            In (person, d) table
            /\ (gene_total rational d == 0
                \/ trait_total rational d == 0)%Q)
  /\ (forall table : dict (Distribution binary64),
         normalize binary64 table = None
         <-> exists person d,
               In (person, d) table
               /\ (Binary64.is_zero (gene_total binary64 d) = true
                   \/ Binary64.is_zero (trait_total binary64 d) = true))
  /\ (forall (people : dict Person) (candidates : list pyset),
         let names := to_set (keys people) in
         let table :=
           probabilities (accumulate rational people names candidates
                                     (start rational people)) in
         (normalize rational table = None
          <-> people <> [] /\ surviving people names candidates = [])
         /\ ((exists person d,
                 In (person, d) table
                 /\ (gene_total rational d == 0
                     \/ trait_total rational d == 0)%Q)
             <-> people <> [] /\ surviving people names candidates = [])
         /\ (surviving people names candidates <> [] ->
             exists result, normalize rational table = Some result))
  /\ (forall people : dict Person,
         surviving people (to_set (keys people))
                   (powerset (to_set (keys people))) <> []
         /\ main rational people <> None)
  /\ (forall x y : num binary64,
         Binary64.is_zero y = true -> div binary64 x y = None)
  /\ normalize binary64 (initial binary64 family0) = None.
Proof.
  split; [exact normalize_None_iff|].
  split; [exact (normalize_raises binary64 Binary64.is_zero
                                  div_binary64_raises)|].
  split; [|split; [|split; [|reflexivity]]].
  - intros people cands names table.
    assert (Hiff : (exists person d,
                       In (person, d) table
                       /\ (gene_total rational d == 0
                           \/ trait_total rational d == 0)%Q)
                   <-> people <> [] /\ surviving people names cands = []).
    { split.
      - intros [person [d [Hin Hz]]]. split.
        + intros E. unfold table in Hin. rewrite accumulate_table in Hin.
          rewrite E in Hin. destruct Hin.
        + destruct (surviving people names cands) as [|ht rest] eqn:Es;
            [reflexivity|].
          assert (Hne : surviving people names cands <> [])
            by (rewrite Es; discriminate).
          destruct (accumulated_rows_nonzero people names cands person d
                      (names_NoDup people) Hne Hin) as [Hg Ht].
          tauto.
      - intros [Hpeople Hs].
        destruct people as [|[person info] people']; [congruence|].
        exists person, (zero_distribution rational). split.
        + unfold table. rewrite accumulate_table.
          rewrite (scenarios_empty _ _ _ Hs). now left.
        + left. reflexivity. }
    split; [|split].
    + rewrite normalize_None_iff. exact Hiff.
    + exact Hiff.
    + intros Hs. eexists. apply normalize_Some. intros person d Hin.
      eapply accumulated_rows_nonzero; try eassumption. apply names_NoDup.
  - intros people. split; [apply some_candidate_survives|].
    rewrite main_rational_Some. discriminate.
  - intros x y Hy. now apply div_binary64_raises.
Qed.

Lemma normalize_raises_iff_no_candidate_witness :
  exists result,
    normalize rational
      (probabilities
         (accumulate rational family0 (to_set (keys family0))
                     (powerset (to_set (keys family0)))
                     (start rational family0)))
    = Some result.
Proof.
  assert (H : surviving family0 (to_set (keys family0))
                        (powerset (to_set (keys family0))) <> []).
  { vm_compute. discriminate. }
  exact (proj2 (proj2
           (proj1 (proj2 (proj2 normalize_raises_iff_no_candidate))
                  family0 (powerset (to_set (keys family0))))) H).
Defined.

(** In floating point the two sums of the row of a lone founder differ:
    the gene masses sum to [1.0] and the trait masses to
    [0.9999999999999999]; the exact sums of these doubles differ too. *)
Lemma founder_sums_differ_in_floating_point :
  probabilities (enumerate binary64 [("A", founder "A")])
  = [("A", founder_row binary64)]
  /\ gene_total binary64 (founder_row binary64) = lit binary64 1
  /\ trait_total binary64 (founder_row binary64)
     = double 9007199254740991 (-53)
  /\ float_eqb (gene_total binary64 (founder_row binary64))
               (trait_total binary64 (founder_row binary64)) = false
  /\ gene_total binary64 (founder_row binary64)
     <> trait_total binary64 (founder_row binary64)
  /\ ~ (gene_sum_Q (founder_row binary64)
        == trait_sum_Q (founder_row binary64))%Q.
Proof.
  split; [apply single_founder_table|].
  split; [vm_compute; reflexivity|].
  split; [vm_compute; reflexivity|].
  split; [vm_compute; reflexivity|].
  split; vm_compute; discriminate.
Qed.

(** C10, amended.  For every pedigree, when the joint probabilities and
    the masses are computed with exact arithmetic, after the enumeration and
    before normalization the three gene masses of every person sum to the
    same value as the person's two trait masses, and this value is the same
    for all persons: the sum of the joint probabilities of the evaluated
    scenarios, which are the scenarios of the candidates that pass the
    evidence test. *)
Theorem accumulated_sums_agree :
  forall people : dict Person,
    let run := enumerate rational people in
    let names := to_set (keys people) in
    evaluated run = scenarios people names (powerset names)
    /\ Forall (fun c : call => fails_evidence people names (snd c) = false)
              (evaluated run)
    /\ keys (probabilities run) = keys people
    /\ Forall (fun entry : string * Distribution rational =>
                 let d := snd entry in
                 (gene2 d + gene1 d + gene0 d == mass people (evaluated run)
                  /\ trait_true d + trait_false d
                     == mass people (evaluated run)
                  /\ gene_total rational d == trait_total rational d)%Q)
              (probabilities run).
Proof.
  intros people run names.
  assert (Hev : evaluated run = scenarios people names (powerset names))
    by apply enumerate_evaluated.
  split; [exact Hev|]. split; [|split].
  - apply Forall_forall. intros c Hc. rewrite Hev in Hc.
    now apply scenarios_In in Hc.
  - unfold run, keys. rewrite enumerate_table, map_map. reflexivity.
  - apply Forall_forall. intros [person d] Hin. cbn [snd].
    unfold run in Hin. rewrite enumerate_table in Hin.
    apply in_map_iff in Hin. destruct Hin as [[p info] [Heq _]].
    cbn [fst snd] in Heq. inversion Heq; subst p d. clear Heq.
    rewrite Hev.
    pose proof (person_after_gene_sum people person
                  (scenarios people names (powerset names))
                  (zero_distribution rational)) as Hg.
    pose proof (person_after_trait_sum people person
                  (scenarios people names (powerset names))
                  (zero_distribution rational)) as Ht.
    destruct (row_totals people person
                (scenarios people names (powerset names))) as [Tg Tt].
    fold names. split; [|split].
    + rewrite Hg. cbn. ring.
    + rewrite Ht. cbn. ring.
    + now rewrite Tg, Tt.
Qed.

(** * Further properties of the code *)

(** X1.  [load_data]: the record stored under a name is made from the last
    row of the file with that name, and a name without a row has no
    record. *)
Theorem load_data_last_row_wins :
  forall (rows : list Row) (n : string),
    lookup (load_data rows) n
    = option_map load_row
        (find (fun row => String.eqb (row_name row) n) (rev rows)).
Proof. exact load_data_lookup. Qed.

(** X2.  [load_data]: the persons of the result are the names of the rows,
    once each, in the order in which they first appear in the file. *)
Theorem load_data_first_appearance :
  forall rows : list Row,
    keys (load_data rows) = rev (nodup string_dec (rev (map row_name rows)))
    /\ NoDup (keys (load_data rows))
    /\ (forall n, In n (keys (load_data rows)) <-> In n (map row_name rows)).
Proof.
  intros rows. rewrite load_data_keys. split; [reflexivity|]. split.
  - apply NoDup_rev, NoDup_nodup.
  - intros n. rewrite <- in_rev, nodup_In, <- in_rev. reflexivity.
Qed.

(** X3.  [load_data]: when no name is repeated in the file, the result has
    one record per row, in the order of the file. *)
Theorem load_data_distinct_names :
  forall rows : list Row,
    NoDup (map row_name rows) ->
    load_data rows = map (fun row => (row_name row, load_row row)) rows
    /\ List.length (load_data rows) = List.length rows.
Proof.
  intros rows Hn. rewrite (load_data_distinct rows Hn).
  split; [reflexivity | apply length_map].
Qed.

Lemma load_data_distinct_names_witness :
  load_data family0_rows = family0.
Proof.
  refine (proj1 (load_data_distinct_names family0_rows _)).
  repeat constructor; simpl; intuition discriminate.
Defined.

(** X4.  [powerset]: for a list of [n] elements, repeated or not, the
    result has [2^n] elements. *)
Theorem powerset_length :
  forall s : list string, List.length (powerset s) = 2 ^ List.length s.
Proof. exact powerset_length_any. Qed.

(** X5.  [powerset]: for a set [s], every element of the result is a subset
    of [s] without repeated members, every subset of [s] is in the result,
    and no subset is there twice, not even with its members in another
    order. *)
Theorem powerset_each_subset_once :
  forall s : pyset,
    NoDup s ->
    NoDup (powerset s)
    /\ (forall t, In t (powerset s) -> NoDup t /\ incl t s)
    /\ (forall t, incl t s ->
          exists u, In u (powerset s) /\ same_members u t)
    /\ (forall u v, In u (powerset s) -> In v (powerset s) ->
          same_members u v -> u = v).
Proof.
  intros s Hs. split; [|split; [|split]].
  - eapply Permutation_NoDup.
    + apply Permutation_sym, powerset_sublists, Hs.
    + now apply sublists_all_NoDup.
  - intros t Ht. apply (powerset_In s t Hs) in Ht. split.
    + eapply sublists_NoDup; eassumption.
    + now apply sublists_incl.
  - intros t Ht. exists (filter (fun x => mem x t) s). split.
    + apply (powerset_In s _ Hs), filter_sublist.
    + intros x. rewrite filter_In, mem_In. split; [tauto|].
      intros Hx. split; [apply Ht, Hx | exact Hx].
  - intros u v Hu Hv Hm.
    apply (powerset_In s u Hs) in Hu. apply (powerset_In s v Hs) in Hv.
    eapply sublists_same_members; eassumption.
Qed.

Lemma powerset_each_subset_once_witness :
  exists u, In u (powerset ["a"; "b"; "c"]) /\ same_members u ["c"; "a"].
Proof.
  assert (Hs : NoDup ["a"; "b"; "c"]).
  { repeat constructor; simpl; intuition discriminate. }
  apply (proj1 (proj2 (proj2 (powerset_each_subset_once _ Hs)))).
  intros x Hx. simpl in *. intuition.
Defined.

(** X6.  [powerset]: for a set [s], the subsets come by size, smallest
    first; the first is the empty set and the last is [s]. *)
Theorem powerset_by_size :
  forall s : pyset,
    NoDup s ->
    StronglySorted le (map (@List.length string) (powerset s))
    /\ hd_error (powerset s) = Some []
    /\ last (powerset s) [] = s.
Proof.
  intros s Hs. rewrite (powerset_chain s Hs). split; [|split].
  - apply chain_sorted.
  - apply chain_head.
  - apply chain_last.
Qed.

Lemma powerset_by_size_witness :
  hd_error (powerset ["a"; "b"; "c"]) = Some []
  /\ last (powerset ["a"; "b"; "c"]) [] = ["a"; "b"; "c"].
Proof.
  assert (Hs : NoDup ["a"; "b"; "c"]).
  { repeat constructor; simpl; intuition discriminate. }
  exact (proj2 (powerset_by_size _ Hs)).
Defined.

(** X7.  [joint_probability] and [update] read their three sets through
    membership only: sets with the same members give the same result, in
    any arithmetic, whatever the order of the members. *)
Theorem sets_by_membership_only :
  forall (A : Arith) (people : dict Person) (table : dict (Distribution A))
         (p : num A) (one two ht one' two' ht' : pyset),
    same_members one one' -> same_members two two' ->
    same_members ht ht' ->
    joint_probability A people one two ht
    = joint_probability A people one' two' ht'
    /\ update A table one two ht p = update A table one' two' ht' p.
Proof.
  intros A people table p one two ht one' two' ht' H1 H2 H3.
  assert (Hg : forall x, gene_count one two x = gene_count one' two' x).
  { apply gene_count_ext; now apply same_members_mem. }
  pose proof (same_members_mem ht ht' H3) as Ht.
  split; [now apply joint_probability_ext | now apply update_ext].
Qed.

Lemma sets_by_membership_only_witness :
  joint_probability rational family0 ["Lily"; "James"] [] ["James"]
  = joint_probability rational family0 ["James"; "Lily"; "James"] []
                      ["James"].
Proof.
  refine (proj1 (sets_by_membership_only rational family0 [] 0%Q
                   ["Lily"; "James"] [] ["James"]
                   ["James"; "Lily"; "James"] [] ["James"] _ _ _)).
  - intros x. simpl. tauto.
  - intros x. tauto.
  - intros x. tauto.
Defined.

(** X8.  [joint_probability] and [update]: a person who is in both
    [one_gene] and [two_genes] counts as having two copies. *)
Theorem two_genes_takes_precedence :
  forall (A : Arith) (people : dict Person) (table : dict (Distribution A))
         (p : num A) (one two ht : pyset),
    joint_probability A people one two ht
    = joint_probability A people (difference one two) two ht
    /\ update A table one two ht p
       = update A table (difference one two) two ht p.
Proof.
  intros A people table p one two ht.
  assert (Hg : forall x,
             gene_count one two x = gene_count (difference one two) two x).
  { intros x. symmetry. apply gene_count_difference. }
  split; [now apply joint_probability_ext | now apply update_ext].
Qed.

(** X9.  [main]: only the mother decides whether a person is a founder; a
    father recorded for a person without a recorded mother changes
    nothing, in any arithmetic. *)
Theorem lone_father_is_ignored :
  forall (A : Arith) (people : dict Person),
    main A (map (fun entry => (fst entry, without_lone_father (snd entry)))
                people)
    = main A people.
Proof.
  intros A people. unfold main. now rewrite enumerate_lone_father.
Qed.

(** X10.  [joint_probability]: with exact arithmetic the result is a
    probability: positive and at most one, for every pedigree and all
    sets. *)
Theorem joint_probability_in_unit_interval :
  forall (people : dict Person) (one two ht : pyset),
    (0 < joint_probability rational people one two ht
     /\ joint_probability rational people one two ht <= 1)%Q.
Proof.
  intros people one two ht. split.
  - apply joint_probability_pos.
  - unfold joint_probability. apply joint_fold_le. reflexivity.
Qed.

(** X11.  [joint_probability]: for a pedigree in which nobody is their own
    ancestor, with exact arithmetic the joint probabilities of all
    scenarios, every trait subset with every assignment of gene counts, sum
    to one. *)
Theorem total_probability_is_one :
  forall people : dict Person,
    NoDup (keys people) -> acyclic people ->
    (mass people (all_scenarios (to_set (keys people))) == 1)%Q.
Proof. exact mass_all_scenarios_one. Qed.

Lemma total_probability_is_one_witness :
  (mass family0 (all_scenarios (to_set (keys family0))) == 1)%Q.
Proof.
  apply total_probability_is_one.
  - repeat constructor; simpl; intuition discriminate.
  - exists (fun x => if String.eqb x "Harry" then 1 else 0).
    intros entry p Hin Hp Hk. simpl in Hin.
    destruct Hin as [<-|[<-|[<-|[]]]]; cbn in *;
      destruct Hp as [Hp|Hp]; try discriminate;
      injection Hp as <-; cbn; lia.
Defined.

(** X12.  [update]: with exact arithmetic the accumulated table does not
    depend on the order in which the scenarios are processed, nor on the
    order of the members of their sets. *)
Theorem accumulation_order_irrelevant :
  forall (people : dict Person) (table : dict (Distribution rational))
         (calls mid calls' : list call),
    Permutation calls mid -> Forall2 same_call mid calls' ->
    table_eq (fold_left (apply_call rational people) calls table)
             (fold_left (apply_call rational people) calls' table).
Proof.
  intros people table calls mid calls' Hp Hs.
  rewrite !fold_apply_call. unfold table_eq.
  apply Forall2_map_same. intros entry _. cbn [fst snd].
  split; [reflexivity|].
  eapply person_after_any_order_from; eassumption.
Qed.

Lemma accumulation_order_irrelevant_witness :
  table_eq
    (fold_left (apply_call rational family0)
               [(["Harry"], [], ["James"]); ([], ["Lily"], ["James"])]
               (initial rational family0))
    (fold_left (apply_call rational family0)
               [([], ["Lily"; "Lily"], ["James"]);
                (["Harry"], [], ["James"])]
               (initial rational family0)).
Proof.
  apply (accumulation_order_irrelevant family0 (initial rational family0)
           [(["Harry"], [], ["James"]); ([], ["Lily"], ["James"])]
           [([], ["Lily"], ["James"]); (["Harry"], [], ["James"])]).
  - apply perm_swap.
  - constructor; [|constructor; [|constructor]];
      (split; [|split]); intros x; simpl; tauto.
Defined.

(** X13.  [normalize]: when it returns, the table has the same persons in
    the same order, in any arithmetic; so has the table that [main]
    returns. *)
Theorem normalize_keeps_persons :
  forall (A : Arith) (table table' : dict (Distribution A)),
    normalize A table = Some table' ->
    keys table' = keys table
    /\ (forall people, table = probabilities (enumerate A people) ->
          keys table' = keys people).
Proof.
  intros A table table' H.
  pose proof (normalize_keys A table table' H) as Hk.
  split; [exact Hk|]. intros people ->. rewrite Hk. apply enumerate_keys.
Qed.

Lemma normalize_keeps_persons_witness :
  keys [("A", founder_double)] = keys [("A", founder "A")].
Proof.
  exact (proj2 (normalize_keeps_persons binary64
                  (probabilities (enumerate binary64 [("A", founder "A")]))
                  [("A", founder_double)] eq_refl)
               [("A", founder "A")] eq_refl).
Defined.

(** X14.  [normalize]: with exact arithmetic, normalizing a normalized
    table succeeds and changes no entry. *)
Theorem normalize_twice :
  forall table table' : dict (Distribution rational),
    normalize rational table = Some table' ->
    exists table'',
      normalize rational table' = Some table'' /\ table_eq table' table''.
Proof.
  intros table table' H.
  pose proof (normalize_Some_nonzero table table' H) as Hnz.
  pose proof (normalize_Some_scaled table table' H) as ->.
  assert (Hunit : forall person d,
             In (person, d)
                (map (fun entry => (fst entry, scaled (snd entry))) table) ->
             (gene_total rational d == 1 /\ trait_total rational d == 1)%Q).
  { intros person d Hin. apply in_map_iff in Hin.
    destruct Hin as [[p d0] [Heq Hin]]. cbn [fst snd] in Heq.
    injection Heq as <- <-. destruct (Hnz p d0 Hin) as [Hg Ht].
    split; [now apply gene_total_scaled | now apply trait_total_scaled]. }
  eexists. split.
  - apply normalize_Some. intros person d Hin.
    destruct (Hunit person d Hin) as [Hg Ht].
    split; intros Hz; [rewrite Hg in Hz | rewrite Ht in Hz]; discriminate.
  - unfold table_eq. rewrite <- (map_id (map _ table)) at 1.
    apply Forall2_map_same. intros [person d] Hin. cbn [fst snd].
    split; [reflexivity|].
    destruct (Hunit person d Hin) as [Hg Ht]. now apply scaled_of_unit.
Qed.

Lemma normalize_twice_witness :
  exists table' table'',
    normalize rational [("A", Build_Distribution rational 1%Q 2%Q 1%Q 3%Q 1%Q)]
    = Some table'
    /\ normalize rational table' = Some table''.
Proof.
  assert (H : normalize rational
                [("A", Build_Distribution rational 1%Q 2%Q 1%Q 3%Q 1%Q)]
              = Some (map (fun entry => (fst entry, scaled (snd entry)))
                          [("A", Build_Distribution rational 1%Q 2%Q 1%Q 3%Q 1%Q)])).
  { apply normalize_Some. intros person d [Heq|[]].
    injection Heq as <- <-. split; intros Hz; vm_compute in Hz;
      discriminate Hz. }
  destruct (normalize_twice _ _ H) as [table'' [H2 _]].
  eexists. exists table''. split; [exact H | exact H2].
Defined.

(** X15.  [main]: for a pedigree of [n] persons of whom [u] have no
    observed trait, [joint_probability] is evaluated [2^u * 3^n] times. *)
Theorem number_of_evaluations :
  forall (A : Arith) (people : dict Person),
    NoDup (keys people) ->
    List.length (evaluated (enumerate A people))
    = 2 ^ unobserved people * 3 ^ List.length people.
Proof.
  intros A people Hn. rewrite enumerate_evaluated.
  unfold to_set. rewrite (nodup_fixed_point string_dec Hn).
  rewrite (length_scenarios people (keys people) Hn).
  rewrite (free_count people Hn). unfold keys. now rewrite length_map.
Qed.

Lemma number_of_evaluations_witness :
  List.length (evaluated (enumerate rational family0)) = 54.
Proof.
  refine (number_of_evaluations rational family0 _).
  repeat constructor; simpl; intuition discriminate.
Defined.

(** X16.  [main]: with exact arithmetic the posterior of a person is the
    conditional probability given the evidence: the entry for a gene count,
    or for a trait value, is the sum of the joint probabilities of the
    evaluated scenarios with that count, or that value, divided by the sum
    over all evaluated scenarios. *)
Theorem posterior_is_conditional_probability :
  forall (people : dict Person) (person : string) (info : Person),
    lookup people person = Some info ->
    exists table d,
      main rational people = Some table
      /\ lookup table person = Some d
      /\ (forall g,
            gene rational d g
            == mass people
                 (with_count person g (evaluated (enumerate rational people)))
               / mass people (evaluated (enumerate rational people)))%Q
      /\ (forall t,
            trait_of rational d t
            == mass people
                 (with_trait person t (evaluated (enumerate rational people)))
               / mass people (evaluated (enumerate rational people)))%Q.
Proof. exact posterior_as_quotient. Qed.

Lemma posterior_is_conditional_probability_witness :
  exists table d,
    main rational family0 = Some table /\ lookup table "Harry" = Some d.
Proof.
  destruct (posterior_is_conditional_probability family0 "Harry"
              (child "Harry" "Lily" "James" None) eq_refl)
    as [table [d [H1 [H2 _]]]].
  exists table, d. auto.
Defined.

(** X17.  [main]: for a pedigree in which nobody is their own ancestor and
    no trait is observed, with exact arithmetic every accumulated row
    already sums to one, so that [normalize] changes no entry. *)
Theorem no_evidence_no_rescaling :
  forall people : dict Person,
    NoDup (keys people) -> acyclic people -> no_evidence people ->
    exists table,
      main rational people = Some table
      /\ table_eq (probabilities (enumerate rational people)) table.
Proof.
  intros people Hn Ha Hne. rewrite main_rational_Some.
  eexists. split; [reflexivity|]. unfold table_eq.
  rewrite <- (map_id (probabilities _)) at 1.
  apply Forall2_map_same. intros [person d] Hin. cbn [fst snd].
  split; [reflexivity|].
  rewrite enumerate_table in Hin. apply in_map_iff in Hin.
  destruct Hin as [[p info] [Heq _]]. cbn [fst snd] in Heq.
  injection Heq as <- <-.
  destruct (row_totals people p
              (scenarios people (to_set (keys people))
                         (powerset (to_set (keys people))))) as [Tg Tt].
  rewrite (no_evidence_scenarios people _ _ Hne) in *.
  fold (all_scenarios (to_set (keys people))) in *.
  pose proof (mass_all_scenarios_one people Hn Ha) as H1.
  apply scaled_of_unit.
  - now rewrite Tg.
  - now rewrite Tt.
Qed.

Lemma no_evidence_no_rescaling_witness :
  exists table, main rational (load_data orphan_rows) = Some table.
Proof.
  destruct (no_evidence_no_rescaling (load_data orphan_rows))
    as [table [H _]].
  - repeat constructor; simpl; intuition.
  - exists (fun _ => 0). intros entry p Hin Hp Hk. cbn in Hin, Hk.
    destruct Hin as [<-|[]]. destruct Hk as [<-|[]].
    destruct Hp as [Hp|Hp]; discriminate.
  - intros entry Hin. cbn in Hin. destruct Hin as [<-|[]]. reflexivity.
  - exists table. exact H.
Defined.

(** X18.  [main]: with exact arithmetic every gene count of every person
    keeps a positive posterior probability, whatever the evidence. *)
Theorem every_gene_count_stays_possible :
  forall (people : dict Person) (person : string) (info : Person)
         (g : copies),
    lookup people person = Some info ->
    exists table d,
      main rational people = Some table
      /\ lookup table person = Some d
      /\ (0 < gene rational d g)%Q.
Proof.
  intros people person info g Hl.
  destruct (posterior_as_quotient people person info Hl)
    as [table [d [H1 [H2 [Hg _]]]]].
  exists table, d. split; [assumption|]. split; [assumption|].
  rewrite Hg, enumerate_evaluated.
  assert (Hin : In person (to_set (keys people))).
  { apply names_In. eapply lookup_In; eassumption. }
  apply Qdiv_pos.
  - apply mass_pos. apply scenario_with_count;
      [apply names_NoDup | assumption | apply some_candidate_survives].
  - apply mass_pos. apply scenarios_nonempty;
      [apply names_NoDup | apply some_candidate_survives].
Qed.

Lemma every_gene_count_stays_possible_witness :
  exists table d,
    main rational family0 = Some table
    /\ lookup table "James" = Some d
    /\ (0 < gene rational d C2)%Q.
Proof.
  exact (every_gene_count_stays_possible family0 "James"
           {| name := "James"; mother := None; father := None;
              trait := Some true |} C2 eq_refl).
Defined.

(** X19.  [joint_probability]: in floating point the result is, for every
    pedigree and every scenario, a finite double between 0 and 1: the
    product never overflows and rounding never takes it out of the unit
    interval. *)
Theorem float_joint_probability_in_unit_interval :
  forall (people : dict Person) (one_gene two_genes have_trait : pyset),
    sane (joint_probability binary64 people one_gene two_genes have_trait)
    = true
    /\ joint_probability binary64 people one_gene two_genes have_trait
       <> S754_infinity false
    /\ (0 <= Binary64.to_Q
               (joint_probability binary64 people one_gene two_genes
                                  have_trait)
        <= 1)%Q.
Proof.
  intros people one two ht.
  destruct (joint_probability_bounded people one two ht) as [Hs [Hf Hle]].
  split; [exact Hs|]. split; [exact Hf|]. split; [|exact Hle].
  now apply to_Q_nonneg.
Qed.

(** X20.  [joint_probability]: in floating point, for a pedigree of at most
    51 persons the result is positive for every scenario: the product does
    not underflow to zero. *)
Theorem float_joint_probability_positive :
  forall (people : dict Person) (one_gene two_genes have_trait : pyset),
    (List.length people <= 51)%nat ->
    (0 < Binary64.to_Q
           (joint_probability binary64 people one_gene two_genes
                              have_trait))%Q.
Proof.
  intros people one two ht Hn.
  exact (at_least_positive _ _
           (joint_probability_at_least people one two ht Hn)).
Qed.

Lemma float_joint_probability_positive_witness :
  (0 < Binary64.to_Q
         (joint_probability binary64 family0 ["Harry"] ["James"]
                            ["James"]))%Q.
Proof.
  apply float_joint_probability_positive. simpl. lia.
Defined.

(** X21.  [update]: in floating point no accumulated entry of any person
    overflows, for any pedigree and however many scenarios are added, and
    the totals that [normalize] divides by are finite as well. *)
Theorem float_masses_never_overflow :
  forall (people : dict Person) (person : string)
         (d0 : Distribution binary64),
    lookup (probabilities (enumerate binary64 people)) person = Some d0 ->
    (forall g, gene binary64 d0 g <> S754_infinity false)
    /\ (forall t, trait_of binary64 d0 t <> S754_infinity false)
    /\ gene_total binary64 d0 <> S754_infinity false
    /\ trait_total binary64 d0 <> S754_infinity false.
Proof.
  intros people person d0 Hrow.
  pose proof (accumulated_row_capped people person d0 Hrow) as Hc.
  destruct (totals_finite d0 Hc) as [Tg Tt].
  destruct Hc as [H2 [H1 [H0 [Ht Hf]]]].
  split; [|split; [|split; assumption]].
  - intros g. destruct g; cbn [gene]; [apply H0 | apply H1 | apply H2].
  - intros t. destruct t; cbn [trait_of]; [apply Ht | apply Hf].
Qed.

Lemma float_masses_never_overflow_witness :
  gene_total binary64
    (person_after binary64 family0 "Harry"
       (scenarios family0 (to_set (keys family0))
                  (powerset (to_set (keys family0))))
       (zero_distribution binary64))
  <> S754_infinity false.
Proof.
  exact (proj1 (proj2 (proj2
           (float_masses_never_overflow family0 "Harry" _ eq_refl)))).
Defined.

(** X22.  [main]: in floating point, for every pedigree, whenever [main]
    returns a table the three gene entries of every person sum to one
    within [1e-9], and so do the two trait entries. *)
Theorem float_posterior_sums_to_one :
  forall (people : dict Person) (table : dict (Distribution binary64))
         (person : string) (d : Distribution binary64),
    main binary64 people = Some table ->
    lookup table person = Some d ->
    within_1e9 (gene_sum_Q d) 1 /\ within_1e9 (trait_sum_Q d) 1.
Proof. exact main_sums_to_one. Qed.

Lemma float_posterior_sums_to_one_witness :
  within_1e9 (gene_sum_Q founder_double) 1
  /\ within_1e9 (trait_sum_Q founder_double) 1.
Proof.
  exact (float_posterior_sums_to_one [("A", founder "A")]
           [("A", founder_double)] "A" founder_double eq_refl eq_refl).
Defined.

(** X23.  [main]: in floating point, for every pedigree of at most 51
    persons no total is zero, so no division raises and [main] returns a
    table. *)
Theorem float_main_returns :
  forall people : dict Person,
    (List.length people <= 51)%nat ->
    exists table, main binary64 people = Some table.
Proof.
  intros people Hn. destruct (main binary64 people) as [table|] eqn:E;
    [now exists table|].
  exfalso. unfold main in E.
  apply (normalize_raises binary64 Binary64.is_zero div_binary64_raises) in E.
  destruct E as [person [d [Hin Hz]]].
  rewrite enumerate_table in Hin. apply in_map_iff in Hin.
  destruct Hin as [[p info] [Heq _]]. cbn [fst snd] in Heq.
  injection Heq as <- <-.
  set (calls := scenarios people (to_set (keys people))
                          (powerset (to_set (keys people)))) in *.
  assert (Hne : calls <> []).
  { apply scenarios_nonempty;
      [apply names_NoDup | apply some_candidate_survives]. }
  pose proof (person_after_capped people p calls _ zero_distribution_capped)
    as Hc.
  pose proof (person_after_positive people p calls _ Hn Hne
                zero_distribution_capped) as Hp.
  destruct (totals_not_zero _ Hc Hp) as [Zg Zt].
  destruct Hz as [Hz|Hz]; congruence.
Qed.

Lemma float_main_returns_witness :
  exists table, main binary64 family0 = Some table.
Proof.
  apply float_main_returns. simpl. lia.
Defined.

(** X24.  [update]: in floating point, for every pedigree and every person,
    the exact sum of the three accumulated gene masses and the exact sum of
    the two accumulated trait masses are both the exact sum of the joint
    probabilities computed for the [n] evaluated scenarios up to the
    roundings of [n] additions, a relative factor between [(1 - 2^-52)^n]
    and [(1 + 2^-52)^n]: the two sums agree up to rounding, for all
    persons. *)
Theorem float_accumulated_sums_agree_up_to_rounding :
  forall (people : dict Person) (person : string)
         (d0 : Distribution binary64),
    lookup (probabilities (enumerate binary64 people)) person = Some d0 ->
    let calls := evaluated (enumerate binary64 people) in
    let n := Z.of_nat (List.length calls) in
    (((1 - roundoff) ^ n * gene_sum_Q d0 <= float_mass people calls
      /\ float_mass people calls <= (1 + roundoff) ^ n * gene_sum_Q d0)
     /\ ((1 - roundoff) ^ n * trait_sum_Q d0 <= float_mass people calls
         /\ float_mass people calls <= (1 + roundoff) ^ n * trait_sum_Q d0))%Q.
Proof.
  intros people person d0 Hrow. cbn zeta.
  rewrite enumerate_evaluated. rewrite enumerate_table in Hrow.
  rewrite (lookup_map (fun p _ =>
             person_after binary64 people p
               (scenarios people (to_set (keys people))
                          (powerset (to_set (keys people))))
               (zero_distribution binary64))) in Hrow.
  destruct (lookup people person); [|discriminate].
  cbn [option_map] in Hrow. injection Hrow as <-.
  apply accumulated_sums_drift.
Qed.

Lemma float_accumulated_sums_agree_up_to_rounding_witness :
  ((1 - roundoff) ^ 6 * gene_sum_Q (founder_row binary64)
   <= float_mass [("A", founder "A")] (single_calls "A"))%Q.
Proof.
  exact (proj1 (proj1
           (float_accumulated_sums_agree_up_to_rounding
              [("A", founder "A")] "A" (founder_row binary64) eq_refl))).
Defined.
